(** * manim-dsa: synchronised logical / visual collections and graphs

    A shallow embedding of the mutating operations of [MCollection], [MArray],
    [MStack] and [MGraph] (package [manim_dsa]) and the properties the
    specification states about them.

    Conventions of the embedding
    - a Python object that is mutated in place is a record threaded through a
      state-and-exception monad; an exception keeps the state reached when it
      was raised, as the mutations made before a Python [raise] stay visible;
    - coordinates are exact rationals ([Qc], Leibniz equality) in place of
      numpy's float64 arrays, so a comparison of computed coordinates is
      decided without rounding;
    - what the host renderer alone decides (the extent of a rendered text, the
      Euclidean norm of a vector) is a [Variable] of the section using it. *)

From Stdlib Require Import ZArith QArith Qcanon.
From stdpp Require Import base decidable option numbers list gmap strings pretty.

Open Scope Z_scope.

(** ** Points and vectors (numpy arrays of three coordinates) *)

Module Geometry.

Record Point3D := Point { px : Qc; py : Qc; pz : Qc }.

#[export] Instance Point3D_eq_dec : EqDecision Point3D.
Proof. solve_decision. Defined.

Definition half : Qc := Q2Qc (Qmake 1 2).

Definition ORIGIN : Point3D := Point 0 0 0.
Definition UP : Point3D := Point 0 1 0.
Definition DOWN : Point3D := Point 0 (-1) 0.
Definition RIGHT : Point3D := Point 1 0 0.
Definition LEFT : Point3D := Point (-1) 0 0.
Definition UL : Point3D := Point (-1) 1 0.
Definition UR : Point3D := Point 1 1 0.

Definition vadd (a b : Point3D) : Point3D :=
  Point (px a + px b) (py a + py b) (pz a + pz b).
Definition vsub (a b : Point3D) : Point3D :=
  Point (px a - px b) (py a - py b) (pz a - pz b).
Definition vneg (a : Point3D) : Point3D :=
  Point (- px a) (- py a) (- pz a).
Definition vscale (k : Qc) (a : Point3D) : Point3D :=
  Point (k * px a) (k * py a) (k * pz a).

Definition Qcabs (q : Qc) : Qc := if decide (q < 0)%Qc then (- q)%Qc else q.

(** [np.abs] on an array. *)
Definition vabs (a : Point3D) : Point3D :=
  Point (Qcabs (px a)) (Qcabs (py a)) (Qcabs (pz a)).

(** [np.array_equal]. *)
Definition array_equal (a b : Point3D) : bool := bool_decide (a = b).

Definition Qcmin (a b : Qc) : Qc := if decide (a ≤ b)%Qc then a else b.
Definition Qcmax (a b : Qc) : Qc := if decide (a ≤ b)%Qc then b else a.

(** An axis-aligned bounding box, by its two extreme corners. *)
Record Box := { lo : Point3D; hi : Point3D }.

Definition box_union (a b : Box) : Box :=
  {| lo := Point (Qcmin (px (lo a)) (px (lo b))) (Qcmin (py (lo a)) (py (lo b)))
                 (Qcmin (pz (lo a)) (pz (lo b)));
     hi := Point (Qcmax (px (hi a)) (px (hi b))) (Qcmax (py (hi a)) (py (hi b)))
                 (Qcmax (pz (hi a)) (pz (hi b))) |}.

Definition box_shift (v : Point3D) (b : Box) : Box :=
  {| lo := vadd (lo b) v; hi := vadd (hi b) v |}.

(** One coordinate of [Mobject.get_critical_point]: the least value for a
    negative direction, the greatest for a positive one, the middle for 0. *)
Definition pick (d l h : Qc) : Qc :=
  if decide (d < 0)%Qc then l
  else if decide (d = 0%Qc) then ((l + h) * half)%Qc else h.

Definition get_critical_point (b : Box) (direction : Point3D) : Point3D :=
  Point (pick (px direction) (px (lo b)) (px (hi b)))
        (pick (py direction) (py (lo b)) (py (hi b)))
        (pick (pz direction) (pz (lo b)) (pz (hi b))).

Definition get_center (b : Box) : Point3D := get_critical_point b ORIGIN.

(** The vector [Mobject.move_to(target, aligned_edge)] shifts by. *)
Definition move_to_vector (self target : Box) (aligned_edge : Point3D) : Point3D :=
  vsub (get_critical_point target aligned_edge) (get_critical_point self aligned_edge).

(** The vector [Mobject.next_to(target, direction, buff)] shifts by (the
    default [aligned_edge=ORIGIN]). *)
Definition next_to_vector (self target : Box) (direction : Point3D) (buff : Qc)
  : Point3D :=
  vadd (vsub (get_critical_point target direction)
             (get_critical_point self (vneg direction)))
       (vscale buff direction).

(** A rectangle (or the frame of any shape) by centre, width and height. *)
Record Rectangle := { center : Point3D; width : Qc; height : Qc }.

Definition Rectangle_box (r : Rectangle) : Box :=
  {| lo := Point (px (center r) - width r * half) (py (center r) - height r * half)
                 (pz (center r));
     hi := Point (px (center r) + width r * half) (py (center r) + height r * half)
                 (pz (center r)) |}.

Definition Rectangle_shift (v : Point3D) (r : Rectangle) : Rectangle :=
  {| center := vadd (center r) v; width := width r; height := height r |}.

(** A rendered text: its string, font size and frame. *)
Record Text := { text : string; font_size : Qc; frame : Rectangle }.

Definition Text_shift (v : Point3D) (t : Text) : Text :=
  {| text := text t; font_size := font_size t; frame := Rectangle_shift v (frame t) |}.

Definition Text_box (t : Text) : Box := Rectangle_box (frame t).

(** [Text.move_to(target)] for a target with bounding box [b]. *)
Definition Text_move_to (t : Text) (b : Box) : Text :=
  Text_shift (move_to_vector (Text_box t) b ORIGIN) t.

(** A straight line by its two end points. *)
Record Line := { line_start : Point3D; line_end : Point3D }.

Definition Line_box (l : Line) : Box :=
  {| lo := Point (Qcmin (px (line_start l)) (px (line_end l)))
                 (Qcmin (py (line_start l)) (py (line_end l)))
                 (Qcmin (pz (line_start l)) (pz (line_end l)));
     hi := Point (Qcmax (px (line_start l)) (px (line_end l)))
                 (Qcmax (py (line_start l)) (py (line_end l)))
                 (Qcmax (pz (line_start l)) (pz (line_end l))) |}.

Definition Line_shift (v : Point3D) (l : Line) : Line :=
  {| line_start := vadd (line_start l) v; line_end := vadd (line_end l) v |}.

(** [line.next_to(target, direction, buff)] for a target with box [b]. *)
Definition Line_next_to (l : Line) (b : Box) (direction : Point3D) (buff : Qc) : Line :=
  Line_shift (next_to_vector (Line_box l) b direction buff) l.

Definition DEFAULT_MOBJECT_TO_MOBJECT_BUFFER : Qc := Q2Qc (Qmake 1 4).

End Geometry.
Export Geometry.

(** ** Python: exceptions, in-place mutation, list subscripts *)

Module Py.

Inductive exn :=
| IndexError
| KeyError
| AttributeError
| TypeError
| Exception (msg : string).

#[export] Instance exn_eq_dec : EqDecision exn.
Proof. solve_decision. Defined.

(** The result of a call on a mutable object of state [St]: a value with
    the state after the call, or an exception with the state it left. *)
Inductive res (St A : Type) :=
| Ret (a : A) (s : St)
| Exc (e : exn) (s : St).
Arguments Ret {St A} a s.
Arguments Exc {St A} e s.

Definition M (St A : Type) : Type := St → res St A.

Definition ret {St A} (a : A) : M St A := λ s, Ret a s.
Definition bind {St A B} (m : M St A) (k : A → M St B) : M St B :=
  λ s, match m s with
       | Ret a s' => k a s'
       | Exc e s' => Exc e s'
       end.
Definition raise {St A} (e : exn) : M St A := λ s, Exc e s.
Definition get {St} : M St St := λ s, Ret s s.
Definition modify {St} (f : St → St) : M St unit := λ s, Ret tt (f s).
(** A lookup that raises [e] when it finds nothing. *)
Definition lookup_or {St A} (e : exn) (o : option A) : M St A :=
  match o with Some a => ret a | None => raise e end.

(** [for a in l: body(a)]. *)
Fixpoint for_each {St A} (l : list A) (body : A → M St unit) : M St unit :=
  match l with
  | [] => ret tt
  | a :: l' => bind (body a) (λ _, for_each l' body)
  end.

Definition state_of {St A} (r : res St A) : St :=
  match r with Ret _ s => s | Exc _ s => s end.
Definition raised {St A} (r : res St A) : option exn :=
  match r with Ret _ _ => None | Exc e _ => Some e end.
Definition returned {St A} (r : res St A) : option A :=
  match r with Ret a _ => Some a | Exc _ _ => None end.

(** The position [l[i]] names in a list of length [n]: a negative subscript
    counts from the end, anything outside [-n, n) is an [IndexError]. *)
Definition subscript (n : nat) (i : Z) : option nat :=
  if decide (0 ≤ i < Z.of_nat n) then Some (Z.to_nat i)
  else if decide (- Z.of_nat n ≤ i < 0) then Some (Z.to_nat (Z.of_nat n + i))
  else None.

Definition getitem {A} (l : list A) (i : Z) : option A :=
  match subscript (length l) i with
  | Some k => l !! k
  | None => None
  end.

(** The first position of the slice [l[i:]] (slices clamp, they never raise). *)
Definition slice_start (n : nat) (i : Z) : nat :=
  if decide (i < 0) then Z.to_nat (Z.max 0 (Z.of_nat n + i))
  else Z.to_nat (Z.min i (Z.of_nat n)).

(** [range(start, stop)]. *)
Definition range (start stop : Z) : list Z := seqZ start (stop - start).

(** Python truthiness of the values an edge weight can be. *)
Inductive value :=
| PyNone
| PyInt (n : Z)
| PyStr (s : string).

Definition truthy (v : value) : bool :=
  match v with
  | PyNone => false
  | PyInt n => bool_decide (n ≠ 0)
  | PyStr s => bool_decide (s ≠ "")
  end.

(** [str(v)]. *)
Definition str (v : value) : string :=
  match v with
  | PyNone => "None"
  | PyInt n => pretty n
  | PyStr s => s
  end.

End Py.
Export Py.

Notation "x <- c1 ;; c2" := (bind c1 (λ x, c2))
  (at level 100, c1 at next level, right associativity).
Notation "c1 ;; c2" := (bind c1 (λ _, c2))
  (at level 100, right associativity).

(** ** The renderer's group of children ([Mobject.submobjects]) *)

Module Mobject.
Section Children.

Context {A : Type} `{EqDecision A}.

(** [Mobject.add]: the child goes to the end of the list, and an earlier
    occurrence of it is dropped. *)
Definition add (m : A) (l : list A) : list A :=
  filter (λ x, x ≠ m) l ++ [m].

(** [Mobject.remove]: the child leaves the list when it is in it. *)
Fixpoint remove (m : A) (l : list A) : list A :=
  match l with
  | [] => []
  | x :: l' => if decide (x = m) then l' else x :: remove m l'
  end.

End Children.
End Mobject.

(** ** MElement, MCollection, MArray and MStack
    (m_collection/m_collection.py, m_array.py, m_stack.py) *)

Module Collection.

(** The entries of [CollectionStyle] / [ArrayStyle] the code reads and
    writes: [style.square["width"]], [style.square["height"]],
    [style.value["font_size"]] and [style.index["font_size"]]. *)
Record Style := {
  square_width : Qc;
  square_height : Qc;
  value_font_size : Qc;
  index_font_size : Qc }.

Definition DEFAULT : Style :=
  {| square_width := 1; square_height := 1;
     value_font_size := Qc_of_Z 48; index_font_size := Qc_of_Z 32 |}.

(** [MElement] / [MIndexedElement]: a square, the text of its value and,
    once [add_index] ran, the caption [index]. [uid] is the identity of the
    Python object. The element's own group always holds its square, its
    value and, when it has one, its index caption. *)
Record MElement := {
  uid : nat;
  square : Rectangle;
  value : Text;
  index : option Text }.

Definition with_index (o : option Text) (e : MElement) : MElement :=
  {| uid := uid e; square := square e; value := value e; index := o |}.

(** The bounding box of [VGroup(elem.square, elem.value)]. *)
Definition body_box (e : MElement) : Box :=
  box_union (Rectangle_box (square e)) (Text_box (value e)).

(** The bounding box of the whole element. *)
Definition MElement_box (e : MElement) : Box :=
  match index e with
  | Some t => box_union (body_box e) (Text_box t)
  | None => body_box e
  end.

(** [VGroup(elem.square, elem.value).shift(v)]. *)
Definition body_shift (v : Point3D) (e : MElement) : MElement :=
  {| uid := uid e; square := Rectangle_shift v (square e);
     value := Text_shift v (value e); index := index e |}.

(** [elem.shift(v)]. *)
Definition MElement_shift (v : Point3D) (e : MElement) : MElement :=
  {| uid := uid e; square := Rectangle_shift v (square e);
     value := Text_shift v (value e); index := Text_shift v <$> index e |}.

(** [MElement.__init__]: the value is centred on the square. *)
Definition MElement_init (u : nat) (square : Rectangle) (value : Text) : MElement :=
  {| uid := u; square := square;
     value := Text_move_to value (Rectangle_box square); index := None |}.

(** [MIndexedElement.add_index]. *)
Definition add_index (index : Text) (direction : Point3D) (buff : Qc)
    (e : MElement) : MElement :=
  with_index
    (Some (Text_shift
             (next_to_vector (Text_box index) (Rectangle_box (square e)) direction buff)
             index))
    e.

(** The three lines of the stack's container. *)
Record Container := {
  left_line : Line;
  bottom_line : Line;
  right_line : Line }.

Definition Container_shift (v : Point3D) (k : Container) : Container :=
  {| left_line := Line_shift v (left_line k);
     bottom_line := Line_shift v (bottom_line k);
     right_line := Line_shift v (right_line k) |}.

Definition Container_box (k : Container) : Box :=
  box_union (Line_box (left_line k))
            (box_union (Line_box (bottom_line k)) (Line_box (right_line k))).

(** A child of the collection's visual group ([VGroup.submobjects]): the
    zero-opacity template [_hidden_element], an element attached by
    [append], or the stack's container. *)
Inductive Submobject :=
| Hidden (u : nat)
| Element (u : nat)
| ContainerLines.

#[export] Instance Submobject_eq_dec : EqDecision Submobject.
Proof. solve_decision. Defined.

(** The state of a collection object. [_index_enabled] and [_index_dir] are
    the attributes [MArray] adds, [container] the one [MStack] adds;
    [next_uid] numbers the elements as they are created. *)
Record MCollection := {
  elements : list MElement;
  submobjects : list Submobject;
  style : Style;
  margin : Qc;
  _hidden_element : MElement;
  _dir : Point3D;
  _index_enabled : bool;
  _index_dir : option Point3D;
  container : option Container;
  next_uid : nat }.

Definition set_elements (l : list MElement) (c : MCollection) : MCollection :=
  {| elements := l; submobjects := submobjects c; style := style c;
     margin := margin c; _hidden_element := _hidden_element c; _dir := _dir c;
     _index_enabled := _index_enabled c; _index_dir := _index_dir c;
     container := container c; next_uid := next_uid c |}.

Definition set_submobjects (l : list Submobject) (c : MCollection) : MCollection :=
  {| elements := elements c; submobjects := l; style := style c;
     margin := margin c; _hidden_element := _hidden_element c; _dir := _dir c;
     _index_enabled := _index_enabled c; _index_dir := _index_dir c;
     container := container c; next_uid := next_uid c |}.

Definition set_style (s : Style) (c : MCollection) : MCollection :=
  {| elements := elements c; submobjects := submobjects c; style := s;
     margin := margin c; _hidden_element := _hidden_element c; _dir := _dir c;
     _index_enabled := _index_enabled c; _index_dir := _index_dir c;
     container := container c; next_uid := next_uid c |}.

Definition set_hidden_element (h : MElement) (c : MCollection) : MCollection :=
  {| elements := elements c; submobjects := submobjects c; style := style c;
     margin := margin c; _hidden_element := h; _dir := _dir c;
     _index_enabled := _index_enabled c; _index_dir := _index_dir c;
     container := container c; next_uid := next_uid c |}.

Definition set_indexing (enabled : bool) (direction : option Point3D)
    (c : MCollection) : MCollection :=
  {| elements := elements c; submobjects := submobjects c; style := style c;
     margin := margin c; _hidden_element := _hidden_element c; _dir := _dir c;
     _index_enabled := enabled; _index_dir := direction;
     container := container c; next_uid := next_uid c |}.

Definition set_container (k : option Container) (c : MCollection) : MCollection :=
  {| elements := elements c; submobjects := submobjects c; style := style c;
     margin := margin c; _hidden_element := _hidden_element c; _dir := _dir c;
     _index_enabled := _index_enabled c; _index_dir := _index_dir c;
     container := k; next_uid := next_uid c |}.

Definition set_next_uid (n : nat) (c : MCollection) : MCollection :=
  {| elements := elements c; submobjects := submobjects c; style := style c;
     margin := margin c; _hidden_element := _hidden_element c; _dir := _dir c;
     _index_enabled := _index_enabled c; _index_dir := _index_dir c;
     container := container c; next_uid := n |}.

(** The bounding box of the whole group. *)
Definition group_box (c : MCollection) : Box :=
  let b := foldl (λ b e, box_union b (MElement_box e))
                 (MElement_box (_hidden_element c)) (elements c) in
  match container c with
  | Some k => box_union b (Container_box k)
  | None => b
  end.

(** [self.shift(v)] on the whole group. *)
Definition group_shift (v : Point3D) (c : MCollection) : MCollection :=
  set_container (Container_shift v <$> container c)
    (set_hidden_element (MElement_shift v (_hidden_element c))
       (set_elements (MElement_shift v <$> elements c) c)).

(** [self.move_to(point)] on the whole group. *)
Definition group_move_to (point : Point3D) (c : MCollection) : MCollection :=
  group_shift (vsub point (get_center (group_box c))) c.

(** The elements of the slice [self.elements[index:]], grouped and shifted
    by [v]; the others stay. *)
Definition shift_slice (index : Z) (v : Point3D) (l : list MElement) : list MElement :=
  let k := slice_start (length l) index in
  take k l ++ (MElement_shift v <$> drop k l).

(** The object [self.elements[i]] is mutated in place by [f]. *)
Definition update_item (i : Z) (f : MElement → MElement) : M MCollection unit :=
  c <- get ;;
  k <- lookup_or IndexError (subscript (length (elements c)) i) ;;
  modify (set_elements (alter f k (elements c))).

Definition item (i : Z) : M MCollection MElement :=
  c <- get ;;
  lookup_or IndexError (getitem (elements c) i).

(** [Text(s, font_size=...)] and [Rectangle(width=..., height=...)] as the
    renderer creates them, centred on the origin; [text_extent] is the
    width and height the renderer gives a text. *)
Definition Text_init (text_extent : string → Qc → Qc * Qc) (s : string)
    (font_size : Qc) : Text :=
  {| text := s; font_size := font_size;
     frame := {| center := ORIGIN; width := (text_extent s font_size).1;
                 height := (text_extent s font_size).2 |} |}.

Definition Rectangle_init (w h : Qc) : Rectangle :=
  {| center := ORIGIN; width := w; height := h |}.

(** The object before [__init__] ran. *)
Definition new_object : MCollection :=
  {| elements := []; submobjects := []; style := DEFAULT; margin := 0%Qc;
     _hidden_element := MElement_init 0 (Rectangle_init 0 0)
                          {| text := ""; font_size := 0%Qc; frame := Rectangle_init 0 0 |};
     _dir := ORIGIN; _index_enabled := false; _index_dir := None;
     container := None; next_uid := 0 |}.

Definition attach (m : Submobject) : M MCollection unit :=
  modify (λ c, set_submobjects (Mobject.add m (submobjects c)) c).

Definition detach (m : Submobject) : M MCollection unit :=
  modify (λ c, set_submobjects (Mobject.remove m (submobjects c)) c).

End Collection.
Export Collection.

Module MCollection.
Section Renderer.

Variable text_extent : string → Qc → Qc * Qc.

Definition _update_style : M MCollection unit :=
  modify (λ c,
    set_style
      {| square_width := width (square (_hidden_element c));
         square_height := width (square (_hidden_element c));
         value_font_size := font_size (value (_hidden_element c));
         index_font_size := index_font_size (style c) |}
      c).

(** Once [new_element] is appended to the list, the list has more than one
    element exactly when it was not empty before, and [self.elements[-2]]
    is then the element that was last. *)
Definition _append_helper (new_element : MElement) : M MCollection unit :=
  c <- get ;;
  let placed :=
    match last (elements c) with
    | Some previous =>
        MElement_shift
          (next_to_vector (MElement_box new_element)
             (Rectangle_box (square previous)) (_dir c) (margin c))
          new_element
    | None =>
        MElement_shift
          (move_to_vector (MElement_box new_element)
             (Rectangle_box (square (_hidden_element c))) ORIGIN)
          new_element
    end in
  modify (set_elements (elements c ++ [placed])) ;;
  attach (Element (uid placed)).

(** The element [MElement(Rectangle( **style.square ), Text(str(value),
    **style.value ))], numbered with the next free identity. *)
Definition new_element (value : Py.value) : M MCollection MElement :=
  c <- get ;;
  modify (set_next_uid (S (next_uid c))) ;;
  ret (MElement_init (next_uid c)
         (Rectangle_init (square_width (style c)) (square_height (style c)))
         (Text_init text_extent (str value) (value_font_size (style c)))).

Definition append (value : Py.value) : M MCollection unit :=
  _update_style ;;
  new_elem <- new_element value ;;
  _append_helper new_elem.

Definition _logic_pop (index : Z) : M MCollection MElement :=
  popped_element <- item index ;;
  detach (Element (uid popped_element)) ;;
  c <- get ;;
  k <- lookup_or IndexError (subscript (length (elements c)) index) ;;
  modify (set_elements (delete k (elements c))) ;;
  ret popped_element.

Definition pop (index : Z) : M MCollection unit :=
  c <- get ;;
  if decide (length (elements c) ≠ 0%nat) then
    popped_element <- _logic_pop index ;;
    modify (λ c,
      set_elements
        (shift_slice index
           (vneg (vscale (width (square popped_element)) (_dir c)))
           (elements c))
        c)
  else ret tt.

(** [temp] is a copy of [elem_i] taken before either move; [elem_j] is
    read again for its own move, as it is the object [elem_i] when both
    subscripts name the same position. *)
Definition _visual_swap (i j : Z) : M MCollection unit :=
  elem_i <- item i ;;
  elem_j <- item j ;;
  let temp := elem_i in
  update_item i (λ e,
    MElement_shift (move_to_vector (MElement_box e) (MElement_box elem_j) DOWN) e) ;;
  update_item j (λ e,
    MElement_shift (move_to_vector (MElement_box e) (MElement_box temp) DOWN) e).

(** The tuple assignment reads both right-hand sides, then stores into
    position [i], then into position [j]. *)
Definition swap_items (i j : Z) : M MCollection unit :=
  old_i <- item i ;;
  old_j <- item j ;;
  update_item i (λ _, old_j) ;;
  update_item j (λ _, old_i).

Definition _logic_swap (i j : Z) : M MCollection unit :=
  e <- item i ;; detach (Element (uid e)) ;;
  e <- item j ;; detach (Element (uid e)) ;;
  swap_items i j ;;
  e <- item i ;; attach (Element (uid e)) ;;
  e <- item j ;; attach (Element (uid e)).

Definition swap (i j : Z) : M MCollection unit :=
  _visual_swap i j ;;
  _logic_swap i j.

Definition __getitem__ (key : Z) : M MCollection MElement :=
  c <- get ;;
  if decide (key >= Z.of_nat (length (elements c))) then
    raise (Exception "Index out of bounds!")
  else item key.

(** [append] is the method of the object's own class. *)
Definition __init__ (append : Py.value → M MCollection unit)
    (arr : list Py.value) (direction : Point3D) (margin : Qc) (style : Style)
  : M MCollection unit :=
  modify (λ c,
    {| elements := [];
       submobjects := [Hidden 0];
       style := style;
       margin := margin;
       _hidden_element :=
         MElement_init 0
           (Rectangle_init (square_width style) (square_height style))
           (Text_init text_extent "0" (value_font_size style));
       _dir := direction;
       _index_enabled := _index_enabled c;
       _index_dir := _index_dir c;
       container := container c;
       next_uid := 1 |}) ;;
  for_each arr append ;;
  modify (group_move_to ORIGIN).

End Renderer.
End MCollection.

Module MArray.
Section Renderer.

Variable text_extent : string → Qc → Qc * Qc.

Definition _update_style : M MCollection unit :=
  MCollection._update_style ;;
  c <- get ;;
  if _index_enabled c then
    hidden_index <- lookup_or AttributeError (index (_hidden_element c)) ;;
    modify (λ c,
      set_style
        {| square_width := square_width (style c);
           square_height := square_height (style c);
           value_font_size := value_font_size (style c);
           index_font_size := font_size hidden_index |}
        c)
  else ret tt.

Definition _get_index_buff : M MCollection Qc :=
  c <- get ;;
  let square_center := get_center (Rectangle_box (square (_hidden_element c))) in
  hidden_index <- lookup_or AttributeError (index (_hidden_element c)) ;;
  let index_center := get_center (Text_box hidden_index) in
  let offset := (width (square (_hidden_element c)) / 2)%Qc in
  let direction_offset :=
    if array_equal (_dir c) UP || array_equal (_dir c) DOWN
    then Point (offset + width (frame hidden_index) / 2) 0 0
    else Point 0 (offset + height (frame hidden_index) / 2) 0 in
  if bool_decide (_index_dir c = Some UP) || bool_decide (_index_dir c = Some RIGHT)
  then ret (py (vsub (vsub index_center square_center) direction_offset))
  else ret (py (vsub (vsub square_center index_center) direction_offset)).

Definition append (value : Py.value) : M MCollection unit :=
  _update_style ;;
  new_elem <- MCollection.new_element text_extent value ;;
  MCollection._append_helper new_elem ;;
  c <- get ;;
  if _index_enabled c then
    let index :=
      Text_init text_extent (pretty (Z.of_nat (length (elements c)) - 1))
        (index_font_size (style c)) in
    buff <- _get_index_buff ;;
    direction <- lookup_or TypeError (_index_dir c) ;;
    update_item (-1) (add_index index direction buff)
  else ret tt.

Fixpoint _set_index_loop (positions : list Z) (old_index : Text)
  : M MCollection unit :=
  match positions with
  | [] => ret tt
  | i :: rest =>
      curr <- item i ;;
      curr_index <- lookup_or AttributeError (index curr) ;;
      let new_index := Text_move_to old_index (Text_box curr_index) in
      update_item i (with_index (Some new_index)) ;;
      _set_index_loop rest curr_index
  end.

Definition _set_index_from (start end_ : Z) (popped_index : Text)
  : M MCollection unit :=
  _set_index_loop (range start (end_ + 1)) popped_index.

Definition pop (index : Z) : M MCollection unit :=
  c <- get ;;
  if decide (length (elements c) ≠ 0%nat) then
    popped_element <- item index ;;
    MCollection.pop index ;;
    c <- get ;;
    if _index_enabled c then
      popped_index <- lookup_or AttributeError (Collection.index popped_element) ;;
      _set_index_from index (Z.of_nat (length (elements c)) - 1) popped_index
    else ret tt
  else ret tt.

Definition _visual_swap (i j : Z) : M MCollection unit :=
  elem_i <- item i ;;
  elem_j <- item j ;;
  let temp := elem_i in
  update_item i (λ e,
    body_shift (move_to_vector (body_box e) (body_box elem_j) DOWN) e) ;;
  update_item j (λ e,
    body_shift (move_to_vector (body_box e) (body_box temp) DOWN) e).

Definition _logic_swap (i j : Z) : M MCollection unit :=
  e <- item i ;; detach (Element (uid e)) ;;
  e <- item j ;; detach (Element (uid e)) ;;
  MCollection.swap_items i j ;;
  c <- get ;;
  (if _index_enabled c then
     elem_i <- item i ;;
     index_i <- lookup_or AttributeError (index elem_i) ;;
     elem_j <- item j ;;
     index_j <- lookup_or AttributeError (index elem_j) ;;
     update_item i (with_index (Some index_j)) ;;
     update_item j (with_index (Some index_i))
   else ret tt) ;;
  e <- item i ;; attach (Element (uid e)) ;;
  e <- item j ;; attach (Element (uid e)).

(** [MCollection.swap], with the two overridden helpers. *)
Definition swap (i j : Z) : M MCollection unit :=
  _visual_swap i j ;;
  _logic_swap i j.

Definition add_indexes (direction : Point3D) (buff : Qc) : M MCollection unit :=
  c <- get ;;
  if _index_enabled c then ret tt
  else if array_equal (vabs (_dir c)) (vabs direction) then
    raise (Exception "The direction given is parallel to array growth direction!")
  else
    modify (set_indexing true (Some direction)) ;;
    modify (λ c,
      set_hidden_element
        (add_index (Text_init text_extent "0" (index_font_size (style c)))
           direction buff (_hidden_element c))
        c) ;;
    modify (λ c,
      set_elements
        (imap (λ i e,
           add_index (Text_init text_extent (pretty i) (index_font_size (style c)))
             direction buff e)
           (elements c))
        c).

Definition __init__ (arr : list Py.value) (direction : Point3D) (style : Style)
  : M MCollection unit :=
  modify (set_indexing false None) ;;
  MCollection.__init__ text_extent append arr direction 0%Qc style ;;
  c <- get ;;
  modify (set_next_uid (S (next_uid c))) ;;
  modify (set_hidden_element
            (MElement_init (next_uid c) (square (_hidden_element c))
               (value (_hidden_element c)))) ;;
  attach (Hidden (next_uid c)).

(** The object the call [MArray(arr, direction, style)] evaluates to. *)
Definition new (arr : list Py.value) (direction : Point3D) (style : Style)
  : MCollection :=
  state_of (__init__ arr direction style new_object).

End Renderer.
End MArray.

Module MStack.
Section Renderer.

Variable text_extent : string → Qc → Qc * Qc.

Definition append (value : Py.value) : M MCollection unit :=
  MCollection.append text_extent value.

Definition pop : M MCollection unit :=
  c <- get ;;
  MCollection.pop (Z.of_nat (length (elements c)) - 1).

Definition __init__ (arr : list Py.value) (buff : Qc) (style : Style)
  : M MCollection unit :=
  MCollection.__init__ text_extent append arr UP buff style ;;
  c <- get ;;
  let elem :=
    match elements c with
    | e :: _ => square e
    | [] => square (_hidden_element c)
    end in
  let container_height :=
    match arr with
    | _ :: _ => (Qc_of_Z (Z.of_nat (length arr) + 3) * height elem)%Qc
    | [] => (height (square (_hidden_element c)) * Qc_of_Z 7)%Qc
    end in
  let bottom_line :=
    Line_next_to
      {| line_start := ORIGIN; line_end := Point (width elem + 2 * buff) 0 0 |}
      (Rectangle_box elem) DOWN buff in
  let left_line :=
    Line_next_to
      {| line_start := Point 0 container_height 0; line_end := ORIGIN |}
      (Line_box bottom_line) UL 0%Qc in
  let right_line := Line_next_to left_line (Line_box bottom_line) UR 0%Qc in
  modify (set_container
            (Some {| left_line := left_line; bottom_line := bottom_line;
                     right_line := right_line |})) ;;
  attach ContainerLines ;;
  modify (group_move_to ORIGIN).

(** The object the call [MStack(arr, buff, style)] evaluates to. *)
Definition new (arr : list Py.value) (buff : Qc) (style : Style) : MCollection :=
  state_of (__init__ arr buff style new_object).

End Renderer.
End MStack.

(** ** MGraph (m_graph/m_graph.py) *)

Module Graph.

(** The entries of [GraphStyle] the code reads. *)
Record Style := {
  node_radius : Qc;
  node_label_font_size : Qc;
  edge_weight_font_size : Qc }.

Definition DEFAULT : Style :=
  {| node_radius := Q2Qc (Qmake 33 100);
     node_label_font_size := Qc_of_Z 32;
     edge_weight_font_size := Qc_of_Z 21 |}.

Record Circle := { circle_center : Point3D; radius : Qc }.

(** [MGraph.Node]; [node_id] is the identity of the Python object. *)
Record Node := { node_id : nat; circle : Circle; node_label : Text }.

(** A [Line] object of the renderer as an edge uses it: its two ends and
    whether [add_tip] gave it an arrowhead. Edges hold such an object by
    reference, so the objects live in a store ([lines] below). *)
Record TipableLine := { ends : Line; has_tip : bool }.

#[export] Instance TipableLine_inhabited : Inhabited TipableLine :=
  populate {| ends := {| line_start := LEFT; line_end := RIGHT |}; has_tip := false |}.

(** [MGraph.Edge]: [line] is the reference to its line object, [label] is
    [None] until [weighted] ran. *)
Record Edge := {
  edge_id : nat;
  line : nat;
  label : option Text;
  label_distance : option Qc }.

(** [Edge.is_weighted]. *)
Definition is_weighted (e : Edge) : bool := bool_decide (label e ≠ None).

(** A key of the VDict: a node name or an edge name. *)
Definition Key : Type := string + string * string.

(** The state of a graph object: the two dictionaries of the class, the
    [submob_dict] and the children of the [VDict] it extends (objects by
    identity), and the store of line objects. [next_id] numbers the
    objects as they are created. *)
Record MGraph := {
  nodes : gmap string Node;
  edges : gmap (string * string) Edge;
  submob_dict : gmap Key nat;
  submobjects : list nat;
  lines : gmap nat TipableLine;
  style : Style;
  next_id : nat }.

Definition set_nodes (m : gmap string Node) (g : MGraph) : MGraph :=
  {| nodes := m; edges := edges g; submob_dict := submob_dict g;
     submobjects := submobjects g; lines := lines g; style := style g;
     next_id := next_id g |}.

Definition set_edges (m : gmap (string * string) Edge) (g : MGraph) : MGraph :=
  {| nodes := nodes g; edges := m; submob_dict := submob_dict g;
     submobjects := submobjects g; lines := lines g; style := style g;
     next_id := next_id g |}.

Definition set_submob_dict (m : gmap Key nat) (g : MGraph) : MGraph :=
  {| nodes := nodes g; edges := edges g; submob_dict := m;
     submobjects := submobjects g; lines := lines g; style := style g;
     next_id := next_id g |}.

Definition set_submobjects (l : list nat) (g : MGraph) : MGraph :=
  {| nodes := nodes g; edges := edges g; submob_dict := submob_dict g;
     submobjects := l; lines := lines g; style := style g;
     next_id := next_id g |}.

Definition set_lines (m : gmap nat TipableLine) (g : MGraph) : MGraph :=
  {| nodes := nodes g; edges := edges g; submob_dict := submob_dict g;
     submobjects := submobjects g; lines := m; style := style g;
     next_id := next_id g |}.

Definition set_next_id (n : nat) (g : MGraph) : MGraph :=
  {| nodes := nodes g; edges := edges g; submob_dict := submob_dict g;
     submobjects := submobjects g; lines := lines g; style := style g;
     next_id := n |}.

(** The object once [VDict.__init__] ran and [self.style] is set. *)
Definition new_object (style : Style) : MGraph :=
  {| nodes := ∅; edges := ∅; submob_dict := ∅; submobjects := []; lines := ∅;
     style := style; next_id := 0 |}.

(** A fresh object identity. *)
Definition fresh : M MGraph nat :=
  g <- get ;;
  modify (set_next_id (S (next_id g))) ;;
  ret (next_id g).

(** [VDict.add([(key, mob)])]. *)
Definition VDict_add (key : Key) (mob : nat) : M MGraph unit :=
  modify (λ g, set_submob_dict (<[key := mob]> (submob_dict g)) g) ;;
  modify (λ g, set_submobjects (Mobject.add mob (submobjects g)) g).

(** [VDict.remove(key)]. *)
Definition VDict_remove (key : Key) : M MGraph unit :=
  g <- get ;;
  mob <- lookup_or KeyError (submob_dict g !! key) ;;
  modify (λ g, set_submobjects (Mobject.remove mob (submobjects g)) g) ;;
  modify (λ g, set_submob_dict (delete key (submob_dict g)) g).

(** The ends of the line of an edge, read through its reference. *)
Definition get_start_and_end (g : MGraph) (e : Edge) : Point3D * Point3D :=
  (line_start (ends (lines g !!! line e)), line_end (ends (lines g !!! line e))).

(** [edge.line.has_tip()]. *)
Definition edge_has_tip (g : MGraph) (e : Edge) : bool :=
  has_tip (lines g !!! line e).

(** Every edge of the edge dictionary is a child of the VDict under its
    name (so that [VDict.remove] finds it). *)
Definition registered (g : MGraph) : Prop :=
  ∀ k, is_Some (edges g !! k) → is_Some (submob_dict g !! inr k).

(** Every node of the node dictionary was created before now, and two names
    never hold the same node object. *)
Definition distinct_nodes (g : MGraph) : Prop :=
  (∀ k n, nodes g !! k = Some n → (node_id n < next_id g)%nat)
  ∧ (∀ k1 k2 n1 n2, nodes g !! k1 = Some n1 → nodes g !! k2 = Some n2 →
                    node_id n1 = node_id n2 → k1 = k2).

(** An entry of an adjacency list: a bare neighbour, a neighbour with an
    integer weight, or anything else (which the constructor skips). *)
Inductive Dest :=
| Neighbour (name : string)
| Weighted (name : string) (weight : Z)
| Other.

End Graph.

Module MGraph.
Import Graph.
Section Renderer.

(** The renderer's font metrics and numpy's Euclidean norm. *)
Variable text_extent : string → Qc → Qc * Qc.
Variable norm : Point3D → Qc.

(** manim's [normalize]. *)
Definition normalize (vect : Point3D) : Point3D :=
  if decide (0 < norm vect)%Qc
  then Point (px vect / norm vect) (py vect / norm vect) (pz vect / norm vect)
  else ORIGIN.

Definition get_unit_vector (l : Line) : Point3D :=
  normalize (vsub (line_end l) (line_start l)).

Definition get_length (l : Line) : Qc :=
  norm (vsub (line_end l) (line_start l)).

(** [Node.__init__] on [Circle( **style.node_circle ).move_to(position)]
    and [Text(str(name), **style.node_label ).move_to(position)]. *)
Definition Node_init (id : nat) (radius : Qc) (font_size : Qc) (name : string)
    (position : Point3D) : Node :=
  let label := Text_init text_extent name font_size in
  {| node_id := id;
     circle := {| circle_center := position; radius := radius |};
     node_label := Text_shift (vsub position (get_center (Text_box label))) label |}.

(** [Line( **style.edge_line )]: a new line object, from LEFT to RIGHT. *)
Definition Line_init : M MGraph nat :=
  id <- fresh ;;
  modify (λ g,
    set_lines
      (<[id := {| ends := {| line_start := LEFT; line_end := RIGHT |};
                  has_tip := false |}]> (lines g))
      g) ;;
  ret id.

Definition add_tip (line : nat) : M MGraph unit :=
  modify (λ g,
    set_lines (alter (λ l, {| ends := ends l; has_tip := true |}) line (lines g)) g).

Definition put_start_and_end_on (line : nat) (start end_ : Point3D)
  : M MGraph unit :=
  modify (λ g,
    set_lines
      (alter (λ l, {| ends := {| line_start := start; line_end := end_ |};
                      has_tip := has_tip l |})
         line (lines g))
      g).

(** [Edge.__init__]. *)
Definition Edge_init (line : nat) (arrow : bool) : M MGraph Edge :=
  (if arrow then add_tip line else ret tt) ;;
  id <- fresh ;;
  ret {| edge_id := id; line := line; label := None; label_distance := None |}.

(** [StraightEdge._get_line_start_end]. The comparison of [start] and [end]
    is made on the exact coordinates. The source makes it on float64 values:
    two points that are equal here (the boundaries of two circles that touch)
    may there differ by a rounding error, and the source then keeps them. *)
Definition _get_line_start_end (node1_center node2_center : Point3D)
    (node1_radius node2_radius : Qc) : Point3D * Point3D :=
  let direction :=
    get_unit_vector {| line_start := node1_center; line_end := node2_center |} in
  let start := vadd node1_center (vscale node1_radius direction) in
  let end_ := vsub node2_center (vscale node2_radius direction) in
  if array_equal start end_ then (LEFT, RIGHT) else (start, end_).

(** The line [_get_line_start_end] gives from node [n1] to node [n2]. *)
Definition boundary_line (n1 n2 : Node) : Line :=
  {| line_start :=
       (_get_line_start_end (circle_center (circle n1)) (circle_center (circle n2))
          (radius (circle n1)) (radius (circle n2))).1;
     line_end :=
       (_get_line_start_end (circle_center (circle n1)) (circle_center (circle n2))
          (radius (circle n1)) (radius (circle n2))).2 |}.

(** [StraightEdge.__init__]. *)
Definition StraightEdge (line : nat) (node1_center node2_center : Point3D)
    (node1_radius node2_radius : Qc) (arrow : bool) : M MGraph Edge :=
  e <- Edge_init line arrow ;;
  put_start_and_end_on line
    (_get_line_start_end node1_center node2_center node1_radius node2_radius).1
    (_get_line_start_end node1_center node2_center node1_radius node2_radius).2 ;;
  ret e.

(** [StraightEdge._get_label_position]. *)
Definition _get_label_position (e : Edge) (label_distance : Qc)
  : M MGraph Point3D :=
  g <- get ;;
  let l := ends (lines g !!! line e) in
  let direction := get_unit_vector l in
  let mean := vadd (line_start l) (vscale (get_length l / 2) direction) in
  let orthogonal_dir := Point (py direction) (- px direction) 0 in
  ret (vadd mean (vscale label_distance orthogonal_dir)).

(** [StraightEdge.weighted]. *)
Definition weighted (e : Edge) (label : Text) (label_distance : Qc)
  : M MGraph Edge :=
  label_position <- _get_label_position e label_distance ;;
  ret {| edge_id := edge_id e; line := line e;
         label := Some (Text_shift (vsub label_position (get_center (Text_box label)))
                          label);
         label_distance := Some label_distance |}.

Definition add_node (name : string) (position : Point3D) : M MGraph unit :=
  g <- get ;;
  id <- fresh ;;
  let new_node :=
    Node_init id (node_radius (style g)) (node_label_font_size (style g))
      name position in
  modify (λ g, set_nodes (<[name := new_node]> (nodes g)) g) ;;
  VDict_add (inl name) (node_id new_node).

Definition add_edge (node1_name node2_name : string) (weight : Py.value)
    (label_distance : Qc) : M MGraph unit :=
  let edge_name := (node1_name, node2_name) in
  let edge_name_rev := (node2_name, node1_name) in
  g <- get ;;
  node1 <- lookup_or KeyError (circle <$> nodes g !! node1_name) ;;
  node2 <- lookup_or KeyError (circle <$> nodes g !! node2_name) ;;
  let reverse_exists := bool_decide (is_Some (edges g !! edge_name_rev)) in
  line <- Line_init ;;
  new_edge <- StraightEdge line (circle_center node1) (circle_center node2)
                (radius node1) (radius node2) (negb reverse_exists) ;;
  new_edge <- (if truthy weight then
                 weighted new_edge
                   (Text_init text_extent (str weight) (edge_weight_font_size (style g)))
                   label_distance
               else ret new_edge) ;;
  new_edge <- (if reverse_exists then
                 new_edge_rev_node <-
                   StraightEdge line (circle_center node2) (circle_center node1)
                     (radius node2) (radius node1) false ;;
                 new_edge <- (if truthy weight then
                                new_label <- lookup_or AttributeError (label new_edge) ;;
                                weighted new_edge new_label label_distance
                              else ret new_edge) ;;
                 VDict_remove (inr edge_name_rev) ;;
                 modify (λ g, set_edges (<[edge_name_rev := new_edge_rev_node]> (edges g)) g) ;;
                 VDict_add (inr edge_name_rev) (edge_id new_edge_rev_node) ;;
                 ret new_edge
               else ret new_edge) ;;
  modify (λ g, set_edges (<[edge_name := new_edge]> (edges g)) g) ;;
  VDict_add (inr edge_name) (edge_id new_edge).

(** [MGraph.__init__] for a graph given as a dictionary from each node to
    its adjacency list (in the dictionary's order). *)
Definition __init__ (graph : list (string * list Dest))
    (nodes_position : gmap string Point3D) : M MGraph unit :=
  for_each graph (λ entry,
    add_node entry.1 (default ORIGIN (nodes_position !! entry.1))) ;;
  for_each graph (λ entry,
    for_each entry.2 (λ dest,
      match dest with
      | Neighbour name => add_edge entry.1 name PyNone (Q2Qc (Qmake 1 5))
      | Weighted name weight => add_edge entry.1 name (PyInt weight) (Q2Qc (Qmake 1 5))
      | Other => ret tt
      end)).

(** The object the call [MGraph(graph, nodes_position, style)] evaluates to. *)
Definition new (graph : list (string * list Dest))
    (nodes_position : gmap string Point3D) (style : Style) : MGraph :=
  state_of (__init__ graph nodes_position (new_object style)).

End Renderer.
End MGraph.

(** ** Scripts of calls, and what is attached to the group *)

(** The identity of the element a child of the group shows, when the child
    is an element a call of [append] attached. *)
Definition element_uid (m : Submobject) : option nat :=
  match m with
  | Element u => Some u
  | Hidden _ | ContainerLines => None
  end.

(** The element visuals attached to the collection's visual group. *)
Definition attached_elements (c : MCollection) : list nat :=
  omap element_uid (submobjects c).

(** The elements of the list are distinct objects created before now, and the
    element visuals attached to the group are exactly those objects. *)
Definition synced (c : MCollection) : Prop :=
  NoDup (uid <$> elements c)
  ∧ attached_elements c ≡ₚ uid <$> elements c
  ∧ Forall (λ u, (u < next_uid c)%nat) (uid <$> elements c).

(** A call on an array and a call on a stack. *)
Inductive ArrayCall :=
| ArrayAppend (value : Py.value)
| ArrayPop (index : Z)
| ArrayAddIndexes (direction : Point3D) (buff : Qc).

Inductive StackCall :=
| StackAppend (value : Py.value)
| StackPop.

Definition array_call (text_extent : string → Qc → Qc * Qc) (call : ArrayCall)
  : M MCollection unit :=
  match call with
  | ArrayAppend value => MArray.append text_extent value
  | ArrayPop index => MArray.pop index
  | ArrayAddIndexes direction buff => MArray.add_indexes text_extent direction buff
  end.

Definition stack_call (text_extent : string → Qc → Qc * Qc) (call : StackCall)
  : M MCollection unit :=
  match call with
  | StackAppend value => MStack.append text_extent value
  | StackPop => MStack.pop
  end.

(** The object after a script of calls. A call that raises leaves the object
    as it was when the exception was raised, and the script goes on. *)
Fixpoint run_script {Call} (exec : Call → M MCollection unit) (script : list Call)
    (c : MCollection) : MCollection :=
  match script with
  | [] => c
  | call :: rest => run_script exec rest (state_of (exec call c))
  end.

(** ** Calls that return *)

(** The element list and the indexing flag of a collection. *)
Definition holds (l : list MElement) (enabled : bool) (c : MCollection) : Prop :=
  elements c = l ∧ _index_enabled c = enabled.

(** From a state where [P] holds, [m] returns, in a state and with a value
    where [Q] holds. *)
Definition returns {A} (P : MCollection → Prop) (m : M MCollection A)
    (Q : A → MCollection → Prop) : Prop :=
  ∀ c, P c → ∃ a c', m c = Ret a c' ∧ Q a c'.

(** What [swap] leaves of an element whose body is [x], on the slot whose
    caption is that of [y]: with indexing, [MArray._logic_swap] hands the
    caption of the slot over. *)
Definition exchange (enabled : bool) (x y : MElement) : MElement :=
  if enabled then with_index (index y) x else x.

(** The texts of the index captions, position by position. *)
Definition captions (l : list MElement) : list (option string) :=
  (λ e, text <$> index e) <$> l.

(** On an array with indexing, the hidden element and every element of the
    list have an index caption, and the direction of the captions is set. *)
Definition captioned (c : MCollection) : Prop :=
  _index_enabled c = true →
  is_Some (index (_hidden_element c))
  ∧ is_Some (_index_dir c)
  ∧ Forall (λ e, is_Some (index e)) (elements c).

(** ** Samples of the renderer for the concrete examples *)

(** Every text is a quarter of a unit wide and high. *)
Definition sample_extent : string → Qc → Qc * Qc :=
  λ _ _, (Q2Qc (Qmake 1 4), Q2Qc (Qmake 1 4)).

(** The sum of the absolute coordinates: the Euclidean norm of every vector
    along one axis, which is all the examples take a norm of. *)
Definition sample_norm (v : Point3D) : Qc :=
  (Qcabs (px v) + Qcabs (py v) + Qcabs (pz v))%Qc.

(** The array [MArray([1, 2, 3])], the same with [add_indexes()], and the
    stack [MStack([1, 2, 3])]. *)
Definition sample_array : MCollection :=
  MArray.new sample_extent [PyInt 1; PyInt 2; PyInt 3] RIGHT DEFAULT.

Definition sample_indexed : MCollection :=
  state_of (MArray.add_indexes sample_extent UP DEFAULT_MOBJECT_TO_MOBJECT_BUFFER
              sample_array).

Definition sample_stack : MCollection :=
  MStack.new sample_extent [PyInt 1; PyInt 2; PyInt 3] (Q2Qc (Qmake 1 10)) DEFAULT.

(** Two nodes, "A" left of "B", and no edge. *)
Definition sample_graph : Graph.MGraph :=
  MGraph.new sample_extent sample_norm [("A", []); ("B", [])]
    (<["A" := Point (-2) 0 0]> (<["B" := Point 2 0 0]> ∅)) Graph.DEFAULT.

(** The sample graph after [add_edge("A", "B")] and then [add_edge("B", "A")]. *)
Definition sample_graph_both : Graph.MGraph :=
  state_of
    (MGraph.add_edge sample_extent sample_norm "B" "A" PyNone (Q2Qc (Qmake 1 5))
       (state_of
          (MGraph.add_edge sample_extent sample_norm "A" "B" PyNone
             (Q2Qc (Qmake 1 5)) sample_graph))).

(** ** Captions that number the positions *)

(** On an array with indexing, the caption of position [i] reads [str(i)]. *)
Definition numbered (c : MCollection) : Prop :=
  _index_enabled c = true →
  captions (elements c)
  = (λ i : nat, Some (str (PyInt (Z.of_nat i)))) <$> seq 0 (length (elements c)).

(** Every [pop] of the script is given a position counted from the front. *)
Definition front_pops (script : list ArrayCall) : Prop :=
  Forall (λ call, match call with
                  | ArrayPop index => 0 ≤ index
                  | ArrayAppend _ | ArrayAddIndexes _ _ => True
                  end)
    script.

(** ** Replacing the text of an element
    (utils/utils.py, MElement.set_value) *)

Module Utils.
Section Renderer.

Variable text_extent : string → Qc → Qc * Qc.

(** [set_text]: a new text of the same font size, moved onto the old one. *)
Definition set_text (old_manim_text : Text) (new_text : string) : Text :=
  Text_move_to (Text_init text_extent new_text (font_size old_manim_text))
    (Text_box old_manim_text).

End Renderer.
End Utils.

Module MElement.
Section Renderer.

Variable text_extent : string → Qc → Qc * Qc.

(** [MElement.set_value], on the element object. *)
Definition set_value (new_value : Py.value) (e : Collection.MElement)
  : Collection.MElement :=
  {| uid := uid e; square := square e;
     value := Utils.set_text text_extent (value e) (str new_value);
     index := index e |}.

End Renderer.
End MElement.

(** ** Scripts of calls on a graph *)

(** A call on a graph. *)
Inductive GraphCall :=
| GraphAddNode (name : string) (position : Point3D)
| GraphAddEdge (node1_name node2_name : string) (weight : Py.value)
    (label_distance : Qc).

Definition graph_call (text_extent : string → Qc → Qc * Qc) (norm : Point3D → Qc)
    (call : GraphCall) : M Graph.MGraph unit :=
  match call with
  | GraphAddNode name position => MGraph.add_node text_extent name position
  | GraphAddEdge node1_name node2_name weight label_distance =>
      MGraph.add_edge text_extent norm node1_name node2_name weight label_distance
  end.

(** The graph after a script of calls. A call that raises leaves the graph
    as it was when the exception was raised, and the script goes on. *)
Fixpoint run_graph_script (exec : GraphCall → M Graph.MGraph unit)
    (script : list GraphCall) (g : Graph.MGraph) : Graph.MGraph :=
  match script with
  | [] => g
  | call :: rest => run_graph_script exec rest (state_of (exec call g))
  end.

(** Both ends of every edge of the edge dictionary are names of the node
    dictionary. *)
Definition joined (g : Graph.MGraph) : Prop :=
  ∀ a b, is_Some (Graph.edges g !! (a, b)) →
         is_Some (Graph.nodes g !! a) ∧ is_Some (Graph.nodes g !! b).

(** The node an entry of an adjacency list names, when the constructor
    reads it as an edge. *)
Definition dest_name (dest : Graph.Dest) : option string :=
  match dest with
  | Graph.Neighbour name | Graph.Weighted name _ => Some name
  | Graph.Other => None
  end.

(** Every neighbour the adjacency lists name is a key of the dictionary. *)
Definition known (keys : list string) (dest : Graph.Dest) : Prop :=
  match dest_name dest with
  | Some name => name ∈ keys
  | None => True
  end.

#[export] Instance known_dec (keys : list string) (dest : Graph.Dest) :
  Decision (known keys dest).
Proof. unfold known. destruct (dest_name dest); apply _. Defined.

Definition known_neighbours (graph : list (string * list Graph.Dest)) : Prop :=
  Forall (λ entry, Forall (known graph.*1) entry.2) graph.

(** A node as [add_node(name, position)] with the radius of [style] makes it. *)
Definition node_at (style : Graph.Style) (name : string) (position : Point3D)
    (n : Graph.Node) : Prop :=
  Graph.circle n = {| Graph.circle_center := position;
                      Graph.radius := Graph.node_radius style |}
  ∧ text (Graph.node_label n) = name
  ∧ get_center (Text_box (Graph.node_label n)) = position.

(** What the constructor does with one entry [dest] of the adjacency list of
    [src] (the body of its inner loop). *)
Definition init_dest (text_extent : string → Qc → Qc * Qc) (norm : Point3D → Qc)
    (src : string) (dest : Graph.Dest) : M Graph.MGraph unit :=
  match dest with
  | Graph.Neighbour name =>
      MGraph.add_edge text_extent norm src name PyNone (Q2Qc (Qmake 1 5))
  | Graph.Weighted name weight =>
      MGraph.add_edge text_extent norm src name (PyInt weight) (Q2Qc (Qmake 1 5))
  | Graph.Other => ret tt
  end.

(** Every edge of the edge dictionary was created before now, on a line
    object of the store whose two ends differ. *)
Definition drawn (g : Graph.MGraph) : Prop :=
  ∀ k e, Graph.edges g !! k = Some e →
         (Graph.edge_id e < Graph.next_id g)%nat
         ∧ (Graph.line e < Graph.next_id g)%nat
         ∧ ∃ l, Graph.lines g !! Graph.line e = Some l
                ∧ line_start (Graph.ends l) ≠ line_end (Graph.ends l).

(** ** The values a collection shows, and the Python list they follow *)

(** The texts of the values, position by position. *)
Definition values (c : MCollection) : list string :=
  (λ e, text (value e)) <$> elements c.

(** What [list.pop(index)] leaves of a Python list: the position leaves the
    list; with an index outside the list (so with any index on an empty list)
    the call raises and the list stays as it is. *)
Definition list_pop {A} (index : Z) (l : list A) : list A :=
  match subscript (length l) index with
  | Some k => delete k l
  | None => l
  end.

(** The calls of a script, on the plain list of the values' texts. *)
Definition array_list_call (call : ArrayCall) (l : list string) : list string :=
  match call with
  | ArrayAppend v => l ++ [str v]
  | ArrayPop index => list_pop index l
  | ArrayAddIndexes _ _ => l
  end.

Definition stack_list_call (call : StackCall) (l : list string) : list string :=
  match call with
  | StackAppend v => l ++ [str v]
  | StackPop => list_pop (-1) l
  end.

(** The identities of the elements of the list, the flag of indexing, the
    children of the group and the next free identity are known, and every
    element of the list satisfies [I]. *)
Definition tracks (ul : list nat) (en : bool) (s : list Submobject) (n : nat)
    (I : MElement → Prop) (c : MCollection) : Prop :=
  uid <$> elements c = ul
  ∧ _index_enabled c = en
  ∧ submobjects c = s
  ∧ next_uid c = n
  ∧ Forall I (elements c).

(** [c'] is [c] after one element was appended: the list has one more
    element, at its end, and the group has one more element visual, the one
    of that element, which was not attached before. *)
Definition attaches_one (c c' : MCollection) : Prop :=
  ∃ e, elements c' = elements c ++ [e]
       ∧ (uid e ∉ attached_elements c)
       ∧ attached_elements c' = attached_elements c ++ [uid e].

(** [c'] is [c] after the element at position [k] was removed: the list lost
    that element object and no other, and the group lost the visual of that
    element and no other. *)
Definition detaches_one (k : nat) (c c' : MCollection) : Prop :=
  ∃ e j, elements c !! k = Some e
         ∧ uid <$> elements c' = delete k (uid <$> elements c)
         ∧ attached_elements c !! j = Some (uid e)
         ∧ attached_elements c' = delete j (attached_elements c)
         ∧ (uid e ∉ attached_elements c').

(** * Properties *)

(** Runs the monadic code of a goal down to matches on its lookups. *)
Ltac run_monad :=
  unfold item, attach, detach, update_item in *;
  unfold lookup_or in *;
  unfold bind, ret, get, modify, raise in *;
  cbn beta iota zeta.

(** ** Subscripts *)

Lemma subscript_nonneg (n : nat) (i : Z) :
  0 ≤ i < Z.of_nat n → subscript n i = Some (Z.to_nat i).
Proof. intros H. unfold subscript. by rewrite decide_True. Qed.

Lemma subscript_negative (n : nat) (i : Z) :
  - Z.of_nat n ≤ i < 0 → subscript n i = Some (Z.to_nat (Z.of_nat n + i)).
Proof.
  intros H. unfold subscript.
  rewrite decide_False by lia. by rewrite decide_True.
Qed.

Lemma subscript_outside (n : nat) (i : Z) :
  i < - Z.of_nat n ∨ Z.of_nat n ≤ i → subscript n i = None.
Proof.
  intros H. unfold subscript.
  rewrite decide_False by lia. by rewrite decide_False by lia.
Qed.

Lemma subscript_lt (n : nat) (i : Z) (k : nat) :
  subscript n i = Some k → (k < n)%nat.
Proof.
  unfold subscript. intros H.
  repeat case_decide; simplify_eq; lia.
Qed.

Lemma subscript_is_Some (n : nat) (i : Z) :
  is_Some (subscript n i) ↔ - Z.of_nat n ≤ i < Z.of_nat n.
Proof.
  unfold subscript. split.
  - intros [k H]. repeat case_decide; simplify_eq; lia.
  - intros H. repeat case_decide; eauto; lia.
Qed.

Lemma getitem_Some {A} (l : list A) (i : Z) (k : nat) :
  subscript (length l) i = Some k → is_Some (getitem l i).
Proof.
  intros H. unfold getitem. rewrite H.
  apply lookup_lt_is_Some. by eapply subscript_lt.
Qed.

Lemma getitem_lookup {A} (l : list A) (i : Z) (k : nat) :
  subscript (length l) i = Some k → getitem l i = l !! k.
Proof. intros H. unfold getitem. by rewrite H. Qed.

(** ** C8: element access *)

(** C8, as the code has it. [collection[key]] raises exactly when [key] is
    below [-n] (the list's own IndexError) or at least [n] (the method's
    "Index out of bounds!"), for [n] the length of the collection. A [key] in
    [0, n) gives the element at position [key], and a [key] in [-n, 0) the
    element at position [n + key], both without error. *)
Theorem getitem_bounds (c : MCollection) (key : Z) :
  let n := Z.of_nat (length (elements c)) in
  (key < - n ∧ MCollection.__getitem__ key c = Exc IndexError c)
  ∨ (n ≤ key ∧
     MCollection.__getitem__ key c = Exc (Exception "Index out of bounds!") c)
  ∨ (0 ≤ key < n ∧
     ∃ e, elements c !! Z.to_nat key = Some e ∧
          MCollection.__getitem__ key c = Ret e c)
  ∨ (- n ≤ key < 0 ∧
     ∃ e, elements c !! Z.to_nat (n + key) = Some e ∧
          MCollection.__getitem__ key c = Ret e c).
Proof.
  intros n. unfold MCollection.__getitem__. run_monad.
  destruct (decide (n ≤ key)) as [Hge|Hlt].
  { right; left. split; [done|]. rewrite decide_True by (subst n; lia). done. }
  rewrite decide_False by (subst n; lia).
  destruct (decide (key < - n)) as [Hlow|Hlow].
  { left. split; [done|]. unfold getitem.
    rewrite subscript_outside by (subst n; lia). done. }
  right; right.
  destruct (decide (0 ≤ key)) as [Hpos|Hneg].
  - left. split; [lia|].
    destruct (lookup_lt_is_Some_2 (elements c) (Z.to_nat key)) as [e He];
      [subst n; lia|].
    exists e. split; [done|]. unfold getitem.
    rewrite subscript_nonneg by (subst n; lia). by rewrite He.
  - right. split; [lia|].
    destruct (lookup_lt_is_Some_2 (elements c) (Z.to_nat (n + key))) as [e He];
      [subst n; lia|].
    exists e. split; [done|]. unfold getitem.
    rewrite subscript_negative by (subst n; lia). fold n. by rewrite He.
Qed.

(** C8, counterexample. An array of one element is subscripted with [-1],
    which is outside [0, 1): no exception is raised, the element is returned. *)
Lemma getitem_negative_key_returns :
  let c := MArray.new sample_extent [PyInt 7] RIGHT DEFAULT in
  length (elements c) = 1%nat
  ∧ ¬ (0 ≤ -1 < 1)
  ∧ raised (MCollection.__getitem__ (-1) c) = None
  ∧ (text ∘ value <$> elements c) !! 0%nat
    = text ∘ value <$> returned (MCollection.__getitem__ (-1) c).
Proof. vm_compute. split_and!; [done|intros [? _]; done|done|done]. Qed.

(** ** C7: add_indexes and the growth direction *)







(** ** Running monadic code one call at a time *)

Lemma bind_run {St A B} (m : M St A) (k : A → M St B) (s s' : St) (a : A) :
  m s = Ret a s' → bind m k s = k a s'.
Proof. intros H. unfold bind. by rewrite H. Qed.

Lemma bind_assoc {St A B C} (m : M St A) (k1 : A → M St B) (k2 : B → M St C)
    (s : St) :
  bind (bind m k1) k2 s = bind m (λ a, bind (k1 a) k2) s.
Proof. unfold bind. by destruct (m s). Qed.

Lemma modify_run {St} (f : St → St) (s : St) : modify f s = Ret tt (f s).
Proof. reflexivity. Qed.

(** ** Graphs: what add_node and add_edge leave behind *)

Section GraphFacts.
Import Graph.

Variable text_extent : string → Qc → Qc * Qc.
Variable norm : Point3D → Qc.

Ltac simpl_graph :=
  cbn [nodes edges submob_dict submobjects lines style next_id
         set_nodes set_edges set_submob_dict set_submobjects set_lines set_next_id
         edge_id line label negb].

Lemma VDict_add_run (g : MGraph) (key : Key) (mob : nat) :
  VDict_add key mob g
  = Ret tt (set_submobjects (Mobject.add mob (submobjects g))
              (set_submob_dict (<[key := mob]> (submob_dict g)) g)).
Proof. reflexivity. Qed.

Lemma VDict_remove_run (g : MGraph) (key : Key) (mob : nat) :
  submob_dict g !! key = Some mob →
  VDict_remove key g
  = Ret tt (set_submob_dict (delete key (submob_dict g))
              (set_submobjects (Mobject.remove mob (submobjects g)) g)).
Proof. intros H. unfold VDict_remove. run_monad. by rewrite H. Qed.

Lemma Line_init_run (g : MGraph) :
  MGraph.Line_init g
  = Ret (next_id g)
      (set_lines
         (<[next_id g := {| ends := {| line_start := LEFT; line_end := RIGHT |};
                            has_tip := false |}]> (lines g))
         (set_next_id (S (next_id g)) g)).
Proof. reflexivity. Qed.

Lemma StraightEdge_run (g : MGraph) (l : nat) (n1 n2 : Node) (arrow : bool) :
  MGraph.StraightEdge norm l (circle_center (circle n1)) (circle_center (circle n2))
    (radius (circle n1)) (radius (circle n2)) arrow g
  = Ret {| edge_id := next_id g; line := l; label := None; label_distance := None |}
      (set_lines
         (alter (λ t, {| ends := MGraph.boundary_line norm n1 n2;
                         has_tip := has_tip t |}) l
            (if arrow
             then alter (λ t, {| ends := ends t; has_tip := true |}) l (lines g)
             else lines g))
         (set_next_id (S (next_id g)) g)).
Proof. destruct arrow; reflexivity. Qed.

Lemma weighted_run (g : MGraph) (e : Edge) (t : Text) (ld : Qc) :
  ∃ t', MGraph.weighted norm e t ld g
        = Ret {| edge_id := edge_id e; line := line e; label := Some t';
                 label_distance := Some ld |} g.
Proof. eexists. reflexivity. Qed.

Lemma registered_insert (E : gmap (string * string) Edge) (D : gmap Key nat)
    (k : string * string) (e : Edge) (m : nat) :
  (∀ k', is_Some (E !! k') → is_Some (D !! inr k')) →
  ∀ k', is_Some (<[k := e]> E !! k') → is_Some (<[inr k := m]> D !! inr k').
Proof.
  intros H k'. rewrite !lookup_insert_is_Some.
  intros [->|[Hne Hk']]; [by left|].
  right. split; [congruence|]. by apply H.
Qed.

Lemma registered_replace (E : gmap (string * string) Edge) (D : gmap Key nat)
    (k : string * string) (e : Edge) (m : nat) :
  (∀ k', is_Some (E !! k') → is_Some (D !! inr k')) →
  ∀ k', is_Some (<[k := e]> E !! k') →
        is_Some (<[inr k := m]> (delete (inr k) D) !! inr k').
Proof.
  intros H k'. rewrite !lookup_insert_is_Some.
  intros [->|[Hne Hk']]; [by left|].
  right. split; [congruence|].
  rewrite lookup_delete_ne by congruence. by apply H.
Qed.

Lemma weigh_run (g : MGraph) (e : Edge) (w : Py.value) (t : Text) (ld : Qc) :
  label e = None →
  ∃ e', (if truthy w then MGraph.weighted norm e t ld else ret e) g = Ret e' g
        ∧ line e' = line e ∧ edge_id e' = edge_id e
        ∧ is_weighted e' = truthy w.
Proof.
  intros Hl. destruct (truthy w).
  - destruct (weighted_run g e t ld) as [t' Ht'].
    eexists. split; [exact Ht'|]. done.
  - eexists. split; [reflexivity|]. unfold is_weighted. by rewrite Hl.
Qed.

Lemma weigh_again_run (g : MGraph) (e : Edge) (w : Py.value) (ld : Qc) :
  is_weighted e = truthy w →
  ∃ e', (if truthy w
         then new_label <- lookup_or AttributeError (label e) ;;
              MGraph.weighted norm e new_label ld
         else ret e) g = Ret e' g
        ∧ line e' = line e ∧ edge_id e' = edge_id e
        ∧ is_weighted e' = truthy w.
Proof.
  intros Hw. destruct (truthy w).
  - destruct (label e) as [t|] eqn:Hl;
      [|by unfold is_weighted in Hw; rewrite Hl in Hw].
    destruct (weighted_run g e t ld) as [t' Ht'].
    eexists. split; [exact Ht'|]. done.
  - eexists. split; [reflexivity|]. done.
Qed.

(** What [add_edge] does between two existing nodes of a graph whose edges
    are registered: it returns, the nodes stay, the new edge is stored under
    its name, it is weighted exactly when the weight is truthy, and its line
    is a new line object. When the opposite edge was absent, that line runs
    from the first node to the second and has a tip. When the opposite edge
    was present, it is replaced by a new unweighted edge on the same line
    object, which now runs from the second node to the first and has no tip. *)
Lemma add_edge_spec (g : MGraph) (a b : string) (w : Py.value) (ld : Qc)
    (n1 n2 : Node) :
  nodes g !! a = Some n1 → nodes g !! b = Some n2 → registered g →
  ∃ (g' : MGraph) (e : Edge),
    MGraph.add_edge text_extent norm a b w ld g = Ret tt g'
    ∧ nodes g' = nodes g
    ∧ registered g'
    ∧ (next_id g < next_id g')%nat
    ∧ edges g' !! (a, b) = Some e
    ∧ line e = next_id g
    ∧ is_weighted e = truthy w
    ∧ match edges g !! (b, a) with
      | None =>
          edges g' = <[(a, b) := e]> (edges g)
          ∧ lines g' !!! next_id g
            = {| ends := MGraph.boundary_line norm n1 n2; has_tip := true |}
      | Some _ =>
          ∃ e_rev : Edge,
            edges g' = <[(a, b) := e]> (<[(b, a) := e_rev]> (edges g))
            ∧ line e_rev = next_id g
            ∧ label e_rev = None
            ∧ lines g' !!! next_id g
              = {| ends := MGraph.boundary_line norm n2 n1; has_tip := false |}
      end.
Proof.
  intros H1 H2 Hreg. unfold MGraph.add_edge.
  rewrite (bind_run _ _ g g g) by done.
  rewrite (bind_run _ _ g g (circle n1)) by (by rewrite H1).
  rewrite (bind_run _ _ g g (circle n2)) by (by rewrite H2).
  rewrite (bind_run _ _ _ _ _ (Line_init_run g)).
  rewrite (bind_run _ _ _ _ _ (StraightEdge_run _ _ n1 n2 _)). simpl_graph.
  match goal with |- context [bind (if truthy w then _ else ret ?e0) _ ?s] =>
    destruct (weigh_run s e0 w
                (Text_init text_extent (str w) (edge_weight_font_size (style g))) ld)
      as (e1 & He1 & Hline1 & Hid1 & Hw1); [done|]
  end.
  rewrite (bind_run _ _ _ _ _ He1). clear He1.
  destruct (edges g !! (b, a)) as [e_old|] eqn:Hrev.
  - rewrite bool_decide_eq_true_2 by eauto. simpl_graph.
    destruct (Hreg (b, a)) as [mob Hmob]; [eauto|].
    rewrite bind_assoc.
    rewrite (bind_run _ _ _ _ _ (StraightEdge_run _ _ n2 n1 _)). simpl_graph.
    match goal with |- context [bind (bind (if truthy w then _ else ret _) _) _ ?s] =>
      destruct (weigh_again_run s e1 w ld) as (e2 & He2 & Hline2 & Hid2 & Hw2);
        [done|]
    end.
    rewrite bind_assoc, (bind_run _ _ _ _ _ He2). clear He2.
    rewrite bind_assoc.
    match goal with |- context [bind (VDict_remove _) _ ?s] =>
      rewrite (bind_run _ _ _ _ _ (VDict_remove_run s _ mob Hmob))
    end.
    simpl_graph.
    rewrite bind_assoc, (bind_run _ _ _ _ _ (modify_run _ _)). simpl_graph.
    rewrite bind_assoc, (bind_run _ _ _ _ _ (VDict_add_run _ _ _)). simpl_graph.
    rewrite (bind_run _ _ _ _ e2 eq_refl).
    rewrite (bind_run _ _ _ _ _ (modify_run _ _)). simpl_graph.
    rewrite VDict_add_run. simpl_graph.
    eexists _, e2. split; [reflexivity|]. simpl_graph.
    split; [done|]. split.
    { unfold registered. simpl_graph.
      by apply registered_insert, registered_replace. }
    split; [lia|].
    split; [by rewrite lookup_insert_eq|].
    split; [by rewrite Hline2, Hline1|]. split; [done|].
    eexists. split; [reflexivity|]. split; [done|]. split; [done|].
    by rewrite lookup_total_alter_eq, ?lookup_alter_eq, lookup_insert_eq.
  - rewrite bool_decide_eq_false_2 by (by intros [? ?]). simpl_graph.
    rewrite (bind_run _ _ _ _ e1 eq_refl).
    rewrite (bind_run _ _ _ _ _ (modify_run _ _)). simpl_graph.
    rewrite VDict_add_run. simpl_graph.
    eexists _, e1. split; [reflexivity|]. simpl_graph.
    split; [done|]. split.
    { unfold registered. simpl_graph. by apply registered_insert. }
    split; [lia|].
    split; [by rewrite lookup_insert_eq|].
    split; [by rewrite Hline1|]. split; [done|]. split; [done|].
    by rewrite lookup_total_alter_eq, ?lookup_alter_eq, lookup_insert_eq.
Qed.

Lemma add_node_run (g : MGraph) (name : string) (position : Point3D) :
  MGraph.add_node text_extent name position g
  = Ret tt
      (set_submobjects (Mobject.add (next_id g) (submobjects g))
         (set_submob_dict (<[inl name := next_id g]> (submob_dict g))
            (set_nodes
               (<[name := MGraph.Node_init text_extent (next_id g)
                            (node_radius (style g)) (node_label_font_size (style g))
                            name position]> (nodes g))
               (set_next_id (S (next_id g)) g)))).
Proof. reflexivity. Qed.

Lemma add_node_distinct (g : MGraph) (name : string) (position : Point3D) :
  distinct_nodes g →
  distinct_nodes (state_of (MGraph.add_node text_extent name position g)).
Proof.
  intros [Hlt Hinj]. rewrite add_node_run.
  unfold distinct_nodes, MGraph.Node_init. simpl.
  split.
  - intros k n. rewrite lookup_insert_Some.
    intros [[_ <-]|[_ Hk]]; simpl; [lia|]. apply Hlt in Hk. lia.
  - intros k1 k2 n1 n2. rewrite !lookup_insert_Some.
    intros [[<- <-]|[Hne1 Hk1]] [[<- <-]|[Hne2 Hk2]]; simpl; try done.
    + intros Heq. apply Hlt in Hk2. lia.
    + intros Heq. apply Hlt in Hk1. lia.
    + by apply Hinj.
Qed.

Lemma add_node_registered (g : MGraph) (name : string) (position : Point3D) :
  registered g →
  registered (state_of (MGraph.add_node text_extent name position g)).
Proof.
  intros Hreg. rewrite add_node_run. unfold registered. simpl.
  intros k Hk. rewrite lookup_insert_ne by done. by apply Hreg.
Qed.

End GraphFacts.

(** ** Graphs built through the interface *)

Lemma for_each_preserves {St A} (P : St → Prop) (l : list A) (body : A → M St unit)
    (s : St) :
  (∀ a s, P s → P (state_of (body a s))) →
  P s → P (state_of (for_each l body s)).
Proof.
  intros Hbody. revert s. induction l as [|a l IH]; intros s Hs; [done|].
  simpl. unfold bind. specialize (Hbody a s Hs).
  destruct (body a s) as [[] s'|e s']; simpl in *; [by apply IH|done].
Qed.

Lemma add_edge_preserves (text_extent : string → Qc → Qc * Qc)
    (norm : Point3D → Qc) (g : Graph.MGraph) (a b : string) (w : Py.value)
    (ld : Qc) :
  Graph.registered g ∧ Graph.distinct_nodes g →
  Graph.registered (state_of (MGraph.add_edge text_extent norm a b w ld g))
  ∧ Graph.distinct_nodes (state_of (MGraph.add_edge text_extent norm a b w ld g)).
Proof.
  intros [Hreg [Hlt Hinj]].
  destruct (Graph.nodes g !! a) as [n1|] eqn:H1;
    [|by unfold MGraph.add_edge; run_monad; rewrite H1].
  destruct (Graph.nodes g !! b) as [n2|] eqn:H2;
    [|by unfold MGraph.add_edge; run_monad; rewrite H1, H2].
  destruct (add_edge_spec text_extent norm g a b w ld n1 n2 H1 H2 Hreg)
    as (g' & e & -> & Hnodes & Hreg' & Hnext & _).
  simpl. split; [done|]. unfold Graph.distinct_nodes. rewrite Hnodes.
  split; [|done]. intros k n Hk. apply Hlt in Hk. lia.
Qed.

(** Every graph the constructor builds has its edges registered and holds
    distinct node objects. *)
Lemma new_graph_invariant (text_extent : string → Qc → Qc * Qc)
    (norm : Point3D → Qc) (graph : list (string * list Graph.Dest))
    (nodes_position : gmap string Point3D) (style : Graph.Style) :
  Graph.registered (MGraph.new text_extent norm graph nodes_position style)
  ∧ Graph.distinct_nodes (MGraph.new text_extent norm graph nodes_position style).
Proof.
  unfold MGraph.new, MGraph.__init__.
  set (P := λ g, Graph.registered g ∧ Graph.distinct_nodes g).
  assert (P (Graph.new_object style)) as H0.
  { split; [by intros k [? ?]|]. split; [by intros k n ?|by intros k1 k2 n1 n2 ?]. }
  change (P (state_of
    (bind (for_each graph (λ entry,
             MGraph.add_node text_extent entry.1
               (default ORIGIN (nodes_position !! entry.1))))
          (λ _, for_each graph (λ entry, for_each entry.2 (λ dest,
             match dest with
             | Graph.Neighbour name =>
                 MGraph.add_edge text_extent norm entry.1 name PyNone (Q2Qc (Qmake 1 5))
             | Graph.Weighted name weight =>
                 MGraph.add_edge text_extent norm entry.1 name (PyInt weight)
                   (Q2Qc (Qmake 1 5))
             | Graph.Other => ret tt
             end)))
       (Graph.new_object style)))).
  unfold bind.
  pose proof (for_each_preserves P graph
    (λ entry, MGraph.add_node text_extent entry.1
                (default ORIGIN (nodes_position !! entry.1)))
    (Graph.new_object style)) as Hnodes.
  destruct (for_each graph _ (Graph.new_object style)) as [[] g1|e g1]; simpl in Hnodes.
  - apply for_each_preserves.
    + intros entry s Hs. apply for_each_preserves; [|done].
      intros dest s' Hs'. destruct dest; [by apply add_edge_preserves..|done].
    + apply Hnodes; [|done]. intros entry s [Hreg Hdist].
      split; [by apply add_node_registered|by apply add_node_distinct].
  - simpl. apply Hnodes; [|done]. intros entry s [Hreg Hdist].
    split; [by apply add_node_registered|by apply add_node_distinct].
Qed.

(** ** C10: add_node with a name already present *)

(** C10. In a graph whose node dictionary holds distinct node objects,
    [add_node] with a name that is already present raises nothing: the entry
    of that name becomes a newly created node, every other entry stays, and
    no name of the dictionary leads to the node stored before. *)
Theorem add_node_duplicate_replaces (text_extent : string → Qc → Qc * Qc)
    (g : Graph.MGraph) (name : string) (position : Point3D) (old : Graph.Node) :
  Graph.nodes g !! name = Some old →
  Graph.distinct_nodes g →
  ∃ (g' : Graph.MGraph) (new_node : Graph.Node),
    MGraph.add_node text_extent name position g = Ret tt g'
    ∧ Graph.nodes g' = <[name := new_node]> (Graph.nodes g)
    ∧ Graph.node_id new_node = Graph.next_id g
    ∧ Graph.node_id new_node ≠ Graph.node_id old
    ∧ ∀ k, Graph.node_id <$> Graph.nodes g' !! k ≠ Some (Graph.node_id old).
Proof.
  intros Hold [Hlt Hinj]. rewrite add_node_run.
  eexists _, (MGraph.Node_init text_extent (Graph.next_id g) _ _ name position).
  split; [reflexivity|]. unfold MGraph.Node_init. simpl.
  split; [done|]. split; [done|].
  pose proof (Hlt _ _ Hold) as Hold_lt.
  split; [lia|].
  intros k. destruct (decide (name = k)) as [<-|Hne].
  - rewrite lookup_insert_eq. simpl. intros [= Heq]. lia.
  - rewrite lookup_insert_ne by done.
    destruct (Graph.nodes g !! k) as [n|] eqn:Hk; [|done].
    simpl. intros [= Heq]. by apply Hne, (Hinj _ _ _ _ Hold Hk).
Qed.

Lemma add_node_duplicate_replaces_witness :
  ∃ old : Graph.Node,
    Graph.nodes sample_graph !! "A" = Some old
    ∧ ∃ (g' : Graph.MGraph) (new_node : Graph.Node),
        MGraph.add_node sample_extent "A" ORIGIN sample_graph = Ret tt g'
        ∧ Graph.nodes g' = <["A" := new_node]> (Graph.nodes sample_graph)
        ∧ Graph.node_id new_node = Graph.next_id sample_graph
        ∧ Graph.node_id new_node ≠ Graph.node_id old
        ∧ ∀ k, Graph.node_id <$> Graph.nodes g' !! k ≠ Some (Graph.node_id old).
Proof.
  eexists. split; [vm_compute; reflexivity|].
  apply (add_node_duplicate_replaces sample_extent sample_graph "A" ORIGIN).
  - vm_compute. reflexivity.
  - apply new_graph_invariant.
Defined.

(** ** C9: a weight of 0 *)

(** C9. Between two existing nodes of a graph whose edges are registered,
    [add_edge] with weight 0 does exactly what it does with no weight, and the
    edge it stores carries no label; whatever the weight, the stored edge is
    weighted exactly when the weight is truthy. *)
Theorem add_edge_zero_weight_unweighted (text_extent : string → Qc → Qc * Qc)
    (norm : Point3D → Qc) (g : Graph.MGraph) (a b : string) (w : Py.value)
    (ld : Qc) :
  is_Some (Graph.nodes g !! a) →
  is_Some (Graph.nodes g !! b) →
  Graph.registered g →
  MGraph.add_edge text_extent norm a b (PyInt 0) ld g
  = MGraph.add_edge text_extent norm a b PyNone ld g
  ∧ (∃ (g' : Graph.MGraph) (e : Graph.Edge),
       MGraph.add_edge text_extent norm a b (PyInt 0) ld g = Ret tt g'
       ∧ Graph.edges g' !! (a, b) = Some e
       ∧ Graph.is_weighted e = false)
  ∧ (∃ (g' : Graph.MGraph) (e : Graph.Edge),
       MGraph.add_edge text_extent norm a b w ld g = Ret tt g'
       ∧ Graph.edges g' !! (a, b) = Some e
       ∧ Graph.is_weighted e = truthy w).
Proof.
  intros [n1 H1] [n2 H2] Hreg. split; [reflexivity|]. split.
  - destruct (add_edge_spec text_extent norm g a b (PyInt 0) ld n1 n2 H1 H2 Hreg)
      as (g' & e & Hrun & _ & _ & _ & Hlook & _ & Hw & _).
    by exists g', e.
  - destruct (add_edge_spec text_extent norm g a b w ld n1 n2 H1 H2 Hreg)
      as (g' & e & Hrun & _ & _ & _ & Hlook & _ & Hw & _).
    by exists g', e.
Qed.

Lemma add_edge_zero_weight_unweighted_witness :
  MGraph.add_edge sample_extent sample_norm "A" "B" (PyInt 0) (Q2Qc (Qmake 1 5))
    sample_graph
  = MGraph.add_edge sample_extent sample_norm "A" "B" PyNone (Q2Qc (Qmake 1 5))
      sample_graph
  ∧ (∃ (g' : Graph.MGraph) (e : Graph.Edge),
       MGraph.add_edge sample_extent sample_norm "A" "B" (PyInt 0)
         (Q2Qc (Qmake 1 5)) sample_graph = Ret tt g'
       ∧ Graph.edges g' !! ("A", "B") = Some e
       ∧ Graph.is_weighted e = false)
  ∧ (∃ (g' : Graph.MGraph) (e : Graph.Edge),
       MGraph.add_edge sample_extent sample_norm "A" "B" (PyInt 5)
         (Q2Qc (Qmake 1 5)) sample_graph = Ret tt g'
       ∧ Graph.edges g' !! ("A", "B") = Some e
       ∧ Graph.is_weighted e = truthy (PyInt 5)).
Proof.
  apply (add_edge_zero_weight_unweighted sample_extent sample_norm sample_graph
           "A" "B" (PyInt 5) (Q2Qc (Qmake 1 5))).
  - vm_compute. eexists. reflexivity.
  - vm_compute. eexists. reflexivity.
  - apply new_graph_invariant.
Defined.

(** ** C3: arrowheads *)

(** C3, as the code has it. Between two existing nodes of a graph whose edges
    are registered, the edge [add_edge] stores under (a, b) has an arrowhead
    exactly when the opposite edge (b, a) was absent at that moment. When it
    was present, the entry of (b, a) is replaced by a new edge without
    arrowhead as well: once both directions are inserted, neither edge has an
    arrowhead. *)
Theorem add_edge_arrowhead (text_extent : string → Qc → Qc * Qc)
    (norm : Point3D → Qc) (g : Graph.MGraph) (a b : string) (w : Py.value)
    (ld : Qc) :
  is_Some (Graph.nodes g !! a) →
  is_Some (Graph.nodes g !! b) →
  Graph.registered g →
  ∃ (g' : Graph.MGraph) (e : Graph.Edge),
    MGraph.add_edge text_extent norm a b w ld g = Ret tt g'
    ∧ Graph.edges g' !! (a, b) = Some e
    ∧ Graph.edge_has_tip g' e = negb (bool_decide (is_Some (Graph.edges g !! (b, a))))
    ∧ match Graph.edges g !! (b, a) with
      | None => Graph.edges g' = <[(a, b) := e]> (Graph.edges g)
      | Some _ =>
          ∃ e_rev : Graph.Edge,
            Graph.edges g' = <[(a, b) := e]> (<[(b, a) := e_rev]> (Graph.edges g))
            ∧ Graph.edge_has_tip g' e_rev = false
      end.
Proof.
  intros [n1 H1] [n2 H2] Hreg.
  destruct (add_edge_spec text_extent norm g a b w ld n1 n2 H1 H2 Hreg)
    as (g' & e & Hrun & _ & _ & _ & Hlook & Hline & _ & Hcase).
  exists g', e. split; [done|]. split; [done|].
  unfold Graph.edge_has_tip. rewrite Hline.
  destruct (Graph.edges g !! (b, a)) as [e_old|].
  - destruct Hcase as (e_rev & Hedges & Hline_rev & _ & Hlines).
    rewrite Hlines. split; [done|].
    exists e_rev. split; [done|]. by rewrite Hline_rev, Hlines.
  - destruct Hcase as [Hedges Hlines]. rewrite Hlines. by split.
Qed.

Lemma add_edge_arrowhead_witness :
  ∃ (g' : Graph.MGraph) (e : Graph.Edge),
    MGraph.add_edge sample_extent sample_norm "A" "B" PyNone (Q2Qc (Qmake 1 5))
      sample_graph = Ret tt g'
    ∧ Graph.edges g' !! ("A", "B") = Some e
    ∧ Graph.edge_has_tip g' e
      = negb (bool_decide (is_Some (Graph.edges sample_graph !! ("B", "A"))))
    ∧ match Graph.edges sample_graph !! ("B", "A") with
      | None => Graph.edges g' = <[("A", "B") := e]> (Graph.edges sample_graph)
      | Some _ =>
          ∃ e_rev : Graph.Edge,
            Graph.edges g'
            = <[("A", "B") := e]> (<[("B", "A") := e_rev]> (Graph.edges sample_graph))
            ∧ Graph.edge_has_tip g' e_rev = false
      end.
Proof.
  apply (add_edge_arrowhead sample_extent sample_norm sample_graph "A" "B" PyNone
           (Q2Qc (Qmake 1 5))).
  - vm_compute. eexists. reflexivity.
  - vm_compute. eexists. reflexivity.
  - apply new_graph_invariant.
Defined.

(** C3, counterexample. After [add_edge("A", "B")] the edge ("A", "B") has
    its arrowhead; after the following [add_edge("B", "A")] the edge stored
    under ("A", "B") has none, and neither has ("B", "A"). *)
Lemma add_edge_first_edge_loses_arrowhead :
  let g1 :=
    state_of
      (MGraph.add_edge sample_extent sample_norm "A" "B" PyNone (Q2Qc (Qmake 1 5))
         sample_graph) in
  (Graph.edge_has_tip g1 <$> Graph.edges g1 !! ("A", "B")) = Some true
  ∧ (Graph.edge_has_tip sample_graph_both
       <$> Graph.edges sample_graph_both !! ("A", "B")) = Some false
  ∧ (Graph.edge_has_tip sample_graph_both
       <$> Graph.edges sample_graph_both !! ("B", "A")) = Some false.
Proof. vm_compute. done. Qed.

(** ** C2: both directions between two nodes *)

(** C2, as the code has it. For two distinct existing nodes A and B of a graph
    whose edges are registered, [add_edge(A, B)] followed by [add_edge(B, A)]
    both return; the edge dictionary then holds an entry under (A, B) and one
    under (B, A), and no key beyond these two and those it had. The two edges
    hold the same line object, so their start and end points are equal: the
    points [_get_line_start_end] gives from A to B. *)
Theorem add_edge_both_directions (text_extent : string → Qc → Qc * Qc)
    (norm : Point3D → Qc) (g : Graph.MGraph) (A B : string)
    (nA nB : Graph.Node) (wAB wBA : Py.value) (ldAB ldBA : Qc) :
  Graph.nodes g !! A = Some nA →
  Graph.nodes g !! B = Some nB →
  A ≠ B →
  Graph.registered g →
  ∃ (g1 g2 : Graph.MGraph) (eAB eBA : Graph.Edge),
    MGraph.add_edge text_extent norm A B wAB ldAB g = Ret tt g1
    ∧ MGraph.add_edge text_extent norm B A wBA ldBA g1 = Ret tt g2
    ∧ Graph.edges g2 !! (A, B) = Some eAB
    ∧ Graph.edges g2 !! (B, A) = Some eBA
    ∧ dom (Graph.edges g2) = {[(A, B); (B, A)]} ∪ dom (Graph.edges g)
    ∧ Graph.line eAB = Graph.line eBA
    ∧ Graph.get_start_and_end g2 eAB = Graph.get_start_and_end g2 eBA
    ∧ Graph.get_start_and_end g2 eAB
      = MGraph._get_line_start_end norm
          (Graph.circle_center (Graph.circle nA)) (Graph.circle_center (Graph.circle nB))
          (Graph.radius (Graph.circle nA)) (Graph.radius (Graph.circle nB)).
Proof.
  intros HA HB Hne Hreg.
  destruct (add_edge_spec text_extent norm g A B wAB ldAB nA nB HA HB Hreg)
    as (g1 & e1 & Hrun1 & Hnodes1 & Hreg1 & _ & Hlook1 & _ & _ & Hcase1).
  rewrite <- Hnodes1 in HA, HB.
  destruct (add_edge_spec text_extent norm g1 B A wBA ldBA nB nA HB HA Hreg1)
    as (g2 & e2 & Hrun2 & _ & _ & _ & Hlook2 & Hline2 & _ & Hcase2).
  rewrite Hlook1 in Hcase2.
  destruct Hcase2 as (e_rev & Hedges2 & Hline_rev & _ & Hlines2).
  exists g1, g2, e_rev, e2.
  split; [done|]. split; [done|]. split.
  { rewrite Hedges2, lookup_insert_ne by congruence. apply lookup_insert_eq. }
  split; [done|]. split.
  { rewrite Hedges2, !dom_insert_L.
    destruct (Graph.edges g !! (B, A)) as [e_old|].
    - destruct Hcase1 as (e_rev1 & -> & _). rewrite !dom_insert_L.
      apply set_eq. intros k. rewrite !elem_of_union, !elem_of_singleton. tauto.
    - destruct Hcase1 as [-> _]. rewrite !dom_insert_L.
      apply set_eq. intros k. rewrite !elem_of_union, !elem_of_singleton. tauto. }
  split; [by rewrite Hline_rev, Hline2|].
  unfold Graph.get_start_and_end. rewrite Hline_rev, Hline2, Hlines2.
  split; [done|]. simpl.
  by destruct (MGraph._get_line_start_end norm _ _ _ _).
Qed.

Lemma add_edge_both_directions_witness :
  ∃ nA nB : Graph.Node,
    Graph.nodes sample_graph !! "A" = Some nA
    ∧ Graph.nodes sample_graph !! "B" = Some nB
    ∧ ∃ (g1 g2 : Graph.MGraph) (eAB eBA : Graph.Edge),
        MGraph.add_edge sample_extent sample_norm "A" "B" PyNone (Q2Qc (Qmake 1 5))
          sample_graph = Ret tt g1
        ∧ MGraph.add_edge sample_extent sample_norm "B" "A" PyNone (Q2Qc (Qmake 1 5))
            g1 = Ret tt g2
        ∧ Graph.edges g2 !! ("A", "B") = Some eAB
        ∧ Graph.edges g2 !! ("B", "A") = Some eBA
        ∧ dom (Graph.edges g2)
          = {[("A", "B"); ("B", "A")]} ∪ dom (Graph.edges sample_graph)
        ∧ Graph.line eAB = Graph.line eBA
        ∧ Graph.get_start_and_end g2 eAB = Graph.get_start_and_end g2 eBA
        ∧ Graph.get_start_and_end g2 eAB
          = MGraph._get_line_start_end sample_norm
              (Graph.circle_center (Graph.circle nA))
              (Graph.circle_center (Graph.circle nB))
              (Graph.radius (Graph.circle nA)) (Graph.radius (Graph.circle nB)).
Proof.
  eexists _, _. split; [vm_compute; reflexivity|]. split; [vm_compute; reflexivity|].
  apply (add_edge_both_directions sample_extent sample_norm sample_graph "A" "B").
  - vm_compute. reflexivity.
  - vm_compute. reflexivity.
  - discriminate.
  - apply new_graph_invariant.
Defined.

(** C2, counterexample. "A" is at (-2, 0, 0), "B" at (2, 0, 0). After
    [add_edge("A", "B")] and [add_edge("B", "A")] both edges are stored, and
    the start and end points of the edge ("A", "B") are those of the edge
    ("B", "A"): the two lines coincide, none is offset. *)
Lemma add_edge_both_directions_same_points :
  is_Some (Graph.edges sample_graph_both !! ("A", "B"))
  ∧ is_Some (Graph.edges sample_graph_both !! ("B", "A"))
  ∧ (Graph.get_start_and_end sample_graph_both
       <$> Graph.edges sample_graph_both !! ("A", "B"))
    = (Graph.get_start_and_end sample_graph_both
         <$> Graph.edges sample_graph_both !! ("B", "A")).
Proof. vm_compute. split_and!; [by eexists|by eexists|reflexivity]. Qed.

(** ** Children of the group *)

Lemma filter_ne_id {A} `{EqDecision A} (m : A) (l : list A) :
  m ∉ l → filter (λ x, x ≠ m) l = l.
Proof.
  induction l as [|x l IH]; [done|].
  rewrite not_elem_of_cons. intros [Hne Hl].
  rewrite filter_cons_True by done. by rewrite IH.
Qed.

Lemma remove_cons {A} `{EqDecision A} (m x : A) (l : list A) :
  Mobject.remove m (x :: l) = if decide (x = m) then l else x :: Mobject.remove m l.
Proof. reflexivity. Qed.

Lemma omap_cons {A B} (f : A → option B) (x : A) (l : list A) :
  omap f (x :: l) = match f x with Some y => y :: omap f l | None => omap f l end.
Proof. reflexivity. Qed.

Lemma element_uid_Some (m : Submobject) (u : nat) :
  element_uid m = Some u ↔ m = Element u.
Proof. destruct m; simpl; naive_solver. Qed.

Lemma attached_add_element (l : list Submobject) (u : nat) :
  u ∉ omap element_uid l →
  omap element_uid (Mobject.add (Element u) l) = omap element_uid l ++ [u].
Proof.
  intros Hu. unfold Mobject.add. rewrite filter_ne_id.
  - by rewrite omap_app.
  - intros Hin. apply Hu. apply list_elem_of_omap. by exists (Element u).
Qed.

Lemma attached_add_other (l : list Submobject) (m : Submobject) :
  element_uid m = None →
  omap element_uid (Mobject.add m l) = omap element_uid l.
Proof.
  intros Hm. unfold Mobject.add. rewrite omap_app. simpl. rewrite Hm, app_nil_r.
  induction l as [|x l IH]; [done|].
  destruct (decide (x = m)) as [->|Hne].
  - rewrite filter_cons_False by naive_solver. by rewrite omap_cons, Hm.
  - rewrite filter_cons_True by done. by rewrite !omap_cons, IH.
Qed.

Lemma attached_remove (l : list Submobject) (u : nat) :
  omap element_uid (Mobject.remove (Element u) l)
  = Mobject.remove u (omap element_uid l).
Proof.
  induction l as [|x l IH]; [done|]. rewrite remove_cons, omap_cons.
  destruct (decide (x = Element u)) as [->|Hne].
  - simpl. by rewrite decide_True.
  - rewrite omap_cons. destruct (element_uid x) as [v|] eqn:Hx; [|done].
    rewrite remove_cons, decide_False; [by rewrite IH|].
    intros ->. by apply Hne, element_uid_Some.
Qed.

Lemma remove_Permutation {A} `{EqDecision A} (u : A) (l l' : list A) :
  l ≡ₚ l' → Mobject.remove u l ≡ₚ Mobject.remove u l'.
Proof.
  induction 1 as [|x l l' H IH|x y l|l l' l'' H1 IH1 H2 IH2]; simpl.
  - done.
  - case_decide; [done|]. by f_equiv.
  - repeat case_decide; subst; try done. apply perm_swap.
  - by etrans.
Qed.

Lemma remove_NoDup_delete {A} `{EqDecision A} (u : A) (l : list A) (k : nat) :
  NoDup l → l !! k = Some u → Mobject.remove u l = delete k l.
Proof.
  intros Hnd. revert k. induction Hnd as [|x l Hx Hnd IH]; intros k Hk; [done|].
  destruct k as [|k]; simpl in *.
  - simplify_eq. by rewrite decide_True.
  - rewrite decide_False.
    + f_equal. by apply IH.
    + intros ->. apply Hx. by eapply list_elem_of_lookup_2.
Qed.

(** ** Collections: the calls one at a time *)

Lemma item_run (c : MCollection) (i : Z) :
  item i c = match getitem (elements c) i with
             | Some e => Ret e c
             | None => Exc IndexError c
             end.
Proof. unfold item. run_monad. by destruct (getitem (elements c) i). Qed.

Lemma update_item_run (c : MCollection) (i : Z) (f : MElement → MElement) :
  update_item i f c
  = match subscript (length (elements c)) i with
    | Some k => Ret tt (set_elements (alter f k (elements c)) c)
    | None => Exc IndexError c
    end.
Proof.
  unfold update_item. run_monad.
  by destruct (subscript (length (elements c)) i).
Qed.

Lemma subscript_getitem {A} (l : list A) (i : Z) :
  getitem l i = None ↔ subscript (length l) i = None.
Proof.
  unfold getitem. destruct (subscript (length l) i) as [k|] eqn:Hk; [|done].
  split; [|done]. intros Hnone. apply subscript_lt in Hk.
  apply lookup_ge_None in Hnone. lia.
Qed.

Lemma pop_run_empty (c : MCollection) (index : Z) :
  elements c = [] → MCollection.pop index c = Ret tt c.
Proof. intros H. unfold MCollection.pop. run_monad. by rewrite H. Qed.

Lemma pop_run_outside (c : MCollection) (index : Z) :
  elements c ≠ [] → subscript (length (elements c)) index = None →
  MCollection.pop index c = Exc IndexError c.
Proof.
  intros Hne Hk. unfold MCollection.pop, MCollection._logic_pop. run_monad.
  rewrite decide_True by (by destruct (elements c)).
  by rewrite (proj2 (subscript_getitem _ _) Hk).
Qed.

Lemma pop_run (c : MCollection) (index : Z) (k : nat) (e : MElement) :
  subscript (length (elements c)) index = Some k → elements c !! k = Some e →
  MCollection.pop index c
  = Ret tt
      (set_elements
         (shift_slice index (vneg (vscale (width (square e)) (_dir c)))
            (delete k (elements c)))
         (set_submobjects (Mobject.remove (Element (uid e)) (submobjects c)) c)).
Proof.
  intros Hk He. unfold MCollection.pop, MCollection._logic_pop. run_monad.
  rewrite decide_True by (by destruct (elements c)).
  rewrite (getitem_lookup _ _ _ Hk), He. simpl. by rewrite Hk.
Qed.

(** ** C1: the list and the group stay in step *)

Lemma synced_elements (c : MCollection) (l : list MElement) :
  uid <$> l = uid <$> elements c → synced c → synced (set_elements l c).
Proof. intros Hl (Hnd & Hperm & Hlt). unfold synced. simpl. by rewrite Hl. Qed.

Lemma uid_alter (f : MElement → MElement) (k : nat) (l : list MElement) :
  (∀ e, uid (f e) = uid e) → uid <$> alter f k l = uid <$> l.
Proof.
  intros Hf. apply list_eq. intros j. rewrite !list_lookup_fmap.
  destruct (decide (k = j)) as [->|Hne].
  - rewrite list_lookup_alter_eq. destruct (l !! j); [|done]. simpl. by rewrite Hf.
  - by rewrite list_lookup_alter_ne.
Qed.

Lemma uid_shift_slice (index : Z) (v : Point3D) (l : list MElement) :
  uid <$> shift_slice index v l = uid <$> l.
Proof.
  unfold shift_slice. cbv zeta. rewrite fmap_app, <- list_fmap_compose.
  change (uid ∘ MElement_shift v) with uid.
  by rewrite <- fmap_app, take_drop.
Qed.

Lemma synced_update_item (c : MCollection) (i : Z) (f : MElement → MElement) :
  (∀ e, uid (f e) = uid e) → synced c → synced (state_of (update_item i f c)).
Proof.
  intros Hf Hc. rewrite update_item_run.
  destruct (subscript (length (elements c)) i) as [k|]; [|done].
  simpl. apply synced_elements; [|done]. by apply uid_alter.
Qed.

Lemma synced_pop (c : MCollection) (index : Z) :
  synced c → synced (state_of (MCollection.pop index c)).
Proof.
  intros Hc. destruct (elements c) as [|e0 l0] eqn:Hel.
  { by rewrite pop_run_empty. }
  destruct (subscript (length (elements c)) index) as [k|] eqn:Hk.
  2: { rewrite pop_run_outside; [done|by rewrite Hel|done]. }
  destruct (lookup_lt_is_Some_2 (elements c) k) as [e He];
    [by eapply subscript_lt|].
  rewrite (pop_run c index k e Hk He). simpl.
  destruct Hc as (Hnd & Hperm & Hlt).
  unfold synced, attached_elements. simpl.
  rewrite uid_shift_slice, list_fmap_delete.
  assert ((uid <$> elements c) !! k = Some (uid e)) as Hke
    by (by rewrite list_lookup_fmap, He).
  split; [|split].
  - exact (sublist_NoDup _ _ Hnd (sublist_delete _ _)).
  - rewrite attached_remove.
    rewrite (remove_Permutation _ _ _ Hperm).
    by rewrite (remove_NoDup_delete _ _ k Hnd Hke).
  - by apply Forall_delete.
Qed.

Section Synced.

Variable text_extent : string → Qc → Qc * Qc.

Lemma synced_fresh_element (c : MCollection) (e : MElement) :
  uid e = next_uid c → synced c →
  synced
    (set_submobjects (Mobject.add (Element (uid e)) (submobjects c))
       (set_elements (elements c ++ [e]) (set_next_uid (S (next_uid c)) c))).
Proof.
  intros He (Hnd & Hperm & Hlt).
  assert (uid e ∉ uid <$> elements c) as Hfresh.
  { intros Hin. rewrite Forall_forall in Hlt. apply Hlt in Hin. lia. }
  unfold synced, attached_elements. simpl. rewrite fmap_app. simpl.
  split; [|split].
  - apply NoDup_app. split; [done|]. split; [|apply NoDup_singleton].
    intros u Hu ->%list_elem_of_singleton. done.
  - rewrite attached_add_element by (by rewrite Hperm).
    by f_equiv.
  - apply Forall_app. split.
    + eapply Forall_impl; [done|]. intros u Hu. simpl in Hu. lia.
    + apply Forall_singleton. lia.
Qed.

(** [new_element] followed by [_append_helper]: the new element goes to the
    end of the list and of the group. *)
Lemma append_new_run (c : MCollection) (value : Py.value) :
  ∃ e, uid e = next_uid c
       ∧ (new_elem <- MCollection.new_element text_extent value ;;
          MCollection._append_helper new_elem) c
         = Ret tt
             (set_submobjects (Mobject.add (Element (uid e)) (submobjects c))
                (set_elements (elements c ++ [e])
                   (set_next_uid (S (next_uid c)) c))).
Proof.
  unfold MCollection.new_element, MCollection._append_helper. run_monad.
  simpl. eexists. split; [|reflexivity]. by destruct (last (elements c)).
Qed.

Lemma synced_style (c : MCollection) (s : Style) :
  synced c → synced (set_style s c).
Proof. done. Qed.

Lemma synced_MCollection_append (c : MCollection) (value : Py.value) :
  synced c → synced (state_of (MCollection.append text_extent value c)).
Proof.
  intros Hc. unfold MCollection.append, MCollection._update_style.
  rewrite (bind_run _ _ _ _ _ (modify_run _ _)).
  match goal with |- context [bind _ _ ?s] =>
    destruct (append_new_run s value) as (e & He & ->)
  end.
  simpl. by apply (synced_fresh_element (set_style _ c)).
Qed.

Lemma synced_MArray_update_style (c : MCollection) :
  synced c → synced (state_of (MArray._update_style c)).
Proof.
  intros Hc. unfold MArray._update_style, MCollection._update_style. run_monad.
  simpl. destruct (_index_enabled c); [|done].
  by destruct (index (_hidden_element c)).
Qed.

Lemma synced_MArray_append (c : MCollection) (value : Py.value) :
  synced c → synced (state_of (MArray.append text_extent value c)).
Proof.
  intros Hc. unfold MArray.append. unfold bind at 1.
  pose proof (synced_MArray_update_style c Hc) as Hs.
  destruct (MArray._update_style c) as [[] c1|ex c1]; simpl in Hs; [|done].
  rewrite <- bind_assoc.
  destruct (append_new_run c1 value) as (e & He & Hrun).
  rewrite (bind_run _ _ _ _ _ Hrun).
  pose proof (synced_fresh_element c1 e He Hs) as Hs2.
  match goal with |- context [bind get _ ?s] => set (c2 := s) in * end.
  unfold bind at 1, get.
  destruct (_index_enabled c2); [|done].
  unfold MArray._get_index_buff. run_monad.
  destruct (index (_hidden_element c2)); [|done].
  destruct (_ || _); destruct (_index_dir c2); try done.
  all: by apply synced_update_item.
Qed.

Lemma synced_set_index_loop (positions : list Z) (old_index : Text) (c : MCollection) :
  synced c → synced (state_of (MArray._set_index_loop positions old_index c)).
Proof.
  revert old_index c. induction positions as [|i rest IH]; intros old_index c Hc;
    [done|].
  simpl. unfold bind at 1. rewrite item_run.
  destruct (getitem (elements c) i) as [curr|]; [|done].
  unfold bind at 1, lookup_or.
  destruct (index curr) as [curr_index|]; [|done].
  unfold ret at 1. unfold bind at 1.
  pose proof (synced_update_item c i
    (with_index (Some (Text_move_to old_index (Text_box curr_index))))
    (λ _, eq_refl) Hc) as Hs.
  destruct (update_item i _ c) as [[] c1|ex c1]; simpl in Hs; [|done].
  by apply IH.
Qed.

Lemma synced_MArray_pop (c : MCollection) (index : Z) :
  synced c → synced (state_of (MArray.pop index c)).
Proof.
  intros Hc. unfold MArray.pop. unfold bind at 1, get.
  case_decide; [|done].
  unfold bind at 1. rewrite item_run.
  destruct (getitem (elements c) index) as [popped_element|]; [|done].
  unfold bind at 1.
  pose proof (synced_pop c index Hc) as Hs.
  destruct (MCollection.pop index c) as [[] c1|ex c1]; simpl in Hs; [|done].
  unfold bind at 1, get.
  destruct (_index_enabled c1); [|done].
  unfold bind at 1, lookup_or.
  destruct (Collection.index popped_element) as [popped_index|]; [|done].
  unfold ret at 1. by apply synced_set_index_loop.
Qed.

Lemma uid_imap (f : nat → MElement → MElement) (l : list MElement) :
  (∀ i e, uid (f i e) = uid e) → uid <$> imap f l = uid <$> l.
Proof.
  intros Hf. rewrite fmap_imap. apply list_eq. intros j.
  rewrite list_lookup_imap, list_lookup_fmap.
  destruct (l !! j); [|done]. simpl. by rewrite Hf.
Qed.

Lemma synced_add_indexes (c : MCollection) (direction : Point3D) (buff : Qc) :
  synced c →
  synced (state_of (MArray.add_indexes text_extent direction buff c)).
Proof.
  intros Hc. unfold MArray.add_indexes. run_monad.
  destruct (_index_enabled c); [done|].
  destruct (array_equal _ _); [done|].
  simpl. apply (synced_elements (set_hidden_element _ (set_indexing _ _ c)));
    [|done].
  simpl. by apply uid_imap.
Qed.

Lemma synced_MStack_pop (c : MCollection) :
  synced c → synced (state_of (MStack.pop c)).
Proof. intros Hc. unfold MStack.pop. run_monad. by apply synced_pop. Qed.

Lemma synced_attach_other (c : MCollection) (m : Submobject) :
  element_uid m = None → synced c →
  synced (set_submobjects (Mobject.add m (submobjects c)) c).
Proof.
  intros Hm (Hnd & Hperm & Hlt). unfold synced, attached_elements. simpl.
  by rewrite attached_add_other.
Qed.

Lemma synced_group_move_to (c : MCollection) (point : Point3D) :
  synced c → synced (group_move_to point c).
Proof.
  intros Hc. unfold group_move_to, group_shift.
  apply (synced_elements c); [|done].
  rewrite <- list_fmap_compose. done.
Qed.

Lemma synced_next_uid (c : MCollection) :
  synced c → synced (set_next_uid (S (next_uid c)) c).
Proof.
  intros (Hnd & Hperm & Hlt). unfold synced. simpl.
  split; [done|]. split; [done|].
  eapply Forall_impl; [done|]. intros u Hu. simpl in Hu. lia.
Qed.

(** The state of a call of [__init__] is carried along a chain of calls. *)
Lemma state_of_bind {St A B} (P : St → Prop) (m : M St A) (k : A → M St B) (s : St) :
  P (state_of (m s)) → (∀ a s', P s' → P (state_of (k a s'))) →
  P (state_of (bind m k s)).
Proof.
  intros Hm Hk. unfold bind. destruct (m s) as [a s'|e s']; simpl in *; auto.
Qed.

Lemma synced_MCollection_init (append : Py.value → M MCollection unit)
    (arr : list Py.value) (direction : Point3D) (margin : Qc) (style : Style)
    (c : MCollection) :
  (∀ value c, synced c → synced (state_of (append value c))) →
  synced (state_of (MCollection.__init__ text_extent append arr direction margin
                      style c)).
Proof.
  intros Happend. unfold MCollection.__init__.
  rewrite (bind_run _ _ _ _ _ (modify_run _ _)).
  apply state_of_bind.
  - apply for_each_preserves; [done|].
    unfold synced, attached_elements. simpl.
    split; [apply NoDup_nil_2|]. split; [done|]. apply Forall_nil_2.
  - intros _ c1 Hc1. by apply synced_group_move_to.
Qed.

Lemma synced_MArray_new (arr : list Py.value) (direction : Point3D) (style : Style) :
  synced (MArray.new text_extent arr direction style).
Proof.
  unfold MArray.new, MArray.__init__.
  rewrite (bind_run _ _ _ _ _ (modify_run _ _)).
  apply state_of_bind.
  - apply synced_MCollection_init. intros value c. apply synced_MArray_append.
  - intros _ c Hc. run_monad. simpl.
    apply (synced_attach_other (set_hidden_element _ (set_next_uid _ c))); [done|].
    by apply synced_next_uid.
Qed.

Lemma synced_MStack_new (arr : list Py.value) (buff : Qc) (style : Style) :
  synced (MStack.new text_extent arr buff style).
Proof.
  unfold MStack.new, MStack.__init__.
  apply state_of_bind.
  - apply synced_MCollection_init. intros value c. apply synced_MCollection_append.
  - intros _ c Hc. run_monad. simpl.
    apply synced_group_move_to.
    by apply (synced_attach_other (set_container _ c)).
Qed.

Lemma synced_run_script {Call} (exec : Call → M MCollection unit)
    (script : list Call) (c : MCollection) :
  (∀ call c, synced c → synced (state_of (exec call c))) →
  synced c → synced (run_script exec script c).
Proof.
  intros Hexec. revert c. induction script as [|call rest IH]; intros c Hc; [done|].
  simpl. by apply IH, Hexec.
Qed.

End Synced.

(** ** Geometry: shifts *)

Ltac vec_ring :=
  repeat match goal with p : Point3D |- _ => destruct p end;
  unfold vadd, vsub, vneg, vscale, ORIGIN; simpl; f_equal; ring.

Lemma half_double : (half + half = 1)%Qc.
Proof. apply Qc_is_canon. reflexivity. Qed.

Lemma pick_shift (d l h v : Qc) : pick d (l + v) (h + v) = (pick d l h + v)%Qc.
Proof.
  unfold pick. repeat case_decide; try done.
  transitivity ((l + h) * half + v * (half + half))%Qc; [ring|].
  rewrite half_double. ring.
Qed.

Lemma get_critical_point_shift (b : Box) (v direction : Point3D) :
  get_critical_point (box_shift v b) direction
  = vadd (get_critical_point b direction) v.
Proof.
  unfold get_critical_point, box_shift, vadd. simpl. by rewrite !pick_shift.
Qed.

Lemma Qcmin_shift (a b v : Qc) : Qcmin (a + v) (b + v) = (Qcmin a b + v)%Qc.
Proof.
  unfold Qcmin. destruct (decide (a ≤ b)%Qc) as [H|H].
  - rewrite decide_True; [done|]. by apply Qcplus_le_mono_r.
  - rewrite decide_False; [done|]. intros H'. by apply H, (Qcplus_le_mono_r _ _ v).
Qed.

Lemma Qcmax_shift (a b v : Qc) : Qcmax (a + v) (b + v) = (Qcmax a b + v)%Qc.
Proof.
  unfold Qcmax. destruct (decide (a ≤ b)%Qc) as [H|H].
  - rewrite decide_True; [done|]. by apply Qcplus_le_mono_r.
  - rewrite decide_False; [done|]. intros H'. by apply H, (Qcplus_le_mono_r _ _ v).
Qed.

Lemma box_union_shift (a b : Box) (v : Point3D) :
  box_union (box_shift v a) (box_shift v b) = box_shift v (box_union a b).
Proof.
  unfold box_union, box_shift, vadd. simpl.
  by rewrite !Qcmin_shift, !Qcmax_shift.
Qed.

Lemma Rectangle_box_shift (r : Rectangle) (v : Point3D) :
  Rectangle_box (Rectangle_shift v r) = box_shift v (Rectangle_box r).
Proof.
  destruct r as [[cx cy cz] w h], v as [vx vy vz].
  unfold Rectangle_box, Rectangle_shift, box_shift, vadd. simpl.
  f_equal; f_equal; ring.
Qed.

Lemma Text_box_shift (t : Text) (v : Point3D) :
  Text_box (Text_shift v t) = box_shift v (Text_box t).
Proof. apply Rectangle_box_shift. Qed.

Lemma body_box_shift (e : MElement) (v : Point3D) :
  body_box (body_shift v e) = box_shift v (body_box e).
Proof.
  unfold body_box, body_shift. simpl.
  by rewrite Rectangle_box_shift, Text_box_shift, box_union_shift.
Qed.

Lemma MElement_box_shift (e : MElement) (v : Point3D) :
  MElement_box (MElement_shift v e) = box_shift v (MElement_box e).
Proof.
  unfold MElement_box, MElement_shift, body_box. simpl.
  destruct (index e) as [t|]; simpl.
  - by rewrite Rectangle_box_shift, !Text_box_shift, !box_union_shift.
  - by rewrite Rectangle_box_shift, Text_box_shift, box_union_shift.
Qed.

Lemma vadd_cancel (c v w : Point3D) :
  vadd v w = ORIGIN → vadd (vadd c v) w = c.
Proof.
  intros H.
  transitivity (vadd c (vadd v w)); [vec_ring|].
  rewrite H. vec_ring.
Qed.

Lemma Rectangle_shift_cancel (r : Rectangle) (v w : Point3D) :
  vadd v w = ORIGIN → Rectangle_shift w (Rectangle_shift v r) = r.
Proof.
  intros H. destruct r as [c wd h]. unfold Rectangle_shift. simpl.
  by rewrite vadd_cancel.
Qed.

Lemma Text_shift_cancel (t : Text) (v w : Point3D) :
  vadd v w = ORIGIN → Text_shift w (Text_shift v t) = t.
Proof.
  intros H. destruct t as [s fs fr]. unfold Text_shift. simpl.
  by rewrite Rectangle_shift_cancel.
Qed.

Lemma body_shift_cancel (e : MElement) (v w : Point3D) :
  vadd v w = ORIGIN → body_shift w (body_shift v e) = e.
Proof.
  intros H. destruct e as [u sq val idx]. unfold body_shift. simpl.
  by rewrite Rectangle_shift_cancel, Text_shift_cancel.
Qed.

Lemma MElement_shift_cancel (e : MElement) (v w : Point3D) :
  vadd v w = ORIGIN → MElement_shift w (MElement_shift v e) = e.
Proof.
  intros H. destruct e as [u sq val idx]. unfold MElement_shift. simpl.
  rewrite Rectangle_shift_cancel, Text_shift_cancel by done.
  destruct idx as [t|]; simpl; [|done]. by rewrite Text_shift_cancel.
Qed.

(** The two moves of a first swap followed by the two moves of a second one
    cancel: [cA] and [cB] are the anchor points of the two elements. *)
Lemma swap_vectors_cancel (cA cB : Point3D) :
  vadd (vsub cA cB) (vsub (vadd cA (vsub cB cA)) (vadd cB (vsub cA cB))) = ORIGIN.
Proof. vec_ring. Qed.

Lemma same_vectors_cancel (cA : Point3D) :
  vadd (vsub cA cA) (vsub cA (vadd cA (vsub cA cA))) = ORIGIN.
Proof. vec_ring. Qed.

(** ** Collections: calls that return *)

Lemma returns_bind {A B} (P : MCollection → Prop) (m : M MCollection A)
    (Q : A → MCollection → Prop) (k : A → M MCollection B)
    (R : B → MCollection → Prop) :
  returns P m Q → (∀ a, returns (Q a) (k a) R) → returns P (bind m k) R.
Proof.
  intros Hm Hk c Hc. destruct (Hm c Hc) as (a & c' & Hrun & Hq).
  rewrite (bind_run _ _ _ _ _ Hrun). by apply Hk.
Qed.

Lemma returns_assuming {A} (H : Prop) (P : MCollection → Prop)
    (m : M MCollection A) (Q : A → MCollection → Prop) :
  (H → returns P m Q) → returns (λ c, H ∧ P c) m Q.
Proof. intros Hm c [Hh Hp]. by apply Hm. Qed.

Lemma returns_item (l : list MElement) (en : bool) (i : Z) (k : nat) (e : MElement) :
  subscript (length l) i = Some k → l !! k = Some e →
  returns (holds l en) (item i) (λ a c, a = e ∧ holds l en c).
Proof.
  intros Hk He c [Hl Hen]. exists e, c. rewrite item_run, Hl.
  by rewrite (getitem_lookup _ _ _ Hk), He.
Qed.

Lemma returns_update_item (l : list MElement) (en : bool) (i : Z) (k : nat)
    (x : MElement) (f : MElement → MElement) :
  subscript (length l) i = Some k → l !! k = Some x →
  returns (holds l en) (update_item i f) (λ _, holds (<[k := f x]> l) en).
Proof.
  intros Hk Hx c [Hl Hen]. eexists tt, _. rewrite update_item_run, Hl, Hk.
  split; [done|]. split; [|done]. simpl.
  apply list_eq. intros n. rewrite list_lookup_alter, list_lookup_insert.
  pose proof (subscript_lt _ _ _ Hk).
  destruct (decide (k = n)) as [->|Hne].
  - rewrite decide_True by done. by rewrite Hx.
  - rewrite decide_False; [done|]. by intros [? _].
Qed.

Lemma returns_attach (l : list MElement) (en : bool) (m : Submobject) :
  returns (holds l en) (attach m) (λ _, holds l en).
Proof. intros c Hc. by eexists tt, _. Qed.

Lemma returns_detach (l : list MElement) (en : bool) (m : Submobject) :
  returns (holds l en) (detach m) (λ _, holds l en).
Proof. intros c Hc. by eexists tt, _. Qed.

Lemma returns_get_flag {B} (l : list MElement) (en : bool)
    (k : MCollection → M MCollection B) (R : B → MCollection → Prop) :
  (∀ c0, _index_enabled c0 = en → returns (holds l en) (k c0) R) →
  returns (holds l en) (bind get k) R.
Proof. intros H c Hc. unfold bind, get. exact (H c (proj2 Hc) c Hc). Qed.

Lemma returns_ret {A} (P : MCollection → Prop) (a : A) :
  returns P (ret a) (λ _, P).
Proof. intros c Hc. by exists a, c. Qed.

Lemma returns_lookup_or {A} (P : MCollection → Prop) (e : exn) (o : option A) (x : A) :
  o = Some x → returns P (lookup_or e o) (λ a c, a = x ∧ P c).
Proof. intros -> c Hc. by exists x, c. Qed.

(** Running the helpers of [swap] on a known list. *)
Ltac returns_step :=
  first
    [ eapply returns_bind; [eapply returns_item; eassumption|];
      let a := fresh "a" in let Ha := fresh "Ha" in
      intros a; apply returns_assuming; intros Ha; subst a
    | eapply returns_bind; [apply returns_detach|]; intros ?
    | eapply returns_bind; [apply returns_attach|]; intros ? ].

Lemma swap_items_returns (l : list MElement) (en : bool) (i j : Z) (ki kj : nat)
    (x y : MElement) :
  subscript (length l) i = Some ki → subscript (length l) j = Some kj →
  l !! ki = Some x → l !! kj = Some y →
  returns (holds l en) (MCollection.swap_items i j)
    (λ _, holds (<[kj := x]> (<[ki := y]> l)) en).
Proof.
  intros Hi Hj Hx Hy. unfold MCollection.swap_items.
  do 2 returns_step.
  eapply returns_bind; [by eapply (returns_update_item _ _ i ki x)|]. intros ?. simpl.
  destruct (lookup_lt_is_Some_2 (<[ki := y]> l) kj) as [z Hz].
  { rewrite length_insert. by eapply subscript_lt. }
  pose proof (returns_update_item (<[ki := y]> l) en j kj z (λ _, x)) as Hu.
  rewrite length_insert in Hu. by apply Hu.
Qed.

Lemma returns_item_some (l : list MElement) (en : bool) (i : Z) (k : nat) :
  subscript (length l) i = Some k →
  returns (holds l en) (item i) (λ _, holds l en).
Proof.
  intros Hk. destruct (lookup_lt_is_Some_2 l k) as [e He];
    [by eapply subscript_lt|].
  intros c Hc. destruct (returns_item l en i k e Hk He c Hc) as (a & c' & ? & _ & ?).
  by exists a, c'.
Qed.

Lemma reattach_returns (l : list MElement) (en : bool) (i j : Z) (ki kj : nat) :
  subscript (length l) i = Some ki → subscript (length l) j = Some kj →
  returns (holds l en)
    (e <- item i ;; attach (Element (uid e)) ;;
     e <- item j ;; attach (Element (uid e)))
    (λ _, holds l en).
Proof.
  intros Hi Hj.
  eapply returns_bind; [by eapply returns_item_some|]. intros ?.
  eapply returns_bind; [apply returns_attach|]. intros ?.
  eapply returns_bind; [by eapply returns_item_some|]. intros ?.
  apply returns_attach.
Qed.

Lemma insert_swap_collapse (l : list MElement) (ki kj : nat) (x y x' y' : MElement) :
  <[kj := x']> (<[ki := y']> (<[kj := x]> (<[ki := y]> l)))
  = <[kj := x']> (<[ki := y']> l).
Proof.
  destruct (decide (ki = kj)) as [->|Hne].
  - by rewrite !list_insert_insert_eq.
  - rewrite (list_insert_insert_ne _ ki kj y' x) by done.
    by rewrite !list_insert_insert_eq.
Qed.

Lemma MCollection_logic_swap_returns (l : list MElement) (en : bool) (i j : Z)
    (ki kj : nat) (x y : MElement) :
  subscript (length l) i = Some ki → subscript (length l) j = Some kj →
  l !! ki = Some x → l !! kj = Some y →
  returns (holds l en) (MCollection._logic_swap i j)
    (λ _, holds (<[kj := x]> (<[ki := y]> l)) en).
Proof.
  intros Hi Hj Hx Hy. unfold MCollection._logic_swap.
  do 4 returns_step.
  eapply returns_bind; [by eapply swap_items_returns|]. intros ?.
  apply (reattach_returns _ en i j ki kj); by rewrite !length_insert.
Qed.

Lemma MArray_logic_swap_returns (l : list MElement) (en : bool) (i j : Z)
    (ki kj : nat) (x y : MElement) :
  subscript (length l) i = Some ki → subscript (length l) j = Some kj →
  l !! ki = Some x → l !! kj = Some y → ki ≠ kj →
  (en = true → is_Some (index x) ∧ is_Some (index y)) →
  returns (holds l en) (MArray._logic_swap i j)
    (λ _, holds (<[kj := exchange en x y]> (<[ki := exchange en y x]> l)) en).
Proof.
  intros Hi Hj Hx Hy Hne Hidx. unfold MArray._logic_swap.
  rewrite <- (insert_swap_collapse l ki kj x y (exchange en x y) (exchange en y x)).
  do 4 returns_step.
  eapply returns_bind; [by eapply swap_items_returns|]. intros ?.
  set (l' := <[kj := x]> (<[ki := y]> l)).
  assert (length l' = length l) as Hlen by (unfold l'; by rewrite !length_insert).
  assert (l' !! ki = Some y) as Hy'.
  { unfold l'. rewrite list_lookup_insert_ne by done.
    apply list_lookup_insert_eq. by eapply subscript_lt. }
  assert (l' !! kj = Some x) as Hx'.
  { unfold l'. apply list_lookup_insert_eq. rewrite length_insert.
    by eapply subscript_lt. }
  assert (subscript (length l') i = Some ki) as Hi' by (by rewrite Hlen).
  assert (subscript (length l') j = Some kj) as Hj' by (by rewrite Hlen).
  clearbody l'.
  apply returns_get_flag. intros c0 Hen0. rewrite Hen0. clear c0 Hen0.
  eapply returns_bind.
  2: { intros ?. apply (reattach_returns _ _ i j ki kj); by rewrite !length_insert. }
  destruct en.
  - destruct (Hidx eq_refl) as [[ix Hix] [iy Hiy]].
    do 1 returns_step.
    eapply returns_bind; [by eapply returns_lookup_or|].
    intros ?. apply returns_assuming. intros ->.
    do 1 returns_step.
    eapply returns_bind; [by eapply returns_lookup_or|].
    intros ?. apply returns_assuming. intros ->.
    eapply returns_bind; [by eapply (returns_update_item _ _ i ki y)|]. intros ?.
    unfold exchange. rewrite Hix, Hiy.
    pose proof (returns_update_item (<[ki := with_index (Some ix) y]> l') true j kj x
                  (with_index (Some iy))) as Hu.
    rewrite length_insert in Hu. apply Hu; [done|].
    by rewrite list_lookup_insert_ne.
  - simpl. rewrite !list_insert_id; [apply returns_ret|done|].
    by rewrite list_insert_id.
Qed.

Lemma MArray_logic_swap_same (l : list MElement) (en : bool) (i j : Z) (k : nat)
    (x : MElement) :
  subscript (length l) i = Some k → subscript (length l) j = Some k →
  l !! k = Some x → (en = true → is_Some (index x)) →
  returns (holds l en) (MArray._logic_swap i j) (λ _, holds l en).
Proof.
  intros Hi Hj Hx Hidx. unfold MArray._logic_swap.
  do 4 returns_step.
  eapply returns_bind; [by eapply swap_items_returns|]. intros ?.
  rewrite list_insert_insert_eq, list_insert_id by done.
  apply returns_get_flag. intros c0 Hen0. rewrite Hen0. clear c0 Hen0.
  eapply returns_bind.
  2: { intros ?. by apply (reattach_returns _ _ i j k k). }
  destruct en; [|apply returns_ret].
  destruct (Hidx eq_refl) as [ix Hix].
  assert (with_index (Some ix) x = x) as Hsame.
  { destruct x. simpl in Hix. by subst. }
  do 1 returns_step.
  eapply returns_bind; [by eapply returns_lookup_or|].
  intros ?. apply returns_assuming. intros ->.
  do 1 returns_step.
  eapply returns_bind; [by eapply returns_lookup_or|].
  intros ?. apply returns_assuming. intros ->.
  pose proof (returns_update_item l true i k x (with_index (Some ix)) Hi Hx) as H1.
  pose proof (returns_update_item l true j k x (with_index (Some ix)) Hj Hx) as H2.
  rewrite Hsame, list_insert_id in H1, H2 by done.
  eapply returns_bind; [exact H1|]. intros ?. exact H2.
Qed.

Lemma MCollection_visual_swap_returns (l : list MElement) (en : bool) (i j : Z)
    (ki kj : nat) (a b z : MElement) :
  subscript (length l) i = Some ki → subscript (length l) j = Some kj →
  l !! ki = Some a → l !! kj = Some b →
  let a1 := MElement_shift (move_to_vector (MElement_box a) (MElement_box b) DOWN) a in
  <[ki := a1]> l !! kj = Some z →
  returns (holds l en) (MCollection._visual_swap i j)
    (λ _, holds
            (<[kj := MElement_shift
                       (move_to_vector (MElement_box z) (MElement_box a) DOWN) z]>
               (<[ki := a1]> l))
            en).
Proof.
  intros Hi Hj Ha Hb a1 Hz. unfold MCollection._visual_swap.
  do 2 returns_step.
  eapply returns_bind; [by eapply (returns_update_item _ _ i ki a)|]. intros ?.
  pose proof (returns_update_item (<[ki := a1]> l) en j kj z
    (λ e, MElement_shift (move_to_vector (MElement_box e) (MElement_box a) DOWN) e))
    as Hu.
  rewrite length_insert in Hu. by apply Hu.
Qed.

Lemma MArray_visual_swap_returns (l : list MElement) (en : bool) (i j : Z)
    (ki kj : nat) (a b z : MElement) :
  subscript (length l) i = Some ki → subscript (length l) j = Some kj →
  l !! ki = Some a → l !! kj = Some b →
  let a1 := body_shift (move_to_vector (body_box a) (body_box b) DOWN) a in
  <[ki := a1]> l !! kj = Some z →
  returns (holds l en) (MArray._visual_swap i j)
    (λ _, holds
            (<[kj := body_shift (move_to_vector (body_box z) (body_box a) DOWN) z]>
               (<[ki := a1]> l))
            en).
Proof.
  intros Hi Hj Ha Hb a1 Hz. unfold MArray._visual_swap.
  do 2 returns_step.
  eapply returns_bind; [by eapply (returns_update_item _ _ i ki a)|]. intros ?.
  pose proof (returns_update_item (<[ki := a1]> l) en j kj z
    (λ e, body_shift (move_to_vector (body_box e) (body_box a) DOWN) e))
    as Hu.
  rewrite length_insert in Hu. by apply Hu.
Qed.

(** A swap of a position with itself leaves the list as it is. *)
Lemma MCollection_swap_same (l : list MElement) (en : bool) (i j : Z) (k : nat)
    (a : MElement) :
  subscript (length l) i = Some k → subscript (length l) j = Some k →
  l !! k = Some a →
  returns (holds l en) (MCollection.swap i j) (λ _, holds l en).
Proof.
  intros Hi Hj Ha. unfold MCollection.swap.
  set (a1 := MElement_shift (move_to_vector (MElement_box a) (MElement_box a) DOWN) a).
  assert (<[k := a1]> l !! k = Some a1) as Hz.
  { apply list_lookup_insert_eq. by eapply subscript_lt. }
  eapply returns_bind;
    [exact (MCollection_visual_swap_returns l en i j k k a a a1 Hi Hj Ha Ha Hz)|].
  intros ?. fold a1.
  assert (MElement_shift (move_to_vector (MElement_box a1) (MElement_box a) DOWN) a1 = a)
    as ->.
  { unfold a1. apply MElement_shift_cancel.
    unfold move_to_vector. rewrite MElement_box_shift, get_critical_point_shift.
    apply same_vectors_cancel. }
  rewrite list_insert_insert_eq, list_insert_id by done.
  pose proof (MCollection_logic_swap_returns l en i j k k a a Hi Hj Ha Ha) as Hl.
  by rewrite list_insert_insert_eq, list_insert_id in Hl.
Qed.

Lemma MArray_swap_same (l : list MElement) (en : bool) (i j : Z) (k : nat)
    (a : MElement) :
  subscript (length l) i = Some k → subscript (length l) j = Some k →
  l !! k = Some a → (en = true → is_Some (index a)) →
  returns (holds l en) (MArray.swap i j) (λ _, holds l en).
Proof.
  intros Hi Hj Ha Hidx. unfold MArray.swap.
  set (a1 := body_shift (move_to_vector (body_box a) (body_box a) DOWN) a).
  assert (<[k := a1]> l !! k = Some a1) as Hz.
  { apply list_lookup_insert_eq. by eapply subscript_lt. }
  eapply returns_bind;
    [exact (MArray_visual_swap_returns l en i j k k a a a1 Hi Hj Ha Ha Hz)|].
  intros ?. fold a1.
  assert (body_shift (move_to_vector (body_box a1) (body_box a) DOWN) a1 = a) as ->.
  { unfold a1. apply body_shift_cancel.
    unfold move_to_vector. rewrite body_box_shift, get_critical_point_shift.
    apply same_vectors_cancel. }
  rewrite list_insert_insert_eq, list_insert_id by done.
  by apply (MArray_logic_swap_same l en i j k a).
Qed.

(** A swap of two different positions: each element goes to the other slot,
    moved to where the other was. *)
Lemma MCollection_swap_distinct (l : list MElement) (en : bool) (i j : Z)
    (ki kj : nat) (a b : MElement) :
  subscript (length l) i = Some ki → subscript (length l) j = Some kj →
  l !! ki = Some a → l !! kj = Some b → ki ≠ kj →
  returns (holds l en) (MCollection.swap i j)
    (λ _, holds
            (<[kj := MElement_shift
                       (move_to_vector (MElement_box a) (MElement_box b) DOWN) a]>
               (<[ki := MElement_shift
                          (move_to_vector (MElement_box b) (MElement_box a) DOWN) b]>
                  l))
            en).
Proof.
  intros Hi Hj Ha Hb Hne. unfold MCollection.swap.
  set (a1 := MElement_shift (move_to_vector (MElement_box a) (MElement_box b) DOWN) a).
  set (b1 := MElement_shift (move_to_vector (MElement_box b) (MElement_box a) DOWN) b).
  pose proof (subscript_lt _ _ _ Hi) as Hki. pose proof (subscript_lt _ _ _ Hj) as Hkj.
  assert (<[ki := a1]> l !! kj = Some b) as Hz by (by rewrite list_lookup_insert_ne).
  eapply returns_bind;
    [exact (MCollection_visual_swap_returns l en i j ki kj a b b Hi Hj Ha Hb Hz)|].
  intros ?. fold a1 b1.
  rewrite <- (insert_swap_collapse l ki kj b1 a1 a1 b1).
  apply MCollection_logic_swap_returns; rewrite ?length_insert; try done.
  - rewrite list_lookup_insert_ne by done. by apply list_lookup_insert_eq.
  - apply list_lookup_insert_eq. by rewrite length_insert.
Qed.

Lemma MArray_swap_distinct (l : list MElement) (en : bool) (i j : Z)
    (ki kj : nat) (a b : MElement) :
  subscript (length l) i = Some ki → subscript (length l) j = Some kj →
  l !! ki = Some a → l !! kj = Some b → ki ≠ kj →
  (en = true → is_Some (index a) ∧ is_Some (index b)) →
  returns (holds l en) (MArray.swap i j)
    (λ _, holds
            (<[kj := exchange en
                       (body_shift (move_to_vector (body_box a) (body_box b) DOWN) a)
                       (body_shift (move_to_vector (body_box b) (body_box a) DOWN) b)]>
               (<[ki := exchange en
                          (body_shift (move_to_vector (body_box b) (body_box a) DOWN) b)
                          (body_shift (move_to_vector (body_box a) (body_box b) DOWN) a)]>
                  l))
            en).
Proof.
  intros Hi Hj Ha Hb Hne Hidx. unfold MArray.swap.
  set (a1 := body_shift (move_to_vector (body_box a) (body_box b) DOWN) a).
  set (b1 := body_shift (move_to_vector (body_box b) (body_box a) DOWN) b).
  pose proof (subscript_lt _ _ _ Hi) as Hki. pose proof (subscript_lt _ _ _ Hj) as Hkj.
  assert (<[ki := a1]> l !! kj = Some b) as Hz by (by rewrite list_lookup_insert_ne).
  eapply returns_bind;
    [exact (MArray_visual_swap_returns l en i j ki kj a b b Hi Hj Ha Hb Hz)|].
  intros ?. fold a1 b1.
  rewrite <- (insert_swap_collapse l ki kj b1 a1 (exchange en a1 b1) (exchange en b1 a1)).
  apply MArray_logic_swap_returns; rewrite ?length_insert; try done.
  - rewrite list_lookup_insert_ne by done. by apply list_lookup_insert_eq.
  - apply list_lookup_insert_eq. by rewrite length_insert.
Qed.

Lemma body_box_exchange (en : bool) (x y : MElement) :
  body_box (exchange en x y) = body_box x.
Proof. by destruct en. Qed.

Lemma index_exchange (x y : MElement) :
  index (exchange true x y) = index y.
Proof. done. Qed.

(** The element a second swap puts back: its body returns and, with
    indexing, so does its caption. *)
Lemma exchange_restores (en : bool) (e other1 other2 : MElement) (v w : Point3D) :
  vadd v w = ORIGIN →
  (en = true → index other2 = index e) →
  exchange en (body_shift w (exchange en (body_shift v e) other1)) other2 = e.
Proof.
  intros Hvw Hidx. destruct en; simpl.
  - specialize (Hidx eq_refl).
    destruct e as [u sq val idx]. unfold with_index, body_shift. simpl in *.
    by rewrite Hidx, Rectangle_shift_cancel, Text_shift_cancel.
  - by apply body_shift_cancel.
Qed.

Lemma returns_twice (m : M MCollection unit) (l l1 : list MElement) (en : bool)
    (c : MCollection) :
  returns (holds l en) m (λ _, holds l1 en) →
  returns (holds l1 en) m (λ _, holds l en) →
  holds l en c →
  ∃ c1 c2, m c = Ret tt c1 ∧ m c1 = Ret tt c2 ∧ elements c2 = l.
Proof.
  intros H1 H2 Hc.
  destruct (H1 c Hc) as ([] & c1 & Hrun1 & Hc1).
  destruct (H2 c1 Hc1) as ([] & c2 & Hrun2 & Hc2 & _).
  by exists c1, c2.
Qed.

Lemma MCollection_swap_twice (l : list MElement) (en : bool) (i j : Z)
    (ki kj : nat) (c : MCollection) :
  subscript (length l) i = Some ki → subscript (length l) j = Some kj →
  holds l en c →
  ∃ c1 c2, MCollection.swap i j c = Ret tt c1
           ∧ MCollection.swap i j c1 = Ret tt c2 ∧ elements c2 = l.
Proof.
  intros Hi Hj Hc.
  pose proof (subscript_lt _ _ _ Hi) as Hki. pose proof (subscript_lt _ _ _ Hj) as Hkj.
  destruct (lookup_lt_is_Some_2 l ki Hki) as [a Ha].
  destruct (lookup_lt_is_Some_2 l kj Hkj) as [b Hb].
  destruct (decide (ki = kj)) as [->|Hne].
  { eapply returns_twice; [| |done]; by eapply MCollection_swap_same. }
  set (a1 := MElement_shift (move_to_vector (MElement_box a) (MElement_box b) DOWN) a).
  set (b1 := MElement_shift (move_to_vector (MElement_box b) (MElement_box a) DOWN) b).
  set (l1 := <[kj := a1]> (<[ki := b1]> l)).
  assert (length l1 = length l) as Hlen by (unfold l1; by rewrite !length_insert).
  assert (l1 !! ki = Some b1) as Hb1.
  { unfold l1. rewrite list_lookup_insert_ne by done. by apply list_lookup_insert_eq. }
  assert (l1 !! kj = Some a1) as Ha1.
  { unfold l1. apply list_lookup_insert_eq. by rewrite length_insert. }
  eapply (returns_twice _ l l1); [by apply MCollection_swap_distinct| |done].
  pose proof (MCollection_swap_distinct l1 en i j ki kj b1 a1) as H2.
  rewrite Hlen in H2. specialize (H2 Hi Hj Hb1 Ha1 Hne).
  assert (MElement_shift (move_to_vector (MElement_box b1) (MElement_box a1) DOWN) b1 = b)
    as Hb_back.
  { unfold b1 at 2. apply MElement_shift_cancel. unfold move_to_vector, a1, b1.
    rewrite !MElement_box_shift, !get_critical_point_shift.
    apply swap_vectors_cancel. }
  assert (MElement_shift (move_to_vector (MElement_box a1) (MElement_box b1) DOWN) a1 = a)
    as Ha_back.
  { unfold a1 at 2. apply MElement_shift_cancel. unfold move_to_vector, a1, b1.
    rewrite !MElement_box_shift, !get_critical_point_shift.
    apply swap_vectors_cancel. }
  rewrite Hb_back, Ha_back in H2. unfold l1 in H2 at 2.
  rewrite insert_swap_collapse in H2.
  by rewrite (list_insert_id l ki a), (list_insert_id l kj b) in H2.
Qed.

Lemma MArray_swap_twice (l : list MElement) (en : bool) (i j : Z)
    (ki kj : nat) (c : MCollection) :
  subscript (length l) i = Some ki → subscript (length l) j = Some kj →
  (en = true → Forall (λ e, is_Some (index e)) l) →
  holds l en c →
  ∃ c1 c2, MArray.swap i j c = Ret tt c1
           ∧ MArray.swap i j c1 = Ret tt c2 ∧ elements c2 = l.
Proof.
  intros Hi Hj Hidx Hc.
  pose proof (subscript_lt _ _ _ Hi) as Hki. pose proof (subscript_lt _ _ _ Hj) as Hkj.
  destruct (lookup_lt_is_Some_2 l ki Hki) as [a Ha].
  destruct (lookup_lt_is_Some_2 l kj Hkj) as [b Hb].
  assert (en = true → is_Some (index a)) as Hia.
  { intros Hen. eapply (Forall_lookup_1 _ _ _ _ (Hidx Hen) Ha). }
  assert (en = true → is_Some (index b)) as Hib.
  { intros Hen. eapply (Forall_lookup_1 _ _ _ _ (Hidx Hen) Hb). }
  destruct (decide (ki = kj)) as [->|Hne].
  { eapply returns_twice; [| |done]; by eapply MArray_swap_same. }
  set (a1 := body_shift (move_to_vector (body_box a) (body_box b) DOWN) a).
  set (b1 := body_shift (move_to_vector (body_box b) (body_box a) DOWN) b).
  set (l1 := <[kj := exchange en a1 b1]> (<[ki := exchange en b1 a1]> l)).
  assert (length l1 = length l) as Hlen by (unfold l1; by rewrite !length_insert).
  assert (l1 !! ki = Some (exchange en b1 a1)) as Hb1.
  { unfold l1. rewrite list_lookup_insert_ne by done. by apply list_lookup_insert_eq. }
  assert (l1 !! kj = Some (exchange en a1 b1)) as Ha1.
  { unfold l1. apply list_lookup_insert_eq. by rewrite length_insert. }
  eapply (returns_twice _ l l1); [by apply MArray_swap_distinct; auto| |done].
  pose proof (MArray_swap_distinct l1 en i j ki kj (exchange en b1 a1)
                (exchange en a1 b1)) as H2.
  rewrite Hlen in H2. specialize (H2 Hi Hj Hb1 Ha1 Hne).
  rewrite !body_box_exchange in H2.
  assert (exchange en
            (body_shift (move_to_vector (body_box b1) (body_box a1) DOWN)
               (exchange en b1 a1))
            (body_shift (move_to_vector (body_box a1) (body_box b1) DOWN)
               (exchange en a1 b1)) = b) as Hb_back.
  { unfold b1 at 2. apply exchange_restores.
    - unfold move_to_vector, a1, b1.
      rewrite !body_box_shift, !get_critical_point_shift.
      apply swap_vectors_cancel.
    - by intros ->. }
  assert (exchange en
            (body_shift (move_to_vector (body_box a1) (body_box b1) DOWN)
               (exchange en a1 b1))
            (body_shift (move_to_vector (body_box b1) (body_box a1) DOWN)
               (exchange en b1 a1)) = a) as Ha_back.
  { unfold a1 at 2. apply exchange_restores.
    - unfold move_to_vector, a1, b1.
      rewrite !body_box_shift, !get_critical_point_shift.
      apply swap_vectors_cancel.
    - by intros ->. }
  rewrite Hb_back, Ha_back in H2. unfold l1 in H2 at 2.
  rewrite insert_swap_collapse in H2.
  rewrite (list_insert_id l ki a), (list_insert_id l kj b) in H2 by done.
  apply H2. intros ->. split.
  - destruct (Hia eq_refl) as [t Ht]. by exists t.
  - destruct (Hib eq_refl) as [t Ht]. by exists t.
Qed.

(** ** Arrays with indexing keep their captions *)

Section Captioned.

Variable text_extent : string → Qc → Qc * Qc.

Lemma captioned_elements (c : MCollection) (l : list MElement) :
  (Forall (λ e, is_Some (index e)) (elements c) → Forall (λ e, is_Some (index e)) l) →
  captioned c → captioned (set_elements l c).
Proof.
  intros Hl Hc Hen. destruct (Hc Hen) as (Hh & Hd & Hall).
  split_and!; try done. by apply Hl.
Qed.

Lemma captioned_update_item (c : MCollection) (i : Z) (f : MElement → MElement) :
  (∀ e, is_Some (index e) → is_Some (index (f e))) →
  captioned c → captioned (state_of (update_item i f c)).
Proof.
  intros Hf Hc. rewrite update_item_run.
  destruct (subscript (length (elements c)) i) as [k|]; [|done].
  simpl. apply captioned_elements; [|done]. intros Hall.
  apply Forall_alter; [done|]. intros e _. apply Hf.
Qed.

Lemma is_Some_index_shift (v : Point3D) (e : MElement) :
  is_Some (index e) → is_Some (index (MElement_shift v e)).
Proof. intros [t Ht]. simpl. rewrite Ht. by eexists. Qed.

Lemma captioned_pop (c : MCollection) (index : Z) :
  captioned c → captioned (state_of (MCollection.pop index c)).
Proof.
  intros Hc. destruct (elements c) as [|e0 l0] eqn:Hel.
  { by rewrite pop_run_empty. }
  destruct (subscript (length (elements c)) index) as [k|] eqn:Hk.
  2: { rewrite pop_run_outside; [done|by rewrite Hel|done]. }
  destruct (lookup_lt_is_Some_2 (elements c) k) as [e He];
    [by eapply subscript_lt|].
  rewrite (pop_run c index k e Hk He). simpl.
  apply (captioned_elements (set_submobjects _ c)); [|done].
  simpl. intros Hall. unfold shift_slice. apply Forall_app. split.
  - by apply Forall_take, Forall_delete.
  - apply Forall_fmap, Forall_drop, Forall_delete.
    eapply Forall_impl; [done|]. intros x. apply is_Some_index_shift.
Qed.

Lemma captioned_set_index_loop (positions : list Z) (old_index : Text)
    (c : MCollection) :
  captioned c → captioned (state_of (MArray._set_index_loop positions old_index c)).
Proof.
  revert old_index c. induction positions as [|i rest IH]; intros old_index c Hc;
    [done|].
  simpl. unfold bind at 1. rewrite item_run.
  destruct (getitem (elements c) i) as [curr|]; [|done].
  unfold bind at 1, lookup_or.
  destruct (index curr) as [curr_index|]; [|done].
  unfold ret at 1. unfold bind at 1.
  pose proof (captioned_update_item c i
    (with_index (Some (Text_move_to old_index (Text_box curr_index))))
    (λ _ _, ltac:(by eexists)) Hc) as Hs.
  destruct (update_item i _ c) as [[] c1|ex c1]; simpl in Hs; [|done].
  by apply IH.
Qed.

Lemma captioned_MArray_pop (c : MCollection) (index : Z) :
  captioned c → captioned (state_of (MArray.pop index c)).
Proof.
  intros Hc. unfold MArray.pop. unfold bind at 1, get.
  case_decide; [|done].
  unfold bind at 1. rewrite item_run.
  destruct (getitem (elements c) index) as [popped_element|]; [|done].
  unfold bind at 1.
  pose proof (captioned_pop c index Hc) as Hs.
  destruct (MCollection.pop index c) as [[] c1|ex c1]; simpl in Hs; [|done].
  unfold bind at 1, get.
  destruct (_index_enabled c1); [|done].
  unfold bind at 1, lookup_or.
  destruct (Collection.index popped_element) as [popped_index|]; [|done].
  unfold ret at 1. by apply captioned_set_index_loop.
Qed.

Lemma captioned_add_indexes (c : MCollection) (direction : Point3D) (buff : Qc) :
  captioned c →
  captioned (state_of (MArray.add_indexes text_extent direction buff c)).
Proof.
  intros Hc. unfold MArray.add_indexes. run_monad.
  destruct (_index_enabled c) eqn:Hen; [done|].
  destruct (array_equal _ _); [done|].
  simpl. intros _. simpl. split_and!; try by eexists.
  apply Forall_lookup. intros k e. rewrite list_lookup_imap.
  destruct (elements c !! k); [|done]. simpl. intros [= <-]. by eexists.
Qed.

Lemma get_index_buff_run (c : MCollection) (t : Text) :
  index (_hidden_element c) = Some t → ∃ q, MArray._get_index_buff c = Ret q c.
Proof.
  intros Ht. unfold MArray._get_index_buff. run_monad. rewrite Ht.
  destruct (_ || _); by eexists.
Qed.

(** [MArray.append] on an array with its captions: no step raises, and the
    new element gets its caption. *)
Lemma captioned_MArray_append (c : MCollection) (value : Py.value) :
  captioned c → captioned (state_of (MArray.append text_extent value c)).
Proof.
  intros Hc. unfold MArray.append. unfold bind at 1.
  assert (∃ s, MArray._update_style c = Ret tt (set_style s c)) as [s ->].
  { unfold MArray._update_style, MCollection._update_style. run_monad. simpl.
    destruct (_index_enabled c) eqn:Hen; [|by eexists].
    destruct (Hc Hen) as ([t ->] & _). by eexists. }
  rewrite <- bind_assoc.
  destruct (append_new_run text_extent (set_style s c) value) as (e & He & Hrun).
  rewrite (bind_run _ _ _ _ _ Hrun).
  match goal with |- context [bind get _ ?s] => set (c2 := s) in * end.
  unfold bind at 1, get.
  destruct (_index_enabled c2) eqn:Hen; [|by intros ?; simpl in *; congruence].
  destruct (Hc Hen) as ([t Ht] & [d Hd] & Hall).
  assert (_index_dir c2 = Some d) as Hd2 by done.
  destruct (get_index_buff_run c2 t Ht) as [q Hq].
  rewrite (bind_run _ _ _ _ _ Hq).
  unfold bind at 1, lookup_or. rewrite Hd2. unfold ret at 1.
  rewrite update_item_run.
  assert (subscript (length (elements c2)) (-1) = Some (length (elements c)))
    as ->.
  { unfold c2. simpl. rewrite length_app. simpl.
    rewrite subscript_negative by lia. f_equal. lia. }
  simpl. intros _. split_and!; try (by eexists).
  rewrite alter_app_r_alt, Nat.sub_diag by done. simpl.
  apply Forall_app. split; [done|]. apply Forall_singleton. by eexists.
Qed.

Lemma flag_update_item (c : MCollection) (i : Z) (f : MElement → MElement) :
  _index_enabled (state_of (update_item i f c)) = _index_enabled c.
Proof.
  rewrite update_item_run. by destruct (subscript (length (elements c)) i).
Qed.

(** [MArray.append] does not switch indexing on. *)
Lemma flag_MArray_append (c : MCollection) (value : Py.value) :
  _index_enabled c = false →
  _index_enabled (state_of (MArray.append text_extent value c)) = false.
Proof.
  intros Hc. unfold MArray.append. unfold bind at 1.
  assert (∃ s, MArray._update_style c = Ret tt (set_style s c)) as [s ->].
  { unfold MArray._update_style, MCollection._update_style. run_monad. simpl.
    rewrite Hc. by eexists. }
  rewrite <- bind_assoc.
  destruct (append_new_run text_extent (set_style s c) value) as (e & He & Hrun).
  rewrite (bind_run _ _ _ _ _ Hrun).
  unfold bind at 1, get. simpl. by rewrite Hc.
Qed.

Lemma flag_MArray_new (arr : list Py.value) (direction : Point3D) (style : Style) :
  _index_enabled (MArray.new text_extent arr direction style) = false.
Proof.
  unfold MArray.new, MArray.__init__.
  rewrite (bind_run _ _ _ _ _ (modify_run _ _)).
  apply (state_of_bind (λ c, _index_enabled c = false)).
  - unfold MCollection.__init__.
    rewrite (bind_run _ _ _ _ _ (modify_run _ _)).
    apply (state_of_bind (λ c, _index_enabled c = false)).
    + apply (for_each_preserves (λ c, _index_enabled c = false)); [|done].
      intros value c. apply flag_MArray_append.
    + by intros _ c1 Hc1.
  - intros _ c Hc. run_monad. done.
Qed.

(** X3. Every array built by the constructor and then by calls of [append],
    [pop] and [add_indexes], whatever their arguments and whether they return
    or raise, has its captions: when indexing is on, the hidden element and
    every element of the list hold an index caption. *)
Lemma captioned_run_script (arr : list Py.value) (direction : Point3D) (style : Style)
    (script : list ArrayCall) :
  captioned
    (run_script (array_call text_extent) script
       (MArray.new text_extent arr direction style)).
Proof.
  assert (captioned (MArray.new text_extent arr direction style)) as Hnew.
  { intros Hen. by rewrite flag_MArray_new in Hen. }
  revert Hnew. generalize (MArray.new text_extent arr direction style).
  induction script as [|call rest IH]; intros c Hc; [done|].
  simpl. apply IH. destruct call as [value|index|dir b]; simpl.
  - by apply captioned_MArray_append.
  - by apply captioned_MArray_pop.
  - by apply captioned_add_indexes.
Qed.

End Captioned.

(** ** C6: swap is an involution *)

(** C6. For every collection and every two positions its list accepts,
    [swap(i, j)] returns, a second [swap(i, j)] returns too, and the element
    list is then the one before the first swap: the same elements in the same
    order, each with its square, its value and its index caption where they
    were. This holds for [MCollection.swap] (a stack) and, on an array whose
    elements have their captions when indexing is on (as every array built
    through the interface has: [captioned_run_script]), for the swap of
    [MArray]. *)
Theorem swap_twice_restores (c : MCollection) (i j : Z) :
  is_Some (subscript (length (elements c)) i) →
  is_Some (subscript (length (elements c)) j) →
  (∃ c1 c2, MCollection.swap i j c = Ret tt c1
            ∧ MCollection.swap i j c1 = Ret tt c2
            ∧ elements c2 = elements c)
  ∧ ((_index_enabled c = true → Forall (λ e, is_Some (index e)) (elements c)) →
     ∃ c1 c2, MArray.swap i j c = Ret tt c1
              ∧ MArray.swap i j c1 = Ret tt c2
              ∧ elements c2 = elements c).
Proof.
  intros [ki Hi] [kj Hj]. split.
  - by apply (MCollection_swap_twice _ (_index_enabled c) i j ki kj).
  - intros Hidx. by apply (MArray_swap_twice _ (_index_enabled c) i j ki kj).
Qed.

Lemma swap_twice_restores_witness :
  (∃ c1 c2, MCollection.swap 0 (-1) sample_stack = Ret tt c1
            ∧ MCollection.swap 0 (-1) c1 = Ret tt c2
            ∧ elements c2 = elements sample_stack)
  ∧ (∃ c1 c2, MArray.swap 0 (-1) sample_indexed = Ret tt c1
              ∧ MArray.swap 0 (-1) c1 = Ret tt c2
              ∧ elements c2 = elements sample_indexed).
Proof.
  split.
  - apply (swap_twice_restores sample_stack 0 (-1)).
    + vm_compute. eexists. reflexivity.
    + vm_compute. eexists. reflexivity.
  - apply (swap_twice_restores sample_indexed 0 (-1)).
    + vm_compute. eexists. reflexivity.
    + vm_compute. eexists. reflexivity.
    + intros _. apply (bool_decide_unpack _). vm_compute. exact I.
Defined.

(** ** Removal at a position counted from the front *)

Lemma slice_start_nonneg (n : nat) (i : Z) :
  0 ≤ i ≤ Z.of_nat n → slice_start n i = Z.to_nat i.
Proof. intros H. unfold slice_start. rewrite decide_False by lia. f_equal. lia. Qed.

Lemma take_delete_same {A} (k : nat) (l : list A) :
  take k (delete k l) = take k l.
Proof.
  revert k. induction l as [|x l IH]; intros [|k]; simpl; try done.
  by rewrite IH.
Qed.

Lemma drop_delete_same {A} (k : nat) (l : list A) :
  drop k (delete k l) = drop (S k) l.
Proof.
  revert k. induction l as [|x l IH]; intros [|k]; simpl; done.
Qed.

(** X1. [pop(index)] with [0 <= index < len]: the elements before [index] stay,
    the removed one goes, and every later one is moved back by the width of
    the removed square along the growth direction. *)
Lemma pop_nonnegative_repacks (c : MCollection) (index : Z) (e : MElement) :
  0 ≤ index → elements c !! Z.to_nat index = Some e →
  ∃ c', MCollection.pop index c = Ret tt c'
        ∧ elements c'
          = take (Z.to_nat index) (elements c)
            ++ (MElement_shift (vneg (vscale (width (square e)) (_dir c)))
                  <$> drop (S (Z.to_nat index)) (elements c)).
Proof.
  intros Hi He. pose proof (lookup_lt_Some _ _ _ He) as Hlt.
  eexists. split.
  - apply (pop_run c index (Z.to_nat index) e); [|done].
    apply subscript_nonneg. lia.
  - simpl. unfold shift_slice.
    rewrite slice_start_nonneg.
    + by rewrite take_delete_same, drop_delete_same.
    + rewrite length_delete by eauto. lia.
Qed.

(** ** The captions after a removal counted from the front *)

Lemma captions_alter_index (t : Text) (k : nat) (l : list MElement) :
  captions (alter (with_index (Some t)) k l)
  = alter (λ _, Some (text t)) k (captions l).
Proof.
  unfold captions. apply list_eq. intros m.
  rewrite list_lookup_fmap.
  destruct (decide (m = k)) as [->|Hne].
  - rewrite !list_lookup_alter_eq, list_lookup_fmap.
    by destruct (l !! k).
  - by rewrite !list_lookup_alter_ne, list_lookup_fmap by done.
Qed.

Lemma captions_shift (v : Point3D) (l : list MElement) :
  captions (MElement_shift v <$> l) = captions l.
Proof.
  unfold captions. rewrite <- list_fmap_compose. apply list_fmap_ext.
  intros _ e _. simpl. by destruct (index e).
Qed.

Lemma captions_shift_slice (i : Z) (v : Point3D) (l : list MElement) :
  captions (shift_slice i v l) = captions l.
Proof.
  unfold shift_slice. generalize (slice_start (length l) i). intros k.
  transitivity (captions (take k l ++ drop k l)); [|by rewrite take_drop].
  unfold captions. rewrite !fmap_app. f_equal. apply captions_shift.
Qed.

Lemma captions_delete (k : nat) (l : list MElement) :
  captions (delete k l) = delete k (captions l).
Proof. unfold captions. by rewrite list_fmap_delete. Qed.

(** The loop of [_set_index_from] over the positions [a, a+1, ..., a+len-1]:
    the caption handed in goes to position [a] and every caption met moves
    one position on. *)
Lemma set_index_loop_run (len a : nat) (old_index : Text) (c : MCollection) :
  (a + len ≤ length (elements c))%nat →
  Forall (λ e, is_Some (index e)) (elements c) →
  ∃ c', MArray._set_index_loop (seqZ (Z.of_nat a) (Z.of_nat len)) old_index c
        = Ret tt c'
        ∧ _index_enabled c' = _index_enabled c
        ∧ captions (elements c')
          = take a (captions (elements c))
            ++ take len (Some (text old_index) :: drop a (captions (elements c)))
            ++ drop (a + len) (captions (elements c)).
Proof.
  revert a old_index c.
  induction len as [|len IH]; intros a old_index c Hlen Hall.
  - exists c. split_and!; try done.
    simpl. by rewrite Nat.add_0_r, take_drop.
  - rewrite Nat2Z.inj_succ, seqZ_cons by lia. simpl.
    assert (subscript (length (elements c)) (Z.of_nat a) = Some a) as Hk.
    { rewrite subscript_nonneg by lia. f_equal. lia. }
    destruct (lookup_lt_is_Some_2 (elements c) a) as [curr Hcurr]; [lia|].
    destruct (proj1 (Forall_lookup _ _) Hall a curr Hcurr) as [curr_index Hci].
    unfold bind at 1. rewrite item_run, (getitem_lookup _ _ _ Hk), Hcurr.
    unfold bind at 1, lookup_or. rewrite Hci. unfold ret at 1.
    unfold bind at 1. rewrite update_item_run, Hk.
    set (t := Text_move_to old_index (Text_box curr_index)).
    set (c1 := set_elements _ c).
    destruct (IH (S a) curr_index c1) as (c' & Hrun & Hen & Hcap).
    { unfold c1. simpl. rewrite length_alter. lia. }
    { unfold c1. simpl. apply Forall_alter; [done|]. intros ? _. by eexists. }
    exists c'. split_and!.
    + rewrite <- Hrun.
      by replace (Z.succ (Z.of_nat a)) with (Z.of_nat (S a)) by lia;
         replace (Z.pred (Z.succ (Z.of_nat len))) with (Z.of_nat len) by lia.
    + done.
    + rewrite Hcap. unfold c1. simpl. rewrite captions_alter_index.
      assert (captions (elements c) !! a = Some (Some (text curr_index))) as Hca.
      { unfold captions. by rewrite list_lookup_fmap, Hcurr; simpl; rewrite Hci. }
      assert (a < length (captions (elements c)))%nat as Hla
        by (by eapply lookup_lt_Some).
      rewrite (take_S_r _ a (Some (text old_index))), <- app_assoc.
      2:{ by rewrite list_lookup_alter_eq, Hca. }
      rewrite take_alter, decide_False by lia. f_equal. simpl. f_equal.
      rewrite !drop_alter_lt by lia.
      rewrite (drop_S _ _ _ Hca). by rewrite Nat.add_succ_r.
Qed.

(** X2. [MArray.pop(index)] with [0 <= index < len] on an array with indexing:
    the call returns and the caption texts are the ones before, in the same
    positions, with the last one gone. *)
Lemma MArray_pop_nonnegative_captions (c : MCollection) (index : Z) :
  0 ≤ index < Z.of_nat (length (elements c)) →
  _index_enabled c = true →
  Forall (λ e, is_Some (Collection.index e)) (elements c) →
  ∃ c', MArray.pop index c = Ret tt c'
        ∧ captions (elements c')
          = take (length (elements c) - 1) (captions (elements c)).
Proof.
  intros Hi Hen Hall.
  set (k := Z.to_nat index).
  assert (subscript (length (elements c)) index = Some k) as Hk
    by (by apply subscript_nonneg).
  destruct (lookup_lt_is_Some_2 (elements c) k) as [e He]; [lia|].
  destruct (proj1 (Forall_lookup _ _) Hall k e He) as [popped_index Hpi].
  unfold MArray.pop. unfold bind at 1, get.
  rewrite decide_True by lia.
  unfold bind at 1. rewrite item_run, (getitem_lookup _ _ _ Hk), He.
  unfold bind at 1. rewrite (pop_run c index k e Hk He).
  set (c1 := set_elements _ _).
  unfold bind at 1, get.
  assert (_index_enabled c1 = true) as -> by done.
  unfold bind at 1, lookup_or. rewrite Hpi. unfold ret at 1.
  assert (length (elements c1) = (length (elements c) - 1)%nat) as Hlen1.
  { unfold c1. simpl. unfold shift_slice.
    rewrite length_app, length_fmap, <- length_app, take_drop.
    rewrite length_delete by eauto. lia. }
  assert (captions (elements c1) = delete k (captions (elements c))) as Hcap1.
  { unfold c1. simpl. by rewrite captions_shift_slice, captions_delete. }
  destruct (set_index_loop_run (length (elements c) - 1 - k) k popped_index c1)
    as (c' & Hrun & _ & Hcap).
  { lia. }
  { unfold c1. simpl. unfold shift_slice. apply Forall_app. split.
    - apply Forall_take. by apply Forall_delete.
    - apply Forall_fmap. apply Forall_drop. apply Forall_delete.
      eapply Forall_impl; [done|]. intros x [t Ht]. simpl. rewrite Ht. by eexists. }
  exists c'. split.
  - rewrite <- Hrun. unfold MArray._set_index_from, range. f_equal.
    rewrite Hlen1. f_equal; lia.
  - rewrite Hcap, Hcap1.
    assert (captions (elements c) !! k = Some (Some (text popped_index))) as Hck.
    { unfold captions. by rewrite list_lookup_fmap, He; simpl; rewrite Hpi. }
    rewrite take_delete_same, drop_delete_same, <- (drop_S _ _ _ Hck).
    assert (length (delete k (captions (elements c)))
            = (length (elements c) - 1)%nat) as Hld.
    { rewrite length_delete by eauto. unfold captions. by rewrite length_fmap. }
    rewrite (drop_ge (delete _ _)) by lia.
    rewrite app_nil_r, take_take_drop. f_equal. lia.
Qed.

(** ** C4 and C5: pop with the default index *)

(** C4, at the failing input. [MArray([1, 2, 3]).pop()] returns; the squares
    were centred at x = -1, 0 and 1, and the square of the element at
    position 1, which is before the removed position 2, is moved back by one
    width onto the square of position 0. [MStack([1, 2, 3]).pop()], which
    passes the last position itself, leaves the two remaining squares where
    they were. *)
Lemma pop_default_moves_last_remaining :
  raised (MArray.pop (-1) sample_array) = None
  ∧ center ∘ square <$> elements sample_array
    = [Point (-1) 0 0; Point 0 0 0; Point 1 0 0]
  ∧ center ∘ square <$> elements (state_of (MArray.pop (-1) sample_array))
    = [Point (-1) 0 0; Point (-1) 0 0]
  ∧ raised (MStack.pop sample_stack) = None
  ∧ center ∘ square <$> elements (state_of (MStack.pop sample_stack))
    = take 2 (center ∘ square <$> elements sample_stack).
Proof.
  split_and!; try (vm_compute; reflexivity);
    apply (bool_decide_unpack _); vm_compute; exact I.
Qed.

(** C5, at the failing input. [MArray([1, 2, 3]).add_indexes().pop()]
    returns; the captions were "0", "1", "2" and the two remaining ones are
    "1" at position 0 and "0" at position 1. On an indexed array of one
    element the same call raises IndexError after removing the element. *)
Lemma pop_default_captions :
  raised (MArray.pop (-1) sample_indexed) = None
  ∧ captions (elements sample_indexed) = [Some "0"; Some "1"; Some "2"]
  ∧ captions (elements (state_of (MArray.pop (-1) sample_indexed)))
    = [Some "1"; Some "0"]
  ∧ raised
      (MArray.pop (-1)
         (state_of
            (MArray.add_indexes sample_extent UP DEFAULT_MOBJECT_TO_MOBJECT_BUFFER
               (MArray.new sample_extent [PyInt 1] RIGHT DEFAULT))))
    = Some IndexError.
Proof. vm_compute. done. Qed.

(** * Further properties of the collections *)

(** ** pop: what it removes, when it raises *)

Lemma pop_nonnegative_repacks_witness :
  ∃ e c', elements sample_array !! 1%nat = Some e
          ∧ MCollection.pop 1 sample_array = Ret tt c'
          ∧ elements c'
            = take 1 (elements sample_array)
              ++ (MElement_shift (vneg (vscale (width (square e)) (_dir sample_array)))
                    <$> drop 2 (elements sample_array)).
Proof.
  assert (is_Some (elements sample_array !! 1%nat)) as [e He]
    by (vm_compute; eexists; reflexivity).
  exists e.
  destruct (pop_nonnegative_repacks sample_array 1 e) as (c' & Hrun & Hel).
  - lia.
  - exact He.
  - exists c'. split; [exact He|]. split; [exact Hrun|exact Hel].
Defined.

Lemma MArray_pop_nonnegative_captions_witness :
  ∃ c', MArray.pop 0 sample_indexed = Ret tt c'
        ∧ captions (elements c')
          = take (length (elements sample_indexed) - 1)
              (captions (elements sample_indexed)).
Proof.
  apply (MArray_pop_nonnegative_captions sample_indexed 0).
  - vm_compute. split; [discriminate|reflexivity].
  - reflexivity.
  - apply (bool_decide_unpack _). vm_compute. exact I.
Defined.

Lemma slice_start_length (n : nat) : slice_start n (Z.of_nat n) = n.
Proof. unfold slice_start. rewrite decide_False by lia. lia. Qed.

(** [MStack.pop] on a list that is not empty: the last position is the one
    [MCollection.pop] is given, and the slice it shifts is empty. *)
Lemma MStack_pop_run (c : MCollection) (e : MElement) :
  last (elements c) = Some e →
  MStack.pop c
  = Ret tt
      (set_elements (take (length (elements c) - 1) (elements c))
         (set_submobjects (Mobject.remove (Element (uid e)) (submobjects c)) c)).
Proof.
  intros He. rewrite last_lookup in He.
  pose proof (lookup_lt_Some _ _ _ He) as Hlt.
  unfold MStack.pop. unfold bind at 1, get.
  rewrite (pop_run c _ (pred (length (elements c))) e); [|
    rewrite subscript_nonneg by lia; f_equal; lia | done].
  do 2 f_equal. unfold shift_slice.
  assert (length (delete (pred (length (elements c))) (elements c))
          = pred (length (elements c))) as Hlen.
  { rewrite length_delete by eauto. lia. }
  replace (Z.of_nat (length (elements c)) - 1)
    with (Z.of_nat (length (delete (pred (length (elements c))) (elements c))))
    by lia.
  rewrite slice_start_length, Hlen.
  rewrite take_delete_same, drop_delete_same, drop_ge, app_nil_r by lia.
  f_equal. lia.
Qed.

(** X4. [MStack.pop] never raises. On an empty stack it changes nothing;
    otherwise it removes the last element of the list, detaches its visual
    from the group, and leaves every other element as it was (no element is
    moved). *)
Theorem MStack_pop_removes_top (c : MCollection) :
  ∃ c', MStack.pop c = Ret tt c'
        ∧ elements c' = take (length (elements c) - 1) (elements c)
        ∧ submobjects c'
          = match last (elements c) with
            | Some e => Mobject.remove (Element (uid e)) (submobjects c)
            | None => submobjects c
            end.
Proof.
  destruct (last (elements c)) as [e|] eqn:He.
  - eexists. split; [by apply MStack_pop_run|]. done.
  - apply last_None in He. exists c. split.
    + unfold MStack.pop. unfold bind at 1, get. by apply pop_run_empty.
    + by rewrite He.
Qed.

(** X5. On a stack whose list and group are in step, [append] followed by
    [pop] returns twice and gives back the element list and the children of
    the group as they were. *)
Theorem MStack_append_pop (text_extent : string → Qc → Qc * Qc) (c : MCollection)
    (value : Py.value) :
  synced c →
  ∃ c1 c2, MStack.append text_extent value c = Ret tt c1
           ∧ MStack.pop c1 = Ret tt c2
           ∧ elements c2 = elements c
           ∧ submobjects c2 = submobjects c.
Proof.
  intros (Hnd & Hperm & Hlt).
  unfold MStack.append, MCollection.append, MCollection._update_style.
  rewrite (bind_run _ _ _ _ _ (modify_run _ _)).
  match goal with |- context [bind _ _ ?s] =>
    destruct (append_new_run text_extent s value) as (e & He & ->)
  end.
  eexists _, _. split; [reflexivity|].
  split.
  { apply MStack_pop_run. simpl. apply last_snoc. }
  simpl. rewrite length_app. simpl.
  replace (length (elements c) + 1 - 1)%nat with (length (elements c)) by lia.
  split; [by rewrite take_app_length|].
  assert (Element (uid e) ∉ submobjects c) as Hfresh.
  { intros Hin. rewrite He in Hin.
    assert (next_uid c ∈ attached_elements c) as Hin'.
    { apply list_elem_of_omap. by exists (Element (next_uid c)). }
    rewrite Hperm in Hin'. rewrite Forall_forall in Hlt. apply Hlt in Hin'. lia. }
  unfold Mobject.add. rewrite filter_ne_id by done.
  clear -Hfresh. induction (submobjects c) as [|x l IH]; simpl.
  - by rewrite decide_True.
  - apply not_elem_of_cons in Hfresh as [Hne Hl].
    rewrite decide_False by done. f_equal. by apply IH.
Qed.

Lemma MStack_append_pop_witness :
  ∃ c1 c2, MStack.append sample_extent (PyInt 7) sample_stack = Ret tt c1
           ∧ MStack.pop c1 = Ret tt c2
           ∧ elements c2 = elements sample_stack
           ∧ submobjects c2 = submobjects sample_stack.
Proof.
  apply (MStack_append_pop sample_extent sample_stack (PyInt 7)).
  apply synced_MStack_new.
Defined.

(** X6. [MCollection.pop] and [MArray.pop] on an empty list return and change
    nothing, whatever the index. On a list of [n > 0] elements, an index
    outside [-n, n) raises IndexError and leaves the object as it was; an
    index inside makes [MCollection.pop] return with one element less. *)
Theorem pop_raises_outside (c : MCollection) (index : Z) :
  let n := length (elements c) in
  (n = 0%nat
   ∧ MCollection.pop index c = Ret tt c ∧ MArray.pop index c = Ret tt c)
  ∨ (n ≠ 0%nat ∧ ¬ (- Z.of_nat n ≤ index < Z.of_nat n)
     ∧ MCollection.pop index c = Exc IndexError c
     ∧ MArray.pop index c = Exc IndexError c)
  ∨ (n ≠ 0%nat ∧ - Z.of_nat n ≤ index < Z.of_nat n
     ∧ ∃ c', MCollection.pop index c = Ret tt c'
             ∧ length (elements c') = (n - 1)%nat).
Proof.
  intros n. destruct (decide (n = 0%nat)) as [Hn|Hn].
  { left. split; [done|]. apply length_zero_iff_nil in Hn. split.
    - by apply pop_run_empty.
    - unfold MArray.pop. unfold bind at 1, get. by rewrite Hn. }
  right.
  destruct (subscript (length (elements c)) index) as [k|] eqn:Hk.
  - right. split; [done|]. split; [by apply subscript_is_Some|].
    destruct (lookup_lt_is_Some_2 (elements c) k) as [e He];
      [by eapply subscript_lt|].
    eexists. split; [by apply (pop_run c index k e)|].
    simpl. unfold shift_slice.
    rewrite length_app, length_fmap, <- length_app, take_drop.
    rewrite length_delete by eauto. done.
  - left. split; [done|]. split.
    { intros Hin. apply subscript_is_Some in Hin. unfold n in Hin.
      rewrite Hk in Hin. by destruct Hin. }
    assert (elements c ≠ []) as Hne by (by intros ?%length_zero_iff_nil).
    split; [by apply pop_run_outside|].
    unfold MArray.pop. unfold bind at 1, get. rewrite decide_True by done.
    unfold bind at 1. rewrite item_run.
    by rewrite (proj2 (subscript_getitem _ _) Hk).
Qed.

(** ** append: what it adds and where *)

Section Append.

Variable text_extent : string → Qc → Qc * Qc.

Lemma next_to_lands (a t b : Point3D) : vadd a (vadd (vsub t a) b) = vadd t b.
Proof. vec_ring. Qed.

Lemma move_to_lands (a t : Point3D) : vadd a (vsub t a) = t.
Proof. vec_ring. Qed.

(** [new_element] followed by [_append_helper], with what the new element
    holds and where it is put. *)
Lemma append_placed_run (c : MCollection) (v : Py.value) :
  ∃ e, (new_elem <- MCollection.new_element text_extent v ;;
        MCollection._append_helper new_elem) c
       = Ret tt
           (set_submobjects (Mobject.add (Element (uid e)) (submobjects c))
              (set_elements (elements c ++ [e]) (set_next_uid (S (next_uid c)) c)))
       ∧ uid e = next_uid c
       ∧ text (value e) = str v
       ∧ index e = None
       ∧ match last (elements c) with
         | Some previous =>
             get_critical_point (MElement_box e) (vneg (_dir c))
             = vadd (get_critical_point (Rectangle_box (square previous)) (_dir c))
                    (vscale (margin c) (_dir c))
         | None =>
             get_center (MElement_box e)
             = get_center (Rectangle_box (square (_hidden_element c)))
         end.
Proof.
  unfold MCollection.new_element, MCollection._append_helper. run_monad. simpl.
  eexists. split; [reflexivity|].
  destruct (last (elements c)) as [previous|]; simpl; split_and!; try done.
  - rewrite MElement_box_shift, get_critical_point_shift.
    apply next_to_lands.
  - unfold get_center. rewrite MElement_box_shift, get_critical_point_shift.
    apply move_to_lands.
Qed.

(** X7. [MCollection.append] always returns. The list grows by exactly one
    element, put at its end; the elements it had are not touched. The new
    element shows [str(value)], has no caption, and its visual is attached to
    the group. It is placed against the square of the element that was last
    (its side facing against the growth direction lies [margin] beyond the
    side of that square facing along it), or, in an empty collection, centred
    on the hidden element's square. *)
Theorem MCollection_append_extends (c : MCollection) (v : Py.value) :
  ∃ e c', MCollection.append text_extent v c = Ret tt c'
          ∧ elements c' = elements c ++ [e]
          ∧ submobjects c' = Mobject.add (Element (uid e)) (submobjects c)
          ∧ text (value e) = str v
          ∧ index e = None
          ∧ match last (elements c) with
            | Some previous =>
                get_critical_point (MElement_box e) (vneg (_dir c))
                = vadd (get_critical_point (Rectangle_box (square previous)) (_dir c))
                       (vscale (margin c) (_dir c))
            | None =>
                get_center (MElement_box e)
                = get_center (Rectangle_box (square (_hidden_element c)))
            end.
Proof.
  unfold MCollection.append, MCollection._update_style.
  rewrite (bind_run _ _ _ _ _ (modify_run _ _)).
  match goal with |- context [bind _ _ ?s] =>
    destruct (append_placed_run s v) as (e & -> & Hu & Ht & Hi & Hp)
  end.
  by eexists e, _.
Qed.

(** [MArray.append] on an array with its captions, step by step. *)
Lemma MArray_append_run (c : MCollection) (v : Py.value) :
  captioned c →
  ∃ e c', MArray.append text_extent v c = Ret tt c'
          ∧ elements c' = elements c ++ [e]
          ∧ submobjects c' = Mobject.add (Element (uid e)) (submobjects c)
          ∧ _index_enabled c' = _index_enabled c
          ∧ text (value e) = str v
          ∧ text <$> index e
            = if _index_enabled c
              then Some (str (PyInt (Z.of_nat (length (elements c)))))
              else None.
Proof.
  intros Hc. unfold MArray.append. unfold bind at 1.
  assert (∃ s, MArray._update_style c = Ret tt (set_style s c)) as [s ->].
  { unfold MArray._update_style, MCollection._update_style. run_monad. simpl.
    destruct (_index_enabled c) eqn:Hen; [|by eexists].
    destruct (Hc Hen) as ([t ->] & _). by eexists. }
  rewrite <- bind_assoc.
  destruct (append_placed_run (set_style s c) v) as (e & Hrun & Hu & Ht & Hi & _).
  rewrite (bind_run _ _ _ _ _ Hrun).
  match goal with |- context [bind get _ ?s] => set (c2 := s) in * end.
  unfold bind at 1, get.
  destruct (_index_enabled c) eqn:Hen.
  2: { assert (_index_enabled c2 = false) as -> by done.
       exists e, c2. split_and!; try done. by rewrite Hi. }
  assert (_index_enabled c2 = true) as -> by done.
  destruct (Hc Hen) as ([t Htx] & [d Hd] & Hall).
  assert (_index_dir c2 = Some d) as Hd2 by done.
  destruct (get_index_buff_run c2 t Htx) as [q Hq].
  rewrite (bind_run _ _ _ _ _ Hq).
  unfold bind at 1, lookup_or. rewrite Hd2. unfold ret at 1.
  rewrite update_item_run.
  assert (subscript (length (elements c2)) (-1) = Some (length (elements c)))
    as ->.
  { unfold c2. simpl. rewrite length_app. simpl.
    rewrite subscript_negative by lia. f_equal. lia. }
  eexists _, _. split; [reflexivity|]. simpl.
  rewrite alter_app_r_alt, Nat.sub_diag by done. simpl.
  split_and!; try done. simpl. do 2 f_equal.
  rewrite length_app. simpl. lia.
Qed.

(** X8. [MArray.append] on an array with its captions returns. The list grows
    by one element at its end and the others are not touched; the new element
    shows [str(value)] and, when indexing is on, its caption reads the
    position it was put at. *)
Theorem MArray_append_extends (c : MCollection) (v : Py.value) :
  captioned c →
  ∃ e c', MArray.append text_extent v c = Ret tt c'
          ∧ elements c' = elements c ++ [e]
          ∧ text (value e) = str v
          ∧ text <$> index e
            = if _index_enabled c
              then Some (str (PyInt (Z.of_nat (length (elements c)))))
              else None.
Proof.
  intros Hc.
  destruct (MArray_append_run c v Hc) as (e & c' & Hrun & Hel & _ & _ & Ht & Hi).
  by exists e, c'.
Qed.

End Append.

Lemma MArray_append_extends_witness :
  ∃ e c', MArray.append sample_extent (PyStr "x") sample_indexed = Ret tt c'
          ∧ elements c' = elements sample_indexed ++ [e]
          ∧ text (value e) = str (PyStr "x")
          ∧ text <$> index e
            = if _index_enabled sample_indexed
              then Some (str (PyInt (Z.of_nat (length (elements sample_indexed)))))
              else None.
Proof.
  apply (MArray_append_extends sample_extent sample_indexed (PyStr "x")).
  intros _. split_and!.
  - vm_compute. eexists. reflexivity.
  - vm_compute. eexists. reflexivity.
  - apply (bool_decide_unpack _). vm_compute. exact I.
Defined.

(** ** Captions number the positions *)

Lemma pretty_nat_Z (n : nat) : pretty n = pretty (Z.of_nat n).
Proof.
  destruct n as [|n]; [done|].
  unfold pretty at 1, pretty_nat. unfold pretty at 2, pretty_Z.
  rewrite Nat2Z.inj_succ.
  destruct (Z.succ (Z.of_nat n)) eqn:H; try lia.
  unfold pretty at 2, pretty_positive. f_equal. lia.
Qed.

Lemma flag_set_index_loop (positions : list Z) (old_index : Text) (c : MCollection) :
  _index_enabled (state_of (MArray._set_index_loop positions old_index c))
  = _index_enabled c.
Proof.
  revert old_index c. induction positions as [|i rest IH]; intros old_index c;
    [done|].
  simpl. unfold bind at 1. rewrite item_run.
  destruct (getitem (elements c) i) as [curr|]; [|done].
  unfold bind at 1, lookup_or.
  destruct (index curr) as [curr_index|]; [|done].
  unfold ret at 1. unfold bind at 1.
  pose proof (flag_update_item c i
    (with_index (Some (Text_move_to old_index (Text_box curr_index))))) as Hs.
  destruct (update_item i _ c) as [[] c1|ex c1]; simpl in Hs; [|done].
  by rewrite IH.
Qed.

Lemma flag_pop (c : MCollection) (index : Z) :
  _index_enabled (state_of (MCollection.pop index c)) = _index_enabled c.
Proof.
  destruct (elements c) as [|e0 l0] eqn:Hel.
  { by rewrite pop_run_empty. }
  destruct (subscript (length (elements c)) index) as [k|] eqn:Hk.
  2: { rewrite pop_run_outside; [done|by rewrite Hel|done]. }
  destruct (lookup_lt_is_Some_2 (elements c) k) as [e He];
    [by eapply subscript_lt|].
  by rewrite (pop_run c index k e Hk He).
Qed.

Lemma flag_MArray_pop (c : MCollection) (index : Z) :
  _index_enabled (state_of (MArray.pop index c)) = _index_enabled c.
Proof.
  unfold MArray.pop. unfold bind at 1, get.
  case_decide; [|done].
  unfold bind at 1. rewrite item_run.
  destruct (getitem (elements c) index) as [popped_element|]; [|done].
  unfold bind at 1.
  pose proof (flag_pop c index) as Hs.
  destruct (MCollection.pop index c) as [[] c1|ex c1]; simpl in Hs; [|done].
  unfold bind at 1, get.
  destruct (_index_enabled c1) eqn:Hen; [|by rewrite <- Hs].
  unfold bind at 1, lookup_or.
  destruct (Collection.index popped_element) as [popped_index|];
    [|by rewrite <- Hs].
  unfold ret at 1. unfold MArray._set_index_from.
  by rewrite flag_set_index_loop, <- Hs.
Qed.

(** [MArray.pop(index)] with [0 <= index < len] on an array with indexing
    and captions. *)
Lemma MArray_pop_front_run (c : MCollection) (index : Z) :
  0 ≤ index < Z.of_nat (length (elements c)) →
  _index_enabled c = true →
  Forall (λ e, is_Some (Collection.index e)) (elements c) →
  ∃ c', MArray.pop index c = Ret tt c'
        ∧ length (elements c') = (length (elements c) - 1)%nat
        ∧ captions (elements c')
          = take (length (elements c) - 1) (captions (elements c)).
Proof.
  intros Hi Hen Hall.
  set (k := Z.to_nat index).
  assert (subscript (length (elements c)) index = Some k) as Hk
    by (by apply subscript_nonneg).
  destruct (lookup_lt_is_Some_2 (elements c) k) as [e He]; [lia|].
  destruct (proj1 (Forall_lookup _ _) Hall k e He) as [popped_index Hpi].
  unfold MArray.pop. unfold bind at 1, get.
  rewrite decide_True by lia.
  unfold bind at 1. rewrite item_run, (getitem_lookup _ _ _ Hk), He.
  unfold bind at 1. rewrite (pop_run c index k e Hk He).
  set (c1 := set_elements _ _).
  unfold bind at 1, get.
  assert (_index_enabled c1 = true) as -> by done.
  unfold bind at 1, lookup_or. rewrite Hpi. unfold ret at 1.
  assert (length (elements c1) = (length (elements c) - 1)%nat) as Hlen1.
  { unfold c1. simpl. unfold shift_slice.
    rewrite length_app, length_fmap, <- length_app, take_drop.
    rewrite length_delete by eauto. lia. }
  assert (captions (elements c1) = delete k (captions (elements c))) as Hcap1.
  { unfold c1. simpl. by rewrite captions_shift_slice, captions_delete. }
  destruct (set_index_loop_run (length (elements c) - 1 - k) k popped_index c1)
    as (c' & Hrun & _ & Hcap).
  { lia. }
  { unfold c1. simpl. unfold shift_slice. apply Forall_app. split.
    - apply Forall_take. by apply Forall_delete.
    - apply Forall_fmap. apply Forall_drop. apply Forall_delete.
      eapply Forall_impl; [done|]. intros x [t Ht]. simpl. rewrite Ht. by eexists. }
  assert (captions (elements c')
          = take (length (elements c) - 1) (captions (elements c))) as Hfinal.
  { rewrite Hcap, Hcap1.
    assert (captions (elements c) !! k = Some (Some (text popped_index))) as Hck.
    { unfold captions. by rewrite list_lookup_fmap, He; simpl; rewrite Hpi. }
    rewrite take_delete_same, drop_delete_same, <- (drop_S _ _ _ Hck).
    assert (length (delete k (captions (elements c)))
            = (length (elements c) - 1)%nat) as Hld.
    { rewrite length_delete by eauto. unfold captions. by rewrite length_fmap. }
    rewrite (drop_ge (delete _ _)) by lia.
    rewrite app_nil_r, take_take_drop. f_equal. lia. }
  exists c'. split_and!.
  - rewrite <- Hrun. unfold MArray._set_index_from, range. f_equal.
    rewrite Hlen1. f_equal; lia.
  - apply (f_equal length) in Hfinal. unfold captions in Hfinal.
    rewrite length_take, !length_fmap in Hfinal. lia.
  - done.
Qed.

Section Numbered.

Variable text_extent : string → Qc → Qc * Qc.

Lemma numbered_MArray_append (c : MCollection) (v : Py.value) :
  captioned c → numbered c →
  numbered (state_of (MArray.append text_extent v c)).
Proof.
  intros Hc Hn.
  destruct (MArray_append_run text_extent c v Hc)
    as (e & c' & -> & Hel & _ & Hen & _ & Hi).
  simpl. intros Hen'. rewrite Hen in Hen'. rewrite Hen' in Hi.
  rewrite Hel, length_app. simpl. rewrite Nat.add_1_r, seq_S, fmap_app. simpl.
  unfold captions. rewrite fmap_app. simpl. rewrite Hi.
  f_equal. by apply Hn.
Qed.

Lemma numbered_MArray_pop (c : MCollection) (index : Z) :
  0 ≤ index → captioned c → numbered c →
  numbered (state_of (MArray.pop index c)).
Proof.
  intros Hi Hc Hn Hen'. rewrite flag_MArray_pop in Hen'.
  destruct (Hc Hen') as (_ & _ & Hall).
  destruct (decide (index < Z.of_nat (length (elements c)))) as [Hlt|Hge].
  - destruct (MArray_pop_front_run c index) as (c' & Hrun & Hlen & Hcap);
      [lia|done|done|].
    rewrite Hrun. simpl. rewrite Hcap, Hlen, (Hn Hen').
    rewrite <- fmap_take. f_equal.
    rewrite take_seq. f_equal. lia.
  - assert (state_of (MArray.pop index c) = c) as ->; [|by apply Hn].
    unfold MArray.pop. unfold bind at 1, get.
    case_decide; [|done].
    unfold bind at 1. rewrite item_run.
    assert (getitem (elements c) index = None) as ->; [|done].
    apply subscript_getitem. apply subscript_outside. lia.
Qed.

Lemma numbered_add_indexes (c : MCollection) (direction : Point3D) (buff : Qc) :
  numbered c →
  numbered (state_of (MArray.add_indexes text_extent direction buff c)).
Proof.
  intros Hn. unfold MArray.add_indexes. run_monad.
  destruct (_index_enabled c) eqn:Hen; [done|].
  destruct (array_equal _ _); [done|].
  simpl. intros _. simpl. unfold captions.
  apply list_eq. intros k.
  rewrite !list_lookup_fmap, list_lookup_imap, length_imap.
  destruct (elements c !! k) as [e|] eqn:He; simpl.
  - rewrite lookup_seq_lt by (by eapply lookup_lt_Some). simpl.
    by rewrite pretty_nat_Z.
  - rewrite lookup_seq_ge; [done|]. by apply lookup_ge_None.
Qed.

(** X9. On every array built by the constructor and then by calls of
    [append], [add_indexes] and [pop] in any order, as long as each [pop] is
    given a position counted from the front (an index that is not negative),
    the captions number the positions: when indexing is on, the caption of
    position [i] reads [str(i)], for every position of the list. *)
Theorem captions_number_positions (arr : list Py.value) (direction : Point3D)
    (style : Style) (script : list ArrayCall) :
  front_pops script →
  numbered
    (run_script (array_call text_extent) script
       (MArray.new text_extent arr direction style)).
Proof.
  assert (captioned (MArray.new text_extent arr direction style)
          ∧ numbered (MArray.new text_extent arr direction style)) as Hnew.
  { split; intros Hen; by rewrite flag_MArray_new in Hen. }
  revert Hnew. generalize (MArray.new text_extent arr direction style).
  induction script as [|call rest IH]; intros c [Hc Hn] Hs; [done|].
  apply Forall_cons in Hs as [Hcall Hrest].
  simpl. apply IH; [|done]. destruct call as [v|index|dir b]; simpl.
  - split; [by apply captioned_MArray_append|by apply numbered_MArray_append].
  - split; [by apply captioned_MArray_pop|by apply numbered_MArray_pop].
  - split; [by apply captioned_add_indexes|by apply numbered_add_indexes].
Qed.

End Numbered.

Lemma captions_number_positions_witness :
  numbered
    (run_script (array_call sample_extent)
       [ArrayAddIndexes UP DEFAULT_MOBJECT_TO_MOBJECT_BUFFER; ArrayPop 0;
        ArrayAppend (PyInt 4)]
       (MArray.new sample_extent [PyInt 1; PyInt 2; PyInt 3] RIGHT DEFAULT)).
Proof.
  apply (captions_number_positions sample_extent).
  unfold front_pops. repeat constructor. lia.
Defined.

(** ** swap: bad positions, equal positions, and what is exchanged *)

Lemma item_run_outside (c : MCollection) (i : Z) :
  subscript (length (elements c)) i = None → item i c = Exc IndexError c.
Proof.
  intros Hi. rewrite item_run. by rewrite (proj2 (subscript_getitem _ _) Hi).
Qed.

Lemma item_run_inside (c : MCollection) (i : Z) (k : nat) :
  subscript (length (elements c)) i = Some k →
  ∃ e, elements c !! k = Some e ∧ item i c = Ret e c.
Proof.
  intros Hi. destruct (lookup_lt_is_Some_2 (elements c) k) as [e He];
    [by eapply subscript_lt|].
  exists e. split; [done|]. by rewrite item_run, (getitem_lookup _ _ _ Hi), He.
Qed.

(** X10. [swap(i, j)] with a position the list does not accept raises
    IndexError before anything is moved or detached: the collection is left
    exactly as it was. This holds for [MCollection.swap] and for the swap of
    [MArray]. *)
Theorem swap_invalid_position_raises (c : MCollection) (i j : Z) :
  let n := Z.of_nat (length (elements c)) in
  ¬ (- n ≤ i < n ∧ - n ≤ j < n) →
  MCollection.swap i j c = Exc IndexError c
  ∧ MArray.swap i j c = Exc IndexError c.
Proof.
  intros n Hbad.
  unfold MCollection.swap, MArray.swap, MCollection._visual_swap, MArray._visual_swap.
  destruct (subscript (length (elements c)) i) as [ki|] eqn:Hi.
  - destruct (subscript (length (elements c)) j) as [kj|] eqn:Hj.
    { exfalso. apply Hbad. split; apply subscript_is_Some; eauto. }
    destruct (item_run_inside c i ki Hi) as (a & _ & Ha).
    split.
    + rewrite !bind_assoc. rewrite (bind_run _ _ _ _ _ Ha).
      rewrite !bind_assoc. unfold bind at 1. by rewrite (item_run_outside c j Hj).
    + rewrite !bind_assoc. rewrite (bind_run _ _ _ _ _ Ha).
      rewrite !bind_assoc. unfold bind at 1. by rewrite (item_run_outside c j Hj).
  - split.
    + rewrite !bind_assoc. unfold bind at 1. by rewrite (item_run_outside c i Hi).
    + rewrite !bind_assoc. unfold bind at 1. by rewrite (item_run_outside c i Hi).
Qed.

Lemma swap_invalid_position_raises_witness :
  MCollection.swap 0 3 sample_array = Exc IndexError sample_array
  ∧ MArray.swap 0 3 sample_array = Exc IndexError sample_array.
Proof.
  apply (swap_invalid_position_raises sample_array 0 3).
  vm_compute. intros [_ [_ H]]. discriminate H.
Defined.

(** X11. [swap(i, j)] with two subscripts of the same position (as
    [swap(1, 1)] or, on three elements, [swap(-1, 2)]) returns and leaves
    every element of the list as it was, for [MCollection.swap] and, on an
    array whose elements have their captions when indexing is on, for the
    swap of [MArray]. *)
Theorem swap_same_position (c : MCollection) (i j : Z) (k : nat) :
  subscript (length (elements c)) i = Some k →
  subscript (length (elements c)) j = Some k →
  (∃ c1, MCollection.swap i j c = Ret tt c1 ∧ elements c1 = elements c)
  ∧ ((_index_enabled c = true → Forall (λ e, is_Some (index e)) (elements c)) →
     ∃ c1, MArray.swap i j c = Ret tt c1 ∧ elements c1 = elements c).
Proof.
  intros Hi Hj.
  destruct (lookup_lt_is_Some_2 (elements c) k) as [a Ha];
    [by eapply subscript_lt|].
  split.
  - destruct (MCollection_swap_same (elements c) (_index_enabled c) i j k a
                Hi Hj Ha c) as ([] & c1 & Hrun & Hel & _); [done|].
    by exists c1.
  - intros Hidx.
    destruct (MArray_swap_same (elements c) (_index_enabled c) i j k a
                Hi Hj Ha) with (c := c) as ([] & c1 & Hrun & Hel & _).
    + intros Hen. by apply (proj1 (Forall_lookup _ _) (Hidx Hen) k a).
    + done.
    + by exists c1.
Qed.

Lemma swap_same_position_witness :
  (∃ c1, MCollection.swap (-1) 2 sample_indexed = Ret tt c1
         ∧ elements c1 = elements sample_indexed)
  ∧ (∃ c1, MArray.swap (-1) 2 sample_indexed = Ret tt c1
           ∧ elements c1 = elements sample_indexed).
Proof.
  destruct (swap_same_position sample_indexed (-1) 2 2) as [H1 H2].
  - vm_compute. reflexivity.
  - vm_compute. reflexivity.
  - split; [exact H1|]. apply H2.
    intros _. apply (bool_decide_unpack _). vm_compute. exact I.
Defined.

Lemma move_to_aligns (b target : Box) (direction : Point3D) :
  get_critical_point (box_shift (move_to_vector b target direction) b) direction
  = get_critical_point target direction.
Proof.
  rewrite get_critical_point_shift. unfold move_to_vector.
  generalize (get_critical_point b direction), (get_critical_point target direction).
  intros p q. vec_ring.
Qed.

(** X12. [MCollection.swap(i, j)] on two different positions returns; the two
    element objects trade their places in the list and nothing else in the
    list changes. Each of the two is moved as a whole, so that the middle of
    its lower edge comes to lie where the middle of the other's lower edge
    was. *)
Theorem MCollection_swap_exchanges (c : MCollection) (i j : Z) (ki kj : nat)
    (a b : MElement) :
  subscript (length (elements c)) i = Some ki →
  subscript (length (elements c)) j = Some kj →
  ki ≠ kj →
  elements c !! ki = Some a → elements c !! kj = Some b →
  ∃ c1 va vb,
    MCollection.swap i j c = Ret tt c1
    ∧ elements c1
      = <[kj := MElement_shift va a]> (<[ki := MElement_shift vb b]> (elements c))
    ∧ get_critical_point (MElement_box (MElement_shift va a)) DOWN
      = get_critical_point (MElement_box b) DOWN
    ∧ get_critical_point (MElement_box (MElement_shift vb b)) DOWN
      = get_critical_point (MElement_box a) DOWN.
Proof.
  intros Hi Hj Hne Ha Hb.
  destruct (MCollection_swap_distinct (elements c) (_index_enabled c) i j ki kj a b
              Hi Hj Ha Hb Hne c) as ([] & c1 & Hrun & Hel & _); [done|].
  eexists c1, _, _. split; [done|]. split; [exact Hel|].
  rewrite !MElement_box_shift. split; apply move_to_aligns.
Qed.

Lemma MCollection_swap_exchanges_witness :
  ∃ a b c1 va vb,
    elements sample_stack !! 0%nat = Some a
    ∧ elements sample_stack !! 2%nat = Some b
    ∧ MCollection.swap 0 (-1) sample_stack = Ret tt c1
    ∧ elements c1
      = <[2%nat := MElement_shift va a]>
          (<[0%nat := MElement_shift vb b]> (elements sample_stack))
    ∧ get_critical_point (MElement_box (MElement_shift va a)) DOWN
      = get_critical_point (MElement_box b) DOWN
    ∧ get_critical_point (MElement_box (MElement_shift vb b)) DOWN
      = get_critical_point (MElement_box a) DOWN.
Proof.
  assert (is_Some (elements sample_stack !! 0%nat)) as [a Ha]
    by (vm_compute; eexists; reflexivity).
  assert (is_Some (elements sample_stack !! 2%nat)) as [b Hb]
    by (vm_compute; eexists; reflexivity).
  exists a, b.
  destruct (MCollection_swap_exchanges sample_stack 0 (-1) 0 2 a b)
    as (c1 & va & vb & H); [vm_compute; reflexivity|vm_compute; reflexivity|
                            lia|exact Ha|exact Hb|].
  exists c1, va, vb. split; [exact Ha|]. split; [exact Hb|]. exact H.
Defined.

(** X13. The swap of [MArray] on two different positions of an array whose
    elements have their captions when indexing is on: the call returns and
    nothing in the list changes but the two positions. The square and the
    value of each of the two elements go to the other position, moved so that
    the middle of their lower edge lies where that of the other pair was; the
    index captions stay with their positions, each where it was. *)
Theorem MArray_swap_exchanges (c : MCollection) (i j : Z) (ki kj : nat)
    (a b : MElement) :
  subscript (length (elements c)) i = Some ki →
  subscript (length (elements c)) j = Some kj →
  ki ≠ kj →
  elements c !! ki = Some a → elements c !! kj = Some b →
  (_index_enabled c = true → is_Some (index a) ∧ is_Some (index b)) →
  ∃ c1 a' b',
    MArray.swap i j c = Ret tt c1
    ∧ elements c1 = <[kj := a']> (<[ki := b']> (elements c))
    ∧ (uid a' = uid a ∧ text (value a') = text (value a)
       ∧ get_critical_point (body_box a') DOWN = get_critical_point (body_box b) DOWN
       ∧ index a' = if _index_enabled c then index b else index a)
    ∧ (uid b' = uid b ∧ text (value b') = text (value b)
       ∧ get_critical_point (body_box b') DOWN = get_critical_point (body_box a) DOWN
       ∧ index b' = if _index_enabled c then index a else index b).
Proof.
  intros Hi Hj Hne Ha Hb Hidx.
  destruct (MArray_swap_distinct (elements c) (_index_enabled c) i j ki kj a b
              Hi Hj Ha Hb Hne Hidx c) as ([] & c1 & Hrun & Hel & _); [done|].
  eexists c1, _, _. split; [done|]. split; [exact Hel|].
  rewrite !body_box_exchange, !body_box_shift, !move_to_aligns.
  split; (split_and!; [by destruct (_index_enabled c)..|done|
                       by destruct (_index_enabled c)]).
Qed.

Lemma MArray_swap_exchanges_witness :
  ∃ a b c1 a' b',
    elements sample_indexed !! 0%nat = Some a
    ∧ elements sample_indexed !! 2%nat = Some b
    ∧ MArray.swap 0 2 sample_indexed = Ret tt c1
    ∧ elements c1 = <[2%nat := a']> (<[0%nat := b']> (elements sample_indexed))
    ∧ (uid a' = uid a ∧ text (value a') = text (value a)
       ∧ get_critical_point (body_box a') DOWN = get_critical_point (body_box b) DOWN
       ∧ index a' = if _index_enabled sample_indexed then index b else index a)
    ∧ (uid b' = uid b ∧ text (value b') = text (value b)
       ∧ get_critical_point (body_box b') DOWN = get_critical_point (body_box a) DOWN
       ∧ index b' = if _index_enabled sample_indexed then index a else index b).
Proof.
  assert (∃ a, elements sample_indexed !! 0%nat = Some a ∧ is_Some (index a))
    as (a & Ha & Hia) by (vm_compute; eexists; split; [reflexivity|eexists; reflexivity]).
  assert (∃ b, elements sample_indexed !! 2%nat = Some b ∧ is_Some (index b))
    as (b & Hb & Hib) by (vm_compute; eexists; split; [reflexivity|eexists; reflexivity]).
  exists a, b.
  destruct (MArray_swap_exchanges sample_indexed 0 2 0 2 a b)
    as (c1 & a' & b' & H); [vm_compute; reflexivity|vm_compute; reflexivity|
                            lia|exact Ha|exact Hb|by intros _|].
  exists c1, a', b'. split; [exact Ha|]. split; [exact Hb|]. exact H.
Defined.

(** * Replacing the text of an element *)

Section SetText.

Variable text_extent : string → Qc → Qc * Qc.

Lemma Text_move_to_center (t : Text) (b : Box) :
  get_center (Text_box (Text_move_to t b)) = get_center b.
Proof.
  unfold Text_move_to, get_center. rewrite Text_box_shift. apply move_to_aligns.
Qed.

Lemma Text_move_to_same_center (t : Text) (b b' : Box) :
  get_center b = get_center b' → Text_move_to t b = Text_move_to t b'.
Proof.
  intros H. unfold Text_move_to, move_to_vector. unfold get_center in H.
  by rewrite H.
Qed.

Lemma set_text_again (old : Text) (s1 s2 : string) :
  Utils.set_text text_extent (Utils.set_text text_extent old s1) s2
  = Utils.set_text text_extent old s2.
Proof.
  unfold Utils.set_text at 1 3. apply Text_move_to_same_center.
  apply Text_move_to_center.
Qed.

(** X14. [MElement.set_value] makes the element show [str(new_value)] in the
    font size it had, with the centre of the text where the centre of the old
    text was, and touches neither the square nor the caption. Only the last
    of two calls counts: [set_value(v)] followed by [set_value(w)] gives the
    element [set_value(w)] alone gives. *)
Theorem set_value_keeps_place (e : Collection.MElement) (v w : Py.value) :
  let e' := MElement.set_value text_extent v e in
  text (value e') = str v
  ∧ font_size (value e') = font_size (value e)
  ∧ get_center (Text_box (value e')) = get_center (Text_box (value e))
  ∧ square e' = square e
  ∧ index e' = index e
  ∧ MElement.set_value text_extent w e' = MElement.set_value text_extent w e.
Proof.
  simpl. split_and!; try done.
  - apply Text_move_to_center.
  - unfold MElement.set_value. simpl. by rewrite set_text_again.
Qed.

End SetText.

(** * Further properties of the graph *)

Section GraphMore.
Import Graph.

Variable text_extent : string → Qc → Qc * Qc.
Variable norm : Point3D → Qc.

(** ** add_edge: the names must be nodes *)

Lemma add_edge_run_missing (g : MGraph) (a b : string) (w : Py.value) (ld : Qc) :
  nodes g !! a = None ∨ nodes g !! b = None →
  MGraph.add_edge text_extent norm a b w ld g = Exc KeyError g.
Proof.
  intros H. unfold MGraph.add_edge. run_monad.
  destruct (nodes g !! a) as [n1|]; [|done].
  destruct H as [H|H]; [done|]. by rewrite H.
Qed.

(** X16. [add_edge] with a name that is not a node of the graph raises
    KeyError and leaves the graph as it was: no edge, no line and no child is
    added. *)
Theorem add_edge_missing_node_raises (g : MGraph) (a b : string) (w : Py.value)
    (ld : Qc) :
  nodes g !! a = None ∨ nodes g !! b = None →
  MGraph.add_edge text_extent norm a b w ld g = Exc KeyError g.
Proof. apply add_edge_run_missing. Qed.

(** ** Graphs built through the interface *)

Lemma add_edge_joined (g : MGraph) (a b : string) (w : Py.value) (ld : Qc) :
  registered g → joined g →
  joined (state_of (MGraph.add_edge text_extent norm a b w ld g)).
Proof.
  intros Hreg Hj.
  destruct (nodes g !! a) as [n1|] eqn:H1;
    [|by rewrite add_edge_run_missing by (by left)].
  destruct (nodes g !! b) as [n2|] eqn:H2;
    [|by rewrite add_edge_run_missing by (by right)].
  destruct (add_edge_spec text_extent norm g a b w ld n1 n2 H1 H2 Hreg)
    as (g' & e & -> & Hnodes & _ & _ & _ & _ & _ & Hcase).
  simpl. intros x y. rewrite Hnodes.
  destruct (edges g !! (b, a)) as [e_old|].
  - destruct Hcase as (e_rev & -> & _).
    rewrite !lookup_insert_is_Some.
    intros [[= <- <-]|[_ [[= <- <-]|[_ H]]]]; eauto.
  - destruct Hcase as [-> _].
    rewrite !lookup_insert_is_Some.
    intros [[= <- <-]|[_ H]]; eauto.
Qed.

Lemma add_node_joined (g : MGraph) (name : string) (position : Point3D) :
  joined g → joined (state_of (MGraph.add_node text_extent name position g)).
Proof.
  intros Hj. rewrite add_node_run. unfold joined.
  cbn [state_of nodes edges set_submobjects set_submob_dict set_nodes set_next_id].
  intros x y Hxy. destruct (Hj x y Hxy) as [Hx Hy].
  rewrite !lookup_insert_is_Some'. eauto.
Qed.

Lemma graph_call_preserves (call : GraphCall) (g : MGraph) :
  (registered g ∧ distinct_nodes g) ∧ joined g →
  (registered (state_of (graph_call text_extent norm call g))
   ∧ distinct_nodes (state_of (graph_call text_extent norm call g)))
  ∧ joined (state_of (graph_call text_extent norm call g)).
Proof.
  intros [[Hreg Hdist] Hj]. destruct call as [name position|a b w ld]; simpl.
  - split; [split|].
    + by apply add_node_registered.
    + by apply add_node_distinct.
    + by apply add_node_joined.
  - split; [by apply add_edge_preserves|by apply add_edge_joined].
Qed.

Lemma new_graph_joined (graph : list (string * list Dest))
    (nodes_position : gmap string Point3D) (style : Style) :
  joined (MGraph.new text_extent norm graph nodes_position style).
Proof.
  unfold MGraph.new, MGraph.__init__.
  set (P := λ g, (registered g ∧ distinct_nodes g) ∧ joined g).
  assert (P (new_object style)) as H0.
  { split; [split|]; [by intros k [? ?]| |by intros a b [? ?]].
    split; [by intros k n ?|by intros k1 k2 n1 n2 ?]. }
  enough (P (state_of
    (bind (for_each graph (λ entry,
             MGraph.add_node text_extent entry.1
               (default ORIGIN (nodes_position !! entry.1))))
          (λ _, for_each graph (λ entry, for_each entry.2 (λ dest,
             match dest with
             | Neighbour name =>
                 MGraph.add_edge text_extent norm entry.1 name PyNone (Q2Qc (Qmake 1 5))
             | Weighted name weight =>
                 MGraph.add_edge text_extent norm entry.1 name (PyInt weight)
                   (Q2Qc (Qmake 1 5))
             | Other => ret tt
             end)))
       (new_object style)))) as [_ H]; [exact H|].
  apply state_of_bind.
  - apply for_each_preserves; [|done]. intros entry s Hs.
    apply (graph_call_preserves (GraphAddNode _ _) s Hs).
  - intros _ s Hs. apply for_each_preserves; [|done].
    intros entry s1 Hs1. apply for_each_preserves; [|done].
    intros dest s2 Hs2. destruct dest as [name|name weight|]; [| |done].
    + apply (graph_call_preserves (GraphAddEdge _ _ _ _) s2 Hs2).
    + apply (graph_call_preserves (GraphAddEdge _ _ _ _) s2 Hs2).
Qed.

(** X17. On every graph built by the constructor and then by calls of
    [add_node] and [add_edge] in any order (whether they return or raise),
    both ends of every edge of the edge dictionary are nodes of the graph,
    and [add_edge] between two names that are nodes returns, whatever the
    weight: [add_edge] raises only for a name that is not a node. *)
Theorem graph_edges_join_nodes (graph : list (string * list Dest))
    (nodes_position : gmap string Point3D) (style : Style)
    (script : list GraphCall) :
  let g := run_graph_script (graph_call text_extent norm) script
             (MGraph.new text_extent norm graph nodes_position style) in
  joined g
  ∧ ∀ a b w ld,
      is_Some (nodes g !! a) → is_Some (nodes g !! b) →
      raised (MGraph.add_edge text_extent norm a b w ld g) = None.
Proof.
  intros g.
  assert ((registered g ∧ distinct_nodes g) ∧ joined g) as [[Hreg _] Hj].
  { subst g.
    assert ((registered (MGraph.new text_extent norm graph nodes_position style)
             ∧ distinct_nodes (MGraph.new text_extent norm graph nodes_position style))
            ∧ joined (MGraph.new text_extent norm graph nodes_position style)) as Hnew.
    { split; [apply new_graph_invariant|apply new_graph_joined]. }
    revert Hnew. generalize (MGraph.new text_extent norm graph nodes_position style).
    induction script as [|call rest IH]; intros g0 H0; [done|].
    simpl. apply IH. by apply graph_call_preserves. }
  split; [done|].
  intros a b w ld [n1 H1] [n2 H2].
  destruct (add_edge_spec text_extent norm g a b w ld n1 n2 H1 H2 Hreg)
    as (g' & e & -> & _). done.
Qed.

End GraphMore.

Lemma add_edge_missing_node_raises_witness :
  MGraph.add_edge sample_extent sample_norm "A" "C" (PyInt 3) (Q2Qc (Qmake 1 5))
    sample_graph
  = Exc KeyError sample_graph.
Proof.
  apply (add_edge_missing_node_raises sample_extent sample_norm sample_graph "A" "C").
  right. vm_compute. reflexivity.
Defined.

(** ** The constructor *)

Section GraphInit.
Import Graph.

Variable text_extent : string → Qc → Qc * Qc.
Variable norm : Point3D → Qc.

Lemma init_unfold (graph : list (string * list Dest))
    (nodes_position : gmap string Point3D) :
  MGraph.__init__ text_extent norm graph nodes_position
  = (for_each graph (λ entry,
       MGraph.add_node text_extent entry.1
         (default ORIGIN (nodes_position !! entry.1))) ;;
     for_each graph (λ entry,
       for_each entry.2 (init_dest text_extent norm entry.1))).
Proof. reflexivity. Qed.

Lemma Node_init_at (id : nat) (style : Style) (name : string) (position : Point3D) :
  node_at style name position
    (MGraph.Node_init text_extent id (node_radius style)
       (node_label_font_size style) name position).
Proof.
  unfold node_at, MGraph.Node_init. simpl. split_and!; try done.
  unfold get_center. rewrite Text_box_shift, get_critical_point_shift.
  apply move_to_lands.
Qed.

(** The first loop of the constructor: one node per entry. *)
Lemma init_nodes_run (entries : list (string * list Dest))
    (nodes_position : gmap string Point3D) (g0 : MGraph) :
  ∃ g1,
    for_each entries (λ entry,
      MGraph.add_node text_extent entry.1
        (default ORIGIN (nodes_position !! entry.1))) g0 = Ret tt g1
    ∧ style g1 = style g0
    ∧ edges g1 = edges g0
    ∧ (registered g0 → registered g1)
    ∧ (∀ name, name ∉ entries.*1 → nodes g1 !! name = nodes g0 !! name)
    ∧ (∀ name, name ∈ entries.*1 →
         ∃ n, nodes g1 !! name = Some n
              ∧ node_at (style g0) name (default ORIGIN (nodes_position !! name)) n).
Proof.
  revert g0. induction entries as [|entry rest IH]; intros g0.
  { exists g0. split_and!; try done. intros name Hin. by apply elem_of_nil in Hin. }
  simpl. unfold bind at 1. rewrite add_node_run.
  match goal with |- context [for_each rest _ ?s] =>
    destruct (IH s) as (g1 & Hrun & Hstyle & Hedges & Hreg & Hout & Hin)
  end.
  exists g1. split; [exact Hrun|]. split; [done|]. split; [done|]. split.
  { intros Hr. apply Hreg.
    pose proof (add_node_registered text_extent g0 entry.1
                  (default ORIGIN (nodes_position !! entry.1)) Hr) as H.
    by rewrite add_node_run in H. }
  split.
  - intros name Hname. apply not_elem_of_cons in Hname as [Hne Hrest].
    rewrite (Hout name Hrest). simpl. by rewrite lookup_insert_ne.
  - intros name Hname.
    destruct (decide (name ∈ rest.*1)) as [Hrest|Hrest].
    + destruct (Hin name Hrest) as (n & Hn & Hat). by exists n.
    + apply elem_of_cons in Hname as [->|Hname]; [|done].
      rewrite (Hout _ Hrest). simpl. rewrite lookup_insert_eq.
      eexists. split; [done|]. apply Node_init_at.
Qed.

Lemma add_edge_keeps_nodes (g : MGraph) (a b : string) (w : Py.value) (ld : Qc) :
  registered g →
  registered (state_of (MGraph.add_edge text_extent norm a b w ld g))
  ∧ nodes (state_of (MGraph.add_edge text_extent norm a b w ld g)) = nodes g.
Proof.
  intros Hreg.
  destruct (nodes g !! a) as [n1|] eqn:H1;
    [|by rewrite add_edge_run_missing by (by left)].
  destruct (nodes g !! b) as [n2|] eqn:H2;
    [|by rewrite add_edge_run_missing by (by right)].
  destruct (add_edge_spec text_extent norm g a b w ld n1 n2 H1 H2 Hreg)
    as (g' & e & -> & Hnodes & Hreg' & _). done.
Qed.

Lemma init_dest_keeps_nodes (N : gmap string Node) (src : string) (dest : Dest)
    (g : MGraph) :
  registered g ∧ nodes g = N →
  registered (state_of (init_dest text_extent norm src dest g))
  ∧ nodes (state_of (init_dest text_extent norm src dest g)) = N.
Proof.
  intros [Hreg <-]. destruct dest as [name|name weight|]; simpl; [| |done].
  - by apply add_edge_keeps_nodes.
  - by apply add_edge_keeps_nodes.
Qed.

(** X18. The constructor makes one node for every key of the dictionary and
    no other node, whether the edges that follow can be made or not. The node
    of a key is a circle of the style's radius centred at the position the
    key has in [nodes_position] (at the origin when it has none), with the key
    as its label, centred at the same point. *)
Theorem MGraph_new_nodes (graph : list (string * list Dest))
    (nodes_position : gmap string Point3D) (style : Style) (name : string) :
  let g := MGraph.new text_extent norm graph nodes_position style in
  (name ∈ graph.*1 →
   ∃ n, nodes g !! name = Some n
        ∧ node_at style name (default ORIGIN (nodes_position !! name)) n)
  ∧ (name ∉ graph.*1 → nodes g !! name = None).
Proof.
  intros g. subst g. unfold MGraph.new. rewrite init_unfold.
  destruct (init_nodes_run graph nodes_position (new_object style))
    as (g1 & Hrun & _ & _ & Hreg & Hout & Hin).
  rewrite (bind_run _ _ _ _ _ Hrun).
  assert (nodes (state_of
            (for_each graph
               (λ entry, for_each entry.2 (init_dest text_extent norm entry.1)) g1))
          = nodes g1) as ->.
  { apply (for_each_preserves (λ g, registered g ∧ nodes g = nodes g1)).
    - intros entry s Hs. apply for_each_preserves; [|done].
      intros dest s' Hs'. by apply init_dest_keeps_nodes.
    - split; [|done]. apply Hreg. by intros k [? ?]. }
  split.
  - apply Hin.
  - intros Hname. by rewrite (Hout name Hname).
Qed.

(** The second loop of the constructor, on a graph whose nodes are the keys. *)
Lemma init_dest_returns (keys : list string) (src : string) (dest : Dest)
    (g : MGraph) :
  registered g → (∀ name, is_Some (nodes g !! name) ↔ name ∈ keys) →
  src ∈ keys → known keys dest →
  ∃ g', init_dest text_extent norm src dest g = Ret tt g'
        ∧ registered g' ∧ nodes g' = nodes g.
Proof.
  intros Hreg Hkeys Hsrc Hk.
  destruct (proj2 (Hkeys src) Hsrc) as [n1 H1].
  destruct dest as [name|name weight|]; simpl in *; [| |by exists g].
  - destruct (proj2 (Hkeys name) Hk) as [n2 H2].
    destruct (add_edge_spec text_extent norm g src name PyNone (Q2Qc (Qmake 1 5))
                n1 n2 H1 H2 Hreg) as (g' & e & Hrun & Hnodes & Hreg' & _).
    by exists g'.
  - destruct (proj2 (Hkeys name) Hk) as [n2 H2].
    destruct (add_edge_spec text_extent norm g src name (PyInt weight)
                (Q2Qc (Qmake 1 5)) n1 n2 H1 H2 Hreg)
      as (g' & e & Hrun & Hnodes & Hreg' & _).
    by exists g'.
Qed.

Lemma init_dest_raises (keys : list string) (src : string) (dest : Dest)
    (g : MGraph) :
  (∀ name, is_Some (nodes g !! name) ↔ name ∈ keys) →
  ¬ known keys dest →
  init_dest text_extent norm src dest g = Exc KeyError g.
Proof.
  intros Hkeys Hk.
  destruct dest as [name|name weight|]; unfold known in Hk; simpl in *; [| |done].
  - apply add_edge_run_missing. right. apply eq_None_not_Some.
    intros H. by apply Hk, Hkeys.
  - apply add_edge_run_missing. right. apply eq_None_not_Some.
    intros H. by apply Hk, Hkeys.
Qed.

Lemma init_dests_run (keys : list string) (src : string) (dests : list Dest)
    (g : MGraph) :
  registered g → (∀ name, is_Some (nodes g !! name) ↔ name ∈ keys) →
  src ∈ keys →
  if decide (Forall (known keys) dests)
  then ∃ g', for_each dests (init_dest text_extent norm src) g = Ret tt g'
             ∧ registered g' ∧ nodes g' = nodes g
  else raised (for_each dests (init_dest text_extent norm src) g) = Some KeyError.
Proof.
  revert g. induction dests as [|dest rest IH]; intros g Hreg Hkeys Hsrc.
  { rewrite decide_True by constructor. by exists g. }
  simpl. unfold bind.
  destruct (decide (known keys dest)) as [Hk|Hk].
  - destruct (init_dest_returns keys src dest g Hreg Hkeys Hsrc Hk)
      as (g' & -> & Hreg' & Hnodes').
    assert (∀ name, is_Some (nodes g' !! name) ↔ name ∈ keys) as Hkeys'
      by (intros name; by rewrite Hnodes').
    specialize (IH g' Hreg' Hkeys' Hsrc).
    destruct (decide (Forall (known keys) rest)) as [Hrest|Hrest].
    + rewrite decide_True by (by constructor).
      destruct IH as (g'' & Hrun & Hreg'' & Hnodes'').
      exists g''. split; [done|]. split; [done|]. by rewrite Hnodes''.
    + rewrite decide_False; [done|]. by intros [_ ?]%Forall_cons.
  - rewrite decide_False by (by intros [? _]%Forall_cons).
    by rewrite (init_dest_raises keys src dest g Hkeys Hk).
Qed.

Lemma init_edges_run (keys : list string) (entries : list (string * list Dest))
    (g : MGraph) :
  registered g → (∀ name, is_Some (nodes g !! name) ↔ name ∈ keys) →
  Forall (λ entry, entry.1 ∈ keys) entries →
  if decide (Forall (λ entry, Forall (known keys) entry.2) entries)
  then raised (for_each entries
                 (λ entry, for_each entry.2 (init_dest text_extent norm entry.1)) g)
       = None
  else raised (for_each entries
                 (λ entry, for_each entry.2 (init_dest text_extent norm entry.1)) g)
       = Some KeyError.
Proof.
  revert g. induction entries as [|entry rest IH]; intros g Hreg Hkeys Hsrc.
  { by rewrite decide_True by constructor. }
  apply Forall_cons in Hsrc as [Hsrc Hsrcs].
  simpl. unfold bind.
  pose proof (init_dests_run keys entry.1 entry.2 g Hreg Hkeys Hsrc) as Hd.
  destruct (decide (Forall (known keys) entry.2)) as [Hk|Hk].
  - destruct Hd as (g' & -> & Hreg' & Hnodes').
    assert (∀ name, is_Some (nodes g' !! name) ↔ name ∈ keys) as Hkeys'
      by (intros name; by rewrite Hnodes').
    specialize (IH g' Hreg' Hkeys' Hsrcs).
    destruct (decide (Forall (λ entry, Forall (known keys) entry.2) rest))
      as [Hrest|Hrest].
    + by rewrite decide_True by (by constructor).
    + rewrite decide_False; [done|]. by intros [_ ?]%Forall_cons.
  - rewrite decide_False by (by intros [? _]%Forall_cons).
    destruct (for_each entry.2 _ g); [done|]. simpl in *. done.
Qed.

(** X19. The constructor returns exactly when every neighbour its adjacency
    lists name is a key of the dictionary; otherwise it raises KeyError (at
    the first edge to a name that is no key, after all the nodes and the
    edges before it were made). *)
Theorem MGraph_init_raises_iff (graph : list (string * list Dest))
    (nodes_position : gmap string Point3D) (style : Style) :
  raised (MGraph.__init__ text_extent norm graph nodes_position (new_object style))
  = if decide (known_neighbours graph) then None else Some KeyError.
Proof.
  rewrite init_unfold.
  destruct (init_nodes_run graph nodes_position (new_object style))
    as (g1 & Hrun & _ & _ & Hreg & Hout & Hin).
  rewrite (bind_run _ _ _ _ _ Hrun).
  assert (∀ name, is_Some (nodes g1 !! name) ↔ name ∈ graph.*1) as Hkeys.
  { intros name. split.
    - intros Hsome. destruct (decide (name ∈ graph.*1)) as [|Hn]; [done|].
      rewrite (Hout name Hn) in Hsome. by destruct Hsome.
    - intros Hname. destruct (Hin name Hname) as (n & -> & _). by eexists. }
  pose proof (init_edges_run graph.*1 graph g1) as H.
  unfold known_neighbours.
  destruct (decide (Forall (λ entry, Forall (known graph.*1) entry.2) graph));
    apply H; try done.
  - apply Hreg. by intros k [? ?].
  - apply Forall_forall. intros entry Hentry. by apply list_elem_of_fmap_2.
  - apply Hreg. by intros k [? ?].
  - apply Forall_forall. intros entry Hentry. by apply list_elem_of_fmap_2.
Qed.

(** ** The weight of an edge whose opposite is added *)

(** X20. For two distinct existing nodes A and B of a graph whose edges are
    registered, after [add_edge(A, B, w1)] and then [add_edge(B, A, w2)] the
    edge stored under (A, B) carries no weight label, whatever [w1] was: the
    second call replaces it by an edge without label. The edge under (B, A)
    is weighted exactly when [w2] is truthy. *)
Theorem add_edge_reverse_drops_weight (g : MGraph) (A B : string) (nA nB : Node)
    (w1 w2 : Py.value) (ld1 ld2 : Qc) :
  nodes g !! A = Some nA →
  nodes g !! B = Some nB →
  A ≠ B →
  registered g →
  ∃ (g1 g2 : MGraph) (eAB eBA : Edge),
    MGraph.add_edge text_extent norm A B w1 ld1 g = Ret tt g1
    ∧ MGraph.add_edge text_extent norm B A w2 ld2 g1 = Ret tt g2
    ∧ edges g2 !! (A, B) = Some eAB
    ∧ is_weighted eAB = false
    ∧ edges g2 !! (B, A) = Some eBA
    ∧ is_weighted eBA = truthy w2.
Proof.
  intros HA HB Hne Hreg.
  destruct (add_edge_spec text_extent norm g A B w1 ld1 nA nB HA HB Hreg)
    as (g1 & e1 & Hrun1 & Hnodes1 & Hreg1 & _ & Hlook1 & _ & _ & _).
  rewrite <- Hnodes1 in HA, HB.
  destruct (add_edge_spec text_extent norm g1 B A w2 ld2 nB nA HB HA Hreg1)
    as (g2 & e2 & Hrun2 & _ & _ & _ & Hlook2 & _ & Hw2 & Hcase2).
  rewrite Hlook1 in Hcase2.
  destruct Hcase2 as (e_rev & Hedges2 & _ & Hlabel & _).
  exists g1, g2, e_rev, e2. split_and!; try done.
  - rewrite Hedges2, lookup_insert_ne by congruence. apply lookup_insert_eq.
  - unfold is_weighted. rewrite Hlabel. apply bool_decide_eq_false_2.
    intros H. by apply H.
Qed.

End GraphInit.

Lemma add_edge_reverse_drops_weight_witness :
  ∃ nA nB : Graph.Node,
    Graph.nodes sample_graph !! "A" = Some nA
    ∧ Graph.nodes sample_graph !! "B" = Some nB
    ∧ ∃ (g1 g2 : Graph.MGraph) (eAB eBA : Graph.Edge),
        MGraph.add_edge sample_extent sample_norm "A" "B" (PyInt 5) (Q2Qc (Qmake 1 5))
          sample_graph = Ret tt g1
        ∧ MGraph.add_edge sample_extent sample_norm "B" "A" (PyInt 7)
            (Q2Qc (Qmake 1 5)) g1 = Ret tt g2
        ∧ Graph.edges g2 !! ("A", "B") = Some eAB
        ∧ Graph.is_weighted eAB = false
        ∧ Graph.edges g2 !! ("B", "A") = Some eBA
        ∧ Graph.is_weighted eBA = truthy (PyInt 7).
Proof.
  eexists _, _. split; [vm_compute; reflexivity|]. split; [vm_compute; reflexivity|].
  eapply (add_edge_reverse_drops_weight sample_extent sample_norm sample_graph
            "A" "B").
  - vm_compute. reflexivity.
  - vm_compute. reflexivity.
  - discriminate.
  - apply new_graph_invariant.
Defined.

(** ** add_edge: the line, the label and the children *)

Section GraphEdges.
Import Graph.

Variable text_extent : string → Qc → Qc * Qc.
Variable norm : Point3D → Qc.

Ltac graph_fields :=
  cbn [nodes edges submob_dict submobjects lines style next_id
         set_nodes set_edges set_submob_dict set_submobjects set_lines set_next_id
         edge_id line label label_distance negb].

Ltac graph_step run n m :=
  rewrite ?bind_assoc; rewrite (bind_run _ _ _ _ _ (run _ _ n m _)); graph_fields.

(** With the comparison decided on exact coordinates, [_get_line_start_end]
    gives no line of length zero. *)
Lemma line_start_end_differ (c1 c2 : Point3D) (r1 r2 : Qc) :
  (MGraph._get_line_start_end norm c1 c2 r1 r2).1
  ≠ (MGraph._get_line_start_end norm c1 c2 r1 r2).2.
Proof.
  unfold MGraph._get_line_start_end, array_equal. simpl.
  case_bool_decide as H; simpl; [discriminate|done].
Qed.

Lemma boundary_line_differ (n1 n2 : Node) :
  line_start (MGraph.boundary_line norm n1 n2)
  ≠ line_end (MGraph.boundary_line norm n1 n2).
Proof. apply line_start_end_differ. Qed.

Lemma weighted_run_at (g : MGraph) (e : Edge) (t : Text) (ld : Qc) :
  ∃ p, MGraph._get_label_position norm e ld g = Ret p g
       ∧ MGraph.weighted norm e t ld g
         = Ret {| edge_id := edge_id e; line := line e;
                  label := Some (Text_shift (vsub p (get_center (Text_box t))) t);
                  label_distance := Some ld |} g.
Proof. eexists. split; reflexivity. Qed.

Lemma label_position_same (g g' : MGraph) (e e' : Edge) (ld : Qc) (p : Point3D) :
  line e = line e' → lines g !!! line e = lines g' !!! line e →
  MGraph._get_label_position norm e ld g = Ret p g →
  MGraph._get_label_position norm e' ld g' = Ret p g'.
Proof.
  intros Hl Hlines. unfold MGraph._get_label_position. run_monad.
  rewrite <- Hl, <- Hlines. by intros [= <-].
Qed.

Lemma label_centre (t : Text) (p : Point3D) :
  get_center (Text_box (Text_shift (vsub p (get_center (Text_box t))) t)) = p.
Proof.
  unfold get_center. rewrite Text_box_shift, get_critical_point_shift.
  apply move_to_lands.
Qed.

(** [add_edge] between two existing nodes with no opposite edge, in full. *)
Lemma add_edge_run_fresh (g : MGraph) (a b : string) (w : Py.value) (ld : Qc)
    (n1 n2 : Node) :
  nodes g !! a = Some n1 → nodes g !! b = Some n2 → edges g !! (b, a) = None →
  ∃ (g' : MGraph) (e : Edge),
    MGraph.add_edge text_extent norm a b w ld g = Ret tt g'
    ∧ nodes g' = nodes g
    ∧ next_id g' = S (S (next_id g))
    ∧ edges g' = <[(a, b) := e]> (edges g)
    ∧ edge_id e = S (next_id g)
    ∧ line e = next_id g
    ∧ submob_dict g' = <[inr (a, b) := edge_id e]> (submob_dict g)
    ∧ submobjects g' = Mobject.add (edge_id e) (submobjects g)
    ∧ lines g'
      = <[next_id g := {| ends := MGraph.boundary_line norm n1 n2; has_tip := true |}]>
          (lines g)
    ∧ if truthy w
      then ∃ t p, label e = Some t
                  ∧ text t = str w
                  ∧ font_size t = edge_weight_font_size (style g)
                  ∧ MGraph._get_label_position norm e ld g' = Ret p g'
                  ∧ get_center (Text_box t) = p
      else label e = None.
Proof.
  intros H1 H2 Hrev. unfold MGraph.add_edge.
  rewrite (bind_run _ _ g g g) by done.
  rewrite (bind_run _ _ g g (circle n1)) by (by rewrite H1).
  rewrite (bind_run _ _ g g (circle n2)) by (by rewrite H2).
  rewrite (bind_run _ _ _ _ _ (Line_init_run g)).
  rewrite (bind_run _ _ _ _ _ (StraightEdge_run norm _ _ n1 n2 _)). graph_fields.
  rewrite Hrev. rewrite bool_decide_eq_false_2 by (by intros [? ?]). graph_fields.
  assert (alter (λ t, {| ends := MGraph.boundary_line norm n1 n2; has_tip := has_tip t |})
            (next_id g)
            (alter (λ t, {| ends := ends t; has_tip := true |}) (next_id g)
               (<[next_id g := {| ends := {| line_start := LEFT; line_end := RIGHT |};
                                  has_tip := false |}]> (lines g)))
          = <[next_id g := {| ends := MGraph.boundary_line norm n1 n2;
                              has_tip := true |}]> (lines g)) as Hlines.
  { by rewrite !alter_insert_eq. }
  rewrite Hlines. clear Hlines.
  destruct (truthy w) eqn:Hw.
  - match goal with |- context [bind (MGraph.weighted norm ?e0 ?t ld) _ ?s] =>
      destruct (weighted_run_at s e0 t ld) as (p & Hp & Hrun)
    end.
    rewrite (bind_run _ _ _ _ _ Hrun). clear Hrun.
    rewrite (bind_run _ _ _ _ _ eq_refl).
    rewrite (bind_run _ _ _ _ _ (modify_run _ _)). graph_fields.
    rewrite VDict_add_run. graph_fields.
    eexists _, _. split; [reflexivity|]. graph_fields.
    split_and!; try done.
    eexists _, p. split_and!; try done.
    + eapply label_position_same; [| |exact Hp]; done.
    + apply label_centre.
  - rewrite (bind_run _ _ _ _ _ eq_refl).
    rewrite (bind_run _ _ _ _ _ eq_refl).
    rewrite (bind_run _ _ _ _ _ (modify_run _ _)). graph_fields.
    rewrite VDict_add_run. graph_fields.
    eexists _, _. split; [reflexivity|]. graph_fields.
    by split_and!.
Qed.

(** [add_edge] between two existing nodes whose opposite edge is present and
    registered, in full. *)
Lemma add_edge_run_reverse (g : MGraph) (a b : string) (w : Py.value) (ld : Qc)
    (n1 n2 : Node) (e_old : Edge) (mob : nat) :
  nodes g !! a = Some n1 → nodes g !! b = Some n2 →
  edges g !! (b, a) = Some e_old → submob_dict g !! inr (b, a) = Some mob →
  ∃ (g' : MGraph) (e e_rev : Edge),
    MGraph.add_edge text_extent norm a b w ld g = Ret tt g'
    ∧ nodes g' = nodes g
    ∧ next_id g' = S (S (S (next_id g)))
    ∧ edges g' = <[(a, b) := e]> (<[(b, a) := e_rev]> (edges g))
    ∧ edge_id e = S (next_id g) ∧ line e = next_id g
    ∧ edge_id e_rev = S (S (next_id g)) ∧ line e_rev = next_id g
    ∧ label e_rev = None
    ∧ submob_dict g'
      = <[inr (a, b) := edge_id e]>
          (<[inr (b, a) := edge_id e_rev]> (delete (inr (b, a)) (submob_dict g)))
    ∧ submobjects g'
      = Mobject.add (edge_id e)
          (Mobject.add (edge_id e_rev) (Mobject.remove mob (submobjects g)))
    ∧ lines g'
      = <[next_id g := {| ends := MGraph.boundary_line norm n2 n1; has_tip := false |}]>
          (lines g)
    ∧ if truthy w
      then ∃ t p, label e = Some t
                  ∧ text t = str w
                  ∧ font_size t = edge_weight_font_size (style g)
                  ∧ MGraph._get_label_position norm e ld g' = Ret p g'
                  ∧ get_center (Text_box t) = p
      else label e = None.
Proof.
  intros H1 H2 Hrev Hmob. unfold MGraph.add_edge.
  rewrite (bind_run _ _ g g g) by done.
  rewrite (bind_run _ _ g g (circle n1)) by (by rewrite H1).
  rewrite (bind_run _ _ g g (circle n2)) by (by rewrite H2).
  rewrite (bind_run _ _ _ _ _ (Line_init_run g)).
  rewrite (bind_run _ _ _ _ _ (StraightEdge_run norm _ _ n1 n2 _)). graph_fields.
  rewrite Hrev. rewrite bool_decide_eq_true_2 by eauto. graph_fields.
  assert (alter (λ t, {| ends := MGraph.boundary_line norm n2 n1; has_tip := has_tip t |})
            (next_id g)
            (alter (λ t, {| ends := MGraph.boundary_line norm n1 n2;
                            has_tip := has_tip t |}) (next_id g)
               (<[next_id g := {| ends := {| line_start := LEFT; line_end := RIGHT |};
                                  has_tip := false |}]> (lines g)))
          = <[next_id g := {| ends := MGraph.boundary_line norm n2 n1;
                              has_tip := false |}]> (lines g)) as Hlines.
  { by rewrite !alter_insert_eq. }
  destruct (truthy w) eqn:Hw.
  - match goal with |- context [bind (MGraph.weighted norm ?e0 ?t ld) _ ?s] =>
      destruct (weighted_run_at s e0 t ld) as (p0 & _ & Hrun)
    end.
    rewrite (bind_run _ _ _ _ _ Hrun). clear Hrun.
    graph_step (StraightEdge_run norm) n2 n1.
    rewrite Hlines.
    rewrite !bind_assoc. unfold lookup_or at 1. graph_fields.
    rewrite (bind_run _ _ _ _ _ eq_refl).
    match goal with |- context [bind (MGraph.weighted norm ?e0 ?t ld) _ ?s] =>
      destruct (weighted_run_at s e0 t ld) as (p & Hp & Hrun)
    end.
    rewrite (bind_run _ _ _ _ _ Hrun). clear Hrun.
    rewrite ?bind_assoc.
    match goal with |- context [bind (VDict_remove _) _ ?s] =>
      rewrite (bind_run _ _ _ _ _ (VDict_remove_run s _ mob Hmob))
    end.
    graph_fields.
    rewrite ?bind_assoc, (bind_run _ _ _ _ _ (modify_run _ _)). graph_fields.
    rewrite ?bind_assoc, (bind_run _ _ _ _ _ (VDict_add_run _ _ _)). graph_fields.
    rewrite ?bind_assoc, (bind_run _ _ _ _ _ eq_refl).
    rewrite ?bind_assoc, (bind_run _ _ _ _ _ (modify_run _ _)). graph_fields.
    rewrite VDict_add_run. graph_fields.
    eexists _, _, _. split; [reflexivity|]. graph_fields.
    split_and!; try done.
    eexists _, p. split_and!; try done.
    + eapply label_position_same; [| |exact Hp]; done.
    + apply label_centre.
  - rewrite (bind_run _ _ _ _ _ eq_refl).
    graph_step (StraightEdge_run norm) n2 n1.
    rewrite Hlines.
    rewrite ?bind_assoc, (bind_run _ _ _ _ _ eq_refl).
    rewrite ?bind_assoc.
    match goal with |- context [bind (VDict_remove _) _ ?s] =>
      rewrite (bind_run _ _ _ _ _ (VDict_remove_run s _ mob Hmob))
    end.
    graph_fields.
    rewrite ?bind_assoc, (bind_run _ _ _ _ _ (modify_run _ _)). graph_fields.
    rewrite ?bind_assoc, (bind_run _ _ _ _ _ (VDict_add_run _ _ _)). graph_fields.
    rewrite ?bind_assoc, (bind_run _ _ _ _ _ eq_refl).
    rewrite ?bind_assoc, (bind_run _ _ _ _ _ (modify_run _ _)). graph_fields.
    rewrite VDict_add_run. graph_fields.
    eexists _, _, _. split; [reflexivity|]. graph_fields.
    by split_and!.
Qed.

(** X21. [add_edge] between two existing nodes of a graph whose edges are
    registered, with a truthy weight: the edge it stores carries a label that
    reads [str(weight)] in the font size of the style, and the centre of the
    label is the point [_get_label_position] gives for the edge as it is
    drawn in the end. *)
Theorem add_edge_weight_label (g : MGraph) (a b : string) (w : Py.value) (ld : Qc) :
  is_Some (nodes g !! a) → is_Some (nodes g !! b) → registered g →
  truthy w = true →
  ∃ (g' : MGraph) (e : Edge) (t : Text) (p : Point3D),
    MGraph.add_edge text_extent norm a b w ld g = Ret tt g'
    ∧ edges g' !! (a, b) = Some e
    ∧ label e = Some t
    ∧ text t = str w
    ∧ font_size t = edge_weight_font_size (style g)
    ∧ MGraph._get_label_position norm e ld g' = Ret p g'
    ∧ get_center (Text_box t) = p.
Proof.
  intros [n1 H1] [n2 H2] Hreg Hw.
  destruct (edges g !! (b, a)) as [e_old|] eqn:Hrev.
  - destruct (Hreg (b, a)) as [mob Hmob]; [eauto|].
    destruct (add_edge_run_reverse g a b w ld n1 n2 e_old mob H1 H2 Hrev Hmob)
      as (g' & e & e_rev & Hrun & _ & _ & Hedges & _ & _ & _ & _ & _ & _ & _ & _ & Hl).
    rewrite Hw in Hl. destruct Hl as (t & p & Hl).
    exists g', e, t, p. split; [done|]. split; [|done].
    rewrite Hedges. apply lookup_insert_eq.
  - destruct (add_edge_run_fresh g a b w ld n1 n2 H1 H2 Hrev)
      as (g' & e & Hrun & _ & _ & Hedges & _ & _ & _ & _ & _ & Hl).
    rewrite Hw in Hl. destruct Hl as (t & p & Hl).
    exists g', e, t, p. split; [done|]. split; [|done].
    rewrite Hedges. apply lookup_insert_eq.
Qed.

(** ** Edges are drawn on lines of their own *)

Lemma add_node_drawn (g : MGraph) (name : string) (position : Point3D) :
  drawn g → drawn (state_of (MGraph.add_node text_extent name position g)).
Proof.
  intros Hd. rewrite add_node_run. unfold drawn.
  cbn [state_of nodes edges lines next_id set_submobjects set_submob_dict
         set_nodes set_next_id].
  intros k e Hk. destruct (Hd k e Hk) as (Hid & Hline & l & Hl & Hne).
  split; [lia|]. split; [lia|]. by exists l.
Qed.

Lemma add_edge_drawn (g : MGraph) (a b : string) (w : Py.value) (ld : Qc) :
  registered g → drawn g →
  drawn (state_of (MGraph.add_edge text_extent norm a b w ld g)).
Proof.
  intros Hreg Hd.
  destruct (nodes g !! a) as [n1|] eqn:H1;
    [|by rewrite add_edge_run_missing by (by left)].
  destruct (nodes g !! b) as [n2|] eqn:H2;
    [|by rewrite add_edge_run_missing by (by right)].
  assert (∀ k e, edges g !! k = Some e →
            ∀ x, (edge_id e < S (S x + next_id g))%nat
                 ∧ (line e < S (S x + next_id g))%nat
                 ∧ ∃ l, <[next_id g := {| ends := MGraph.boundary_line norm n1 n2;
                                          has_tip := true |}]> (lines g) !! line e
                        = Some l
                        ∧ line_start (ends l) ≠ line_end (ends l)) as Hold1.
  { intros k e Hk x. destruct (Hd k e Hk) as (Hid & Hline & l & Hl & Hne).
    split; [lia|]. split; [lia|]. exists l. split; [|done].
    rewrite lookup_insert_ne by lia. done. }
  assert (∀ k e, edges g !! k = Some e →
            ∀ x, (edge_id e < S (S x + next_id g))%nat
                 ∧ (line e < S (S x + next_id g))%nat
                 ∧ ∃ l, <[next_id g := {| ends := MGraph.boundary_line norm n2 n1;
                                          has_tip := false |}]> (lines g) !! line e
                        = Some l
                        ∧ line_start (ends l) ≠ line_end (ends l)) as Hold2.
  { intros k e Hk x. destruct (Hd k e Hk) as (Hid & Hline & l & Hl & Hne).
    split; [lia|]. split; [lia|]. exists l. split; [|done].
    rewrite lookup_insert_ne by lia. done. }
  destruct (edges g !! (b, a)) as [e_old|] eqn:Hrev.
  - destruct (Hreg (b, a)) as [mob Hmob]; [eauto|].
    destruct (add_edge_run_reverse g a b w ld n1 n2 e_old mob H1 H2 Hrev Hmob)
      as (g' & e & e_rev & -> & _ & Hnext & Hedges & Hid & Hline & Hid' & Hline'
          & _ & _ & _ & Hlines & _).
    simpl. intros k e'. rewrite Hedges, Hnext, Hlines.
    rewrite !lookup_insert_Some.
    intros [[_ <-]|[_ [[_ <-]|[_ Hk]]]].
    + rewrite Hid, Hline. split; [lia|]. split; [lia|].
      eexists. rewrite lookup_insert_eq. split; [done|]. apply boundary_line_differ.
    + rewrite Hid', Hline'. split; [lia|]. split; [lia|].
      eexists. rewrite lookup_insert_eq. split; [done|]. apply boundary_line_differ.
    + apply (Hold2 k e' Hk 1%nat).
  - destruct (add_edge_run_fresh g a b w ld n1 n2 H1 H2 Hrev)
      as (g' & e & -> & _ & Hnext & Hedges & Hid & Hline & _ & _ & Hlines & _).
    simpl. intros k e'. rewrite Hedges, Hnext, Hlines.
    rewrite !lookup_insert_Some.
    intros [[_ <-]|[_ Hk]].
    + rewrite Hid, Hline. split; [lia|]. split; [lia|].
      eexists. rewrite lookup_insert_eq. split; [done|]. apply boundary_line_differ.
    + apply (Hold1 k e' Hk 0%nat).
Qed.

Lemma graph_call_drawn (call : GraphCall) (g : MGraph) :
  (registered g ∧ distinct_nodes g) ∧ drawn g →
  (registered (state_of (graph_call text_extent norm call g))
   ∧ distinct_nodes (state_of (graph_call text_extent norm call g)))
  ∧ drawn (state_of (graph_call text_extent norm call g)).
Proof.
  intros [[Hreg Hdist] Hd]. destruct call as [name position|a b w ld]; simpl.
  - split; [split|].
    + by apply add_node_registered.
    + by apply add_node_distinct.
    + by apply add_node_drawn.
  - split; [by apply add_edge_preserves|by apply add_edge_drawn].
Qed.

(** Every graph built through the interface has its edges registered, holds
    distinct node objects, and has every edge drawn on a line of the store. *)
Lemma graph_script_invariant (graph : list (string * list Dest))
    (nodes_position : gmap string Point3D) (style : Style)
    (script : list GraphCall) :
  let g := run_graph_script (graph_call text_extent norm) script
             (MGraph.new text_extent norm graph nodes_position style) in
  (registered g ∧ distinct_nodes g) ∧ drawn g.
Proof.
  intros g. subst g.
  set (P := λ g, (registered g ∧ distinct_nodes g) ∧ drawn g).
  assert (P (MGraph.new text_extent norm graph nodes_position style)) as Hnew.
  { unfold MGraph.new. rewrite init_unfold.
    apply state_of_bind.
    - apply for_each_preserves.
      + intros entry s Hs. apply (graph_call_drawn (GraphAddNode _ _) s Hs).
      + split; [split|]; [by intros k [? ?]| |by intros k e ?].
        split; [by intros k n ?|by intros k1 k2 n1 n2 ?].
    - intros _ s Hs. apply for_each_preserves; [|done].
      intros entry s1 Hs1. apply for_each_preserves; [|done].
      intros dest s2 Hs2. destruct dest as [name|name weight|]; [| |done].
      + apply (graph_call_drawn (GraphAddEdge _ _ _ _) s2 Hs2).
      + apply (graph_call_drawn (GraphAddEdge _ _ _ _) s2 Hs2). }
  revert Hnew. generalize (MGraph.new text_extent norm graph nodes_position style).
  induction script as [|call rest IH]; intros g0 H0; [done|].
  simpl. apply IH. by apply graph_call_drawn.
Qed.

(** ** What stays attached *)

(** X23. [add_node] with a name already present, on a graph that holds
    distinct node objects: the key of the name now leads to the new node, but
    the node object it replaces is not removed from the children of the VDict
    (it stays drawn). No edge and no line is touched: the edges of the
    replaced node keep the end points they had. *)
Theorem add_node_keeps_old_child (g : MGraph) (name : string) (position : Point3D)
    (old : Node) :
  nodes g !! name = Some old →
  distinct_nodes g →
  node_id old ∈ submobjects g →
  ∃ g', MGraph.add_node text_extent name position g = Ret tt g'
        ∧ submob_dict g' !! inl name = Some (next_id g)
        ∧ next_id g ≠ node_id old
        ∧ node_id old ∈ submobjects g'
        ∧ next_id g ∈ submobjects g'
        ∧ edges g' = edges g
        ∧ lines g' = lines g.
Proof.
  intros Hold [Hlt _] Hin. rewrite add_node_run. eexists. split; [reflexivity|].
  pose proof (Hlt _ _ Hold) as Hid. simpl.
  split; [by rewrite lookup_insert_eq|]. split; [lia|].
  unfold Mobject.add. split_and!; try done.
  - apply elem_of_app. left. apply list_elem_of_filter. split; [lia|done].
  - apply elem_of_app. right. by apply list_elem_of_singleton.
Qed.

(** X24. [add_edge] under a name that already holds an edge, between two
    existing nodes with no opposite edge, on a graph whose edges were created
    before now: the key of the name now leads to the new edge, but the edge
    object it replaces is not removed from the children of the VDict (it stays
    drawn, on the line it had). *)
Theorem add_edge_keeps_old_child (g : MGraph) (a b : string) (w : Py.value)
    (ld : Qc) (e_old : Edge) :
  is_Some (nodes g !! a) → is_Some (nodes g !! b) →
  edges g !! (b, a) = None →
  edges g !! (a, b) = Some e_old →
  drawn g →
  edge_id e_old ∈ submobjects g →
  ∃ g' e, MGraph.add_edge text_extent norm a b w ld g = Ret tt g'
          ∧ edges g' !! (a, b) = Some e
          ∧ submob_dict g' !! inr (a, b) = Some (edge_id e)
          ∧ edge_id e ≠ edge_id e_old
          ∧ edge_id e_old ∈ submobjects g'
          ∧ edge_id e ∈ submobjects g'
          ∧ lines g' !! line e_old = lines g !! line e_old.
Proof.
  intros [n1 H1] [n2 H2] Hrev Hold Hd Hin.
  destruct (Hd _ _ Hold) as (Hid & Hline & _).
  destruct (add_edge_run_fresh g a b w ld n1 n2 H1 H2 Hrev)
    as (g' & e & Hrun & _ & _ & Hedges & Hide & _ & Hdict & Hsub & Hlines & _).
  exists g', e. split; [done|].
  rewrite Hedges, Hdict, Hsub, Hlines, !lookup_insert_eq, Hide.
  split_and!; try done.
  - lia.
  - unfold Mobject.add. apply elem_of_app. left.
    apply list_elem_of_filter. split; [lia|done].
  - unfold Mobject.add. apply elem_of_app. right. by apply list_elem_of_singleton.
  - rewrite lookup_insert_ne by lia. done.
Qed.

End GraphEdges.

Lemma add_edge_weight_label_witness :
  ∃ (g' : Graph.MGraph) (e : Graph.Edge) (t : Text) (p : Point3D),
    MGraph.add_edge sample_extent sample_norm "A" "B" (PyInt 5) (Q2Qc (Qmake 1 5))
      sample_graph = Ret tt g'
    ∧ Graph.edges g' !! ("A", "B") = Some e
    ∧ Graph.label e = Some t
    ∧ text t = str (PyInt 5)
    ∧ font_size t = Graph.edge_weight_font_size (Graph.style sample_graph)
    ∧ MGraph._get_label_position sample_norm e (Q2Qc (Qmake 1 5)) g' = Ret p g'
    ∧ get_center (Text_box t) = p.
Proof.
  apply (add_edge_weight_label sample_extent sample_norm sample_graph "A" "B").
  - vm_compute. eexists. reflexivity.
  - vm_compute. eexists. reflexivity.
  - apply new_graph_invariant.
  - reflexivity.
Defined.

Lemma add_node_keeps_old_child_witness :
  ∃ g', MGraph.add_node sample_extent "A" ORIGIN sample_graph = Ret tt g'
        ∧ Graph.submob_dict g' !! inl "A" = Some (Graph.next_id sample_graph)
        ∧ Graph.next_id sample_graph ≠ 0%nat
        ∧ 0%nat ∈ Graph.submobjects g'
        ∧ Graph.next_id sample_graph ∈ Graph.submobjects g'
        ∧ Graph.edges g' = Graph.edges sample_graph
        ∧ Graph.lines g' = Graph.lines sample_graph.
Proof.
  apply (add_node_keeps_old_child sample_extent sample_graph "A" ORIGIN
           (MGraph.Node_init sample_extent 0 (Graph.node_radius Graph.DEFAULT)
              (Graph.node_label_font_size Graph.DEFAULT) "A" (Point (-2) 0 0))).
  - vm_compute. reflexivity.
  - apply new_graph_invariant.
  - apply (bool_decide_unpack _). vm_compute. exact I.
Defined.

Lemma add_edge_keeps_old_child_witness :
  let g := run_graph_script (graph_call sample_extent sample_norm)
             [GraphAddEdge "A" "B" PyNone (Q2Qc (Qmake 1 5))]
             (MGraph.new sample_extent sample_norm [("A", []); ("B", [])]
                (<["A" := Point (-2) 0 0]> (<["B" := Point 2 0 0]> ∅)) Graph.DEFAULT) in
  ∃ e_old,
    Graph.edges g !! ("A", "B") = Some e_old
    ∧ ∃ g' e,
        MGraph.add_edge sample_extent sample_norm "A" "B" (PyInt 2) (Q2Qc (Qmake 1 5)) g
        = Ret tt g'
        ∧ Graph.edges g' !! ("A", "B") = Some e
        ∧ Graph.submob_dict g' !! inr ("A", "B") = Some (Graph.edge_id e)
        ∧ Graph.edge_id e ≠ Graph.edge_id e_old
        ∧ Graph.edge_id e_old ∈ Graph.submobjects g'
        ∧ Graph.edge_id e ∈ Graph.submobjects g'
        ∧ Graph.lines g' !! Graph.line e_old = Graph.lines g !! Graph.line e_old.
Proof.
  intros g. eexists. split; [vm_compute; reflexivity|].
  apply (add_edge_keeps_old_child sample_extent sample_norm g "A" "B").
  - vm_compute. eexists. reflexivity.
  - vm_compute. eexists. reflexivity.
  - vm_compute. reflexivity.
  - vm_compute. reflexivity.
  - apply (graph_script_invariant sample_extent sample_norm).
  - apply (bool_decide_unpack _). vm_compute. exact I.
Defined.

(** * The values follow a Python list *)

Section Values.

Variable text_extent : string → Qc → Qc * Qc.

Lemma values_elements (c : MCollection) (l : list MElement) :
  values (set_elements l c) = (λ e, text (value e)) <$> l.
Proof. done. Qed.

Lemma values_fmap (f : MElement → MElement) (l : list MElement) :
  (∀ e, text (value (f e)) = text (value e)) →
  (λ e, text (value e)) <$> (f <$> l) = (λ e, text (value e)) <$> l.
Proof.
  intros Hf. rewrite <- list_fmap_compose. apply list_fmap_ext.
  intros _ e _. apply Hf.
Qed.

Lemma values_alter (f : MElement → MElement) (k : nat) (l : list MElement) :
  (∀ e, text (value (f e)) = text (value e)) →
  (λ e, text (value e)) <$> alter f k l = (λ e, text (value e)) <$> l.
Proof.
  intros Hf. apply list_eq. intros m. rewrite !list_lookup_fmap.
  destruct (decide (m = k)) as [->|Hne].
  - rewrite list_lookup_alter_eq. destruct (l !! k); [|done]. simpl. by rewrite Hf.
  - by rewrite list_lookup_alter_ne.
Qed.

Lemma values_shift_slice (i : Z) (v : Point3D) (l : list MElement) :
  (λ e, text (value e)) <$> shift_slice i v l = (λ e, text (value e)) <$> l.
Proof.
  unfold shift_slice. generalize (slice_start (length l) i). intros k.
  rewrite <- (take_drop k l) at 3. rewrite !fmap_app. f_equal.
  by apply values_fmap.
Qed.

Lemma values_update_item (c : MCollection) (i : Z) (f : MElement → MElement) :
  (∀ e, text (value (f e)) = text (value e)) →
  values (state_of (update_item i f c)) = values c.
Proof.
  intros Hf. rewrite update_item_run.
  destruct (subscript (length (elements c)) i) as [k|]; [|done].
  simpl. rewrite values_elements. by apply values_alter.
Qed.

Lemma values_pop (c : MCollection) (index : Z) :
  values (state_of (MCollection.pop index c)) = list_pop index (values c).
Proof.
  unfold list_pop, values at 2 3. rewrite length_fmap.
  destruct (elements c) as [|e0 l0] eqn:Hel.
  { rewrite pop_run_empty by done. unfold values. rewrite Hel. simpl.
    rewrite Hel. by destruct (subscript 0 index). }
  rewrite <- Hel.
  destruct (subscript (length (elements c)) index) as [k|] eqn:Hk.
  2: { rewrite pop_run_outside; [done|by rewrite Hel|done]. }
  destruct (lookup_lt_is_Some_2 (elements c) k) as [e He];
    [by eapply subscript_lt|].
  rewrite (pop_run c index k e Hk He). simpl.
  by rewrite values_elements, values_shift_slice, list_fmap_delete.
Qed.

Lemma values_set_index_loop (positions : list Z) (old_index : Text) (c : MCollection) :
  values (state_of (MArray._set_index_loop positions old_index c)) = values c.
Proof.
  revert old_index c. induction positions as [|i rest IH]; intros old_index c;
    [done|].
  simpl. unfold bind at 1. rewrite item_run.
  destruct (getitem (elements c) i) as [curr|]; [|done].
  unfold bind at 1, lookup_or.
  destruct (index curr) as [curr_index|]; [|done].
  unfold ret at 1. unfold bind at 1.
  pose proof (values_update_item c i
    (with_index (Some (Text_move_to old_index (Text_box curr_index))))
    (λ _, eq_refl)) as Hs.
  destruct (update_item i _ c) as [[] c1|ex c1]; simpl in Hs; [|done].
  by rewrite IH.
Qed.

Lemma values_MArray_pop (c : MCollection) (index : Z) :
  values (state_of (MArray.pop index c)) = list_pop index (values c).
Proof.
  unfold MArray.pop. unfold bind at 1, get.
  case_decide as Hlen.
  2: { simpl. unfold list_pop, values. rewrite length_fmap.
       assert (elements c = []) as -> by (apply length_zero_iff_nil; lia).
       by destruct (subscript _ index). }
  unfold bind at 1. rewrite item_run.
  destruct (getitem (elements c) index) as [popped_element|] eqn:Hitem.
  2: { simpl. unfold list_pop, values. rewrite length_fmap.
       by rewrite (proj1 (subscript_getitem _ _) Hitem). }
  unfold bind at 1.
  pose proof (values_pop c index) as Hs.
  destruct (MCollection.pop index c) as [[] c1|ex c1]; simpl in Hs; [|done].
  unfold bind at 1, get.
  destruct (_index_enabled c1); [|done].
  unfold bind at 1, lookup_or.
  destruct (Collection.index popped_element) as [popped_index|]; [|done].
  unfold ret at 1. unfold MArray._set_index_from.
  by rewrite values_set_index_loop.
Qed.

Lemma values_MStack_pop (c : MCollection) :
  values (state_of (MStack.pop c)) = list_pop (-1) (values c).
Proof.
  unfold MStack.pop. unfold bind at 1, get. rewrite values_pop.
  unfold list_pop, values. rewrite length_fmap.
  destruct (decide (length (elements c) = 0%nat)) as [Hz|Hnz].
  - by apply length_zero_iff_nil in Hz as ->.
  - by rewrite subscript_nonneg, subscript_negative by lia.
Qed.

Lemma values_add_indexes (c : MCollection) (direction : Point3D) (buff : Qc) :
  values (state_of (MArray.add_indexes text_extent direction buff c)) = values c.
Proof.
  unfold MArray.add_indexes. run_monad.
  destruct (_index_enabled c); [done|].
  destruct (array_equal _ _); [done|].
  simpl. unfold values. simpl. apply list_eq. intros k.
  rewrite !list_lookup_fmap, list_lookup_imap.
  by destruct (elements c !! k).
Qed.

Lemma values_MArray_append (c : MCollection) (v : Py.value) :
  captioned c →
  values (state_of (MArray.append text_extent v c)) = values c ++ [str v].
Proof.
  intros Hc.
  destruct (MArray_append_run text_extent c v Hc)
    as (e & c' & -> & Hel & _ & _ & Ht & _).
  simpl. unfold values. rewrite Hel, fmap_app. simpl. by rewrite Ht.
Qed.

Lemma MCollection_append_run (c : MCollection) (v : Py.value) :
  ∃ e c', MCollection.append text_extent v c = Ret tt c'
          ∧ elements c' = elements c ++ [e]
          ∧ _index_enabled c' = _index_enabled c
          ∧ text (value e) = str v.
Proof.
  unfold MCollection.append, MCollection._update_style.
  rewrite (bind_run _ _ _ _ _ (modify_run _ _)).
  match goal with |- context [bind _ _ ?s] =>
    destruct (append_placed_run text_extent s v) as (e & -> & Hu & Ht & Hi & Hp)
  end.
  by eexists e, _.
Qed.

Lemma values_MCollection_append (c : MCollection) (v : Py.value) :
  values (state_of (MCollection.append text_extent v c)) = values c ++ [str v].
Proof.
  destruct (MCollection_append_run c v) as (e & c' & -> & Hel & _ & Ht).
  simpl. unfold values. rewrite Hel, fmap_app. simpl. by rewrite Ht.
Qed.

Lemma values_group_move_to (c : MCollection) (point : Point3D) :
  values (group_move_to point c) = values c.
Proof.
  unfold group_move_to, group_shift, values. simpl. by apply values_fmap.
Qed.

(** The loop of the constructors: every value becomes an element, in order. *)
Lemma values_for_each_append (append : Py.value → M MCollection unit)
    (P : MCollection → Prop) (arr : list Py.value) (c : MCollection) :
  (∀ v c, P c → ∃ c', append v c = Ret tt c' ∧ P c'
                      ∧ values c' = values c ++ [str v]) →
  P c →
  ∃ c', for_each arr append c = Ret tt c' ∧ P c'
        ∧ values c' = values c ++ (str <$> arr).
Proof.
  intros Happend. revert c. induction arr as [|v arr IH]; intros c Hc.
  { exists c. by rewrite app_nil_r. }
  destruct (Happend v c Hc) as (c1 & Hrun1 & Hc1 & Hv1).
  destruct (IH c1 Hc1) as (c2 & Hrun2 & Hc2 & Hv2).
  exists c2. simpl. rewrite (bind_run _ _ _ _ _ Hrun1).
  split; [done|]. split; [done|]. by rewrite Hv2, Hv1, <- app_assoc.
Qed.

Lemma values_MArray_new (arr : list Py.value) (direction : Point3D) (style : Style) :
  values (MArray.new text_extent arr direction style) = str <$> arr.
Proof.
  unfold MArray.new, MArray.__init__.
  rewrite (bind_run _ _ _ _ _ (modify_run _ _)).
  apply (state_of_bind (λ c, values c = str <$> arr)).
  - unfold MCollection.__init__.
    rewrite (bind_run _ _ _ _ _ (modify_run _ _)).
    match goal with |- context [bind (for_each _ _) _ ?s] =>
      destruct (values_for_each_append (MArray.append text_extent)
                  (λ c, _index_enabled c = false) arr s)
        as (c1 & Hrun & _ & Hv); [|done|]
    end.
    { intros v c Hc.
      destruct (MArray_append_run text_extent c v) as (e & c' & Hrun & Hel & _ & Hen & Ht & _).
      { intros Hen. by rewrite Hc in Hen. }
      exists c'. split; [done|]. split; [by rewrite Hen|].
      unfold values. rewrite Hel, fmap_app. simpl. by rewrite Ht. }
    rewrite (bind_run _ _ _ _ _ Hrun). simpl.
    by rewrite values_group_move_to, Hv.
  - intros _ c Hc. run_monad. done.
Qed.

Lemma values_MStack_new (arr : list Py.value) (buff : Qc) (style : Style) :
  values (MStack.new text_extent arr buff style) = str <$> arr.
Proof.
  unfold MStack.new, MStack.__init__.
  apply (state_of_bind (λ c, values c = str <$> arr)).
  - unfold MCollection.__init__.
    rewrite (bind_run _ _ _ _ _ (modify_run _ _)).
    match goal with |- context [bind (for_each _ _) _ ?s] =>
      destruct (values_for_each_append (MStack.append text_extent)
                  (λ _, True) arr s)
        as (c1 & Hrun & _ & Hv); [|done|]
    end.
    { intros v c _.
      destruct (MCollection_append_run c v) as (e & c' & Hrun & Hel & _ & Ht).
      exists c'. split; [done|]. split; [done|].
      unfold values. rewrite Hel, fmap_app. simpl. by rewrite Ht. }
    rewrite (bind_run _ _ _ _ _ Hrun). simpl.
    by rewrite values_group_move_to, Hv.
  - intros _ c Hc. run_monad. simpl. by rewrite values_group_move_to.
Qed.

(** X25. The values an array or a stack shows follow the Python list of their
    texts. The constructor shows [str(v)] for every value of its list, in
    order; [append(v)] adds [str(v)] at the end; [pop] removes the position
    [list.pop] removes for the same index, a negative one included, and
    removes nothing when the index is outside the list or the list is empty;
    [add_indexes] changes no value. This holds after every script of calls,
    whatever they return or raise. *)
Theorem values_follow_list (arr : list Py.value) (direction : Point3D) (buff : Qc)
    (style : Style) (array_script : list ArrayCall) (stack_script : list StackCall) :
  values (run_script (array_call text_extent) array_script
            (MArray.new text_extent arr direction style))
  = foldl (λ l call, array_list_call call l) (str <$> arr) array_script
  ∧ values (run_script (stack_call text_extent) stack_script
              (MStack.new text_extent arr buff style))
    = foldl (λ l call, stack_list_call call l) (str <$> arr) stack_script.
Proof.
  split.
  - assert (captioned (MArray.new text_extent arr direction style)) as Hc.
    { intros Hen. by rewrite flag_MArray_new in Hen. }
    rewrite <- (values_MArray_new arr direction style).
    revert Hc. generalize (MArray.new text_extent arr direction style).
    induction array_script as [|call rest IH]; intros c Hc; [done|].
    simpl. destruct call as [v|index|dir b]; simpl.
    + rewrite <- (values_MArray_append c v Hc).
      apply IH. by apply captioned_MArray_append.
    + rewrite <- (values_MArray_pop c index).
      apply IH. by apply captioned_MArray_pop.
    + rewrite <- (values_add_indexes c dir b).
      apply IH. by apply captioned_add_indexes.
  - rewrite <- (values_MStack_new arr buff style).
    generalize (MStack.new text_extent arr buff style).
    induction stack_script as [|call rest IH]; intros c; [done|].
    simpl. destruct call as [v|]; simpl.
    + rewrite <- (values_MCollection_append c v). apply IH.
    + rewrite <- (values_MStack_pop c). apply IH.
Qed.

End Values.

(** * Where the captions and the collection are put *)

Section Placement.

Variable text_extent : string → Qc → Qc * Qc.

(** X26. [add_indexes] on an array without indexing, in a direction that
    passes the test of the code (its absolute value differs from that of the
    growth direction in some component): the call returns and switches
    indexing on in that direction. Every element keeps its square and its
    value and gets a caption that reads its position, put against its square:
    the side of the caption facing against [direction] lies [buff] beyond the
    side of the square facing along it. *)
Theorem add_indexes_places_captions (c : MCollection) (direction : Point3D)
    (buff : Qc) :
  _index_enabled c = false →
  array_equal (vabs (_dir c)) (vabs direction) = false →
  ∃ c', MArray.add_indexes text_extent direction buff c = Ret tt c'
        ∧ _index_enabled c' = true
        ∧ _index_dir c' = Some direction
        ∧ length (elements c') = length (elements c)
        ∧ ∀ (k : nat) e, elements c !! k = Some e →
            ∃ t, elements c' !! k = Some (with_index (Some t) e)
                 ∧ text t = str (PyInt (Z.of_nat k))
                 ∧ get_critical_point (Text_box t) (vneg direction)
                   = vadd (get_critical_point (Rectangle_box (square e)) direction)
                          (vscale buff direction).
Proof.
  intros Hen Hpar. unfold MArray.add_indexes. run_monad. rewrite Hen, Hpar.
  eexists. split; [reflexivity|]. simpl.
  split; [done|]. split; [done|]. split; [by rewrite length_imap|].
  intros k e He. rewrite list_lookup_imap, He. simpl.
  eexists. split; [reflexivity|]. simpl. split; [by rewrite pretty_nat_Z|].
  rewrite Text_box_shift, get_critical_point_shift. apply next_to_lands.
Qed.

(** ** The constructors centre the collection *)

Lemma Line_box_shift (l : Line) (v : Point3D) :
  Line_box (Line_shift v l) = box_shift v (Line_box l).
Proof.
  unfold Line_box, Line_shift, box_shift, vadd. simpl.
  by rewrite !Qcmin_shift, !Qcmax_shift.
Qed.

Lemma Container_box_shift (k : Container) (v : Point3D) :
  Container_box (Container_shift v k) = box_shift v (Container_box k).
Proof.
  unfold Container_box, Container_shift. simpl.
  by rewrite !Line_box_shift, !box_union_shift.
Qed.

Lemma foldl_box_shift (v : Point3D) (l : list MElement) (b : Box) :
  foldl (λ b e, box_union b (MElement_box e)) (box_shift v b) (MElement_shift v <$> l)
  = box_shift v (foldl (λ b e, box_union b (MElement_box e)) b l).
Proof.
  revert b. induction l as [|e l IH]; intros b; [done|].
  simpl. by rewrite MElement_box_shift, box_union_shift, IH.
Qed.

Lemma group_box_shift (v : Point3D) (c : MCollection) :
  group_box (group_shift v c) = box_shift v (group_box c).
Proof.
  unfold group_box, group_shift. simpl.
  rewrite MElement_box_shift, foldl_box_shift.
  destruct (container c) as [k|]; simpl; [|done].
  by rewrite Container_box_shift, box_union_shift.
Qed.

Lemma group_move_to_center (point : Point3D) (c : MCollection) :
  get_center (group_box (group_move_to point c)) = point.
Proof.
  unfold group_move_to, get_center. rewrite group_box_shift, get_critical_point_shift.
  apply move_to_lands.
Qed.

Lemma Text_shift_zero (t : Text) (p q : Point3D) :
  p = q → Text_shift (vsub p q) t = t.
Proof.
  intros ->. destruct t as [s fs [ctr w h]]. unfold Text_shift, Rectangle_shift.
  simpl. do 2 f_equal. vec_ring.
Qed.

(** An element whose value is centred on its square and which has no
    caption: making an element of its square and value again changes no
    geometry. *)
Lemma MElement_init_again (u : nat) (e : MElement) :
  get_center (Text_box (value e)) = get_center (Rectangle_box (square e)) →
  index e = None →
  MElement_box (MElement_init u (square e) (value e)) = MElement_box e.
Proof.
  intros Hc Hi. unfold MElement_init, MElement_box, body_box. simpl.
  rewrite Hi. unfold Text_move_to, move_to_vector.
  fold (get_center (Rectangle_box (square e))) (get_center (Text_box (value e))).
  by rewrite Text_shift_zero.
Qed.

Lemma centred_shift (v : Point3D) (e : MElement) :
  get_center (Text_box (value e)) = get_center (Rectangle_box (square e)) →
  get_center (Text_box (value (MElement_shift v e)))
  = get_center (Rectangle_box (square (MElement_shift v e))).
Proof.
  intros H. unfold get_center in *. simpl.
  by rewrite Text_box_shift, Rectangle_box_shift, !get_critical_point_shift, H.
Qed.

Lemma hidden_MArray_append (c : MCollection) (v : Py.value) :
  _index_enabled c = false →
  ∃ c', MArray.append text_extent v c = Ret tt c'
        ∧ _index_enabled c' = false
        ∧ _hidden_element c' = _hidden_element c
        ∧ container c' = container c.
Proof.
  intros Hen. unfold MArray.append. unfold bind at 1.
  assert (∃ s, MArray._update_style c = Ret tt (set_style s c)) as [s ->].
  { unfold MArray._update_style, MCollection._update_style. run_monad. simpl.
    rewrite Hen. by eexists. }
  rewrite <- bind_assoc.
  destruct (append_placed_run text_extent (set_style s c) v) as (e & Hrun & _).
  rewrite (bind_run _ _ _ _ _ Hrun).
  unfold bind at 1, get. simpl. rewrite Hen. by eexists.
Qed.

Lemma hidden_MCollection_append (c : MCollection) (v : Py.value) :
  ∃ c', MCollection.append text_extent v c = Ret tt c'.
Proof.
  unfold MCollection.append, MCollection._update_style.
  rewrite (bind_run _ _ _ _ _ (modify_run _ _)).
  match goal with |- context [bind _ _ ?s] =>
    destruct (append_placed_run text_extent s v) as (e & -> & _)
  end.
  by eexists.
Qed.

Lemma for_each_returns {A} (P : MCollection → Prop) (l : list A)
    (body : A → M MCollection unit) (c : MCollection) :
  (∀ a c, P c → ∃ c', body a c = Ret tt c' ∧ P c') →
  P c → ∃ c', for_each l body c = Ret tt c' ∧ P c'.
Proof.
  intros Hbody. revert c. induction l as [|a l IH]; intros c Hc.
  { by exists c. }
  destruct (Hbody a c Hc) as (c1 & Hrun1 & Hc1).
  destruct (IH c1 Hc1) as (c2 & Hrun2 & Hc2).
  exists c2. simpl. by rewrite (bind_run _ _ _ _ _ Hrun1).
Qed.

(** X27. A collection fresh from its constructor is centred on the origin:
    the centre of the bounding box of the whole group of [MArray(arr,
    direction, style)], and of [MStack(arr, buff, style)] with its container,
    is ORIGIN, whatever the values. *)
Theorem constructors_centre_on_origin (arr : list Py.value) (direction : Point3D)
    (buff : Qc) (style : Style) :
  get_center (group_box (MArray.new text_extent arr direction style)) = ORIGIN
  ∧ get_center (group_box (MStack.new text_extent arr buff style)) = ORIGIN.
Proof.
  split.
  - unfold MArray.new, MArray.__init__.
    rewrite (bind_run _ _ _ _ _ (modify_run _ _)).
    unfold MCollection.__init__.
    rewrite !bind_assoc, (bind_run _ _ _ _ _ (modify_run _ _)).
    rewrite ?bind_assoc.
    match goal with |- context [bind (for_each _ _) _ ?s] =>
      set (c0 := s);
      destruct (for_each_returns
                  (λ c, _index_enabled c = false
                        ∧ _hidden_element c = _hidden_element c0
                        ∧ container c = None)
                  arr (MArray.append text_extent) c0)
        as (c1 & Hrun & Hen & Hh & Hk); [|done|]
    end.
    { intros v c (Hen & Hh & Hk).
      destruct (hidden_MArray_append c v Hen) as (c' & Hrun & Hen' & Hh' & Hk').
      exists c'. split; [done|]. split; [done|].
      split; [by rewrite Hh'|by rewrite Hk']. }
    rewrite ?bind_assoc, (bind_run _ _ _ _ _ Hrun).
    rewrite ?bind_assoc, (bind_run _ _ _ _ _ (modify_run _ _)).
    set (c2 := group_move_to ORIGIN c1).
    run_monad. cbn [state_of].
    transitivity (get_center (group_box c2)); [|apply group_move_to_center].
    f_equal. unfold group_box.
    cbn [elements container _hidden_element set_submobjects set_hidden_element
           set_next_uid].
    assert (MElement_box (MElement_init (next_uid c2) (square (_hidden_element c2))
                            (value (_hidden_element c2)))
            = MElement_box (_hidden_element c2)) as ->; [|done].
    apply MElement_init_again.
    + unfold c2, group_move_to, group_shift.
      cbn [_hidden_element set_container set_hidden_element set_elements].
      apply centred_shift. rewrite Hh. unfold c0.
      cbn [_hidden_element MElement_init value square].
      apply Text_move_to_center.
    + unfold c2, group_move_to, group_shift.
      cbn [_hidden_element set_container set_hidden_element set_elements].
      rewrite Hh. done.
  - unfold MStack.new, MStack.__init__.
    unfold MCollection.__init__.
    rewrite !bind_assoc, (bind_run _ _ _ _ _ (modify_run _ _)).
    rewrite ?bind_assoc.
    match goal with |- context [bind (for_each _ _) _ ?s] =>
      destruct (for_each_returns (λ _, True) arr (MStack.append text_extent) s)
        as (c1 & Hrun & _); [|done|]
    end.
    { intros v c _. destruct (hidden_MCollection_append c v) as (c' & Hrun).
      by exists c'. }
    rewrite ?bind_assoc, (bind_run _ _ _ _ _ Hrun).
    rewrite ?bind_assoc, (bind_run _ _ _ _ _ (modify_run _ _)).
    run_monad. apply group_move_to_center.
Qed.

End Placement.

Lemma add_indexes_places_captions_witness :
  ∃ c', MArray.add_indexes sample_extent UP DEFAULT_MOBJECT_TO_MOBJECT_BUFFER
          sample_array = Ret tt c'
        ∧ _index_enabled c' = true
        ∧ _index_dir c' = Some UP
        ∧ length (elements c') = length (elements sample_array)
        ∧ ∀ (k : nat) e, elements sample_array !! k = Some e →
            ∃ t, elements c' !! k = Some (with_index (Some t) e)
                 ∧ text t = str (PyInt (Z.of_nat k))
                 ∧ get_critical_point (Text_box t) (vneg UP)
                   = vadd (get_critical_point (Rectangle_box (square e)) UP)
                          (vscale DEFAULT_MOBJECT_TO_MOBJECT_BUFFER UP).
Proof.
  apply (add_indexes_places_captions sample_extent sample_array UP
           DEFAULT_MOBJECT_TO_MOBJECT_BUFFER).
  - vm_compute. reflexivity.
  - vm_compute. reflexivity.
Defined.

(** * swap keeps the list and the group in step *)

Section SwapChildren.

Variables (en : bool) (n : nat) (I : MElement → Prop).

Lemma tracks_item (ul : list nat) (s : list Submobject) (i : Z) (k : nat) (u : nat) :
  subscript (length ul) i = Some k → ul !! k = Some u →
  returns (tracks ul en s n I) (item i)
    (λ a c, (uid a = u ∧ I a) ∧ tracks ul en s n I c).
Proof.
  intros Hk Hu c (Hul & Hen & Hs & Hn & HI).
  assert (length (elements c) = length ul) as Hlen by (by rewrite <- Hul, length_fmap).
  rewrite <- Hlen in Hk.
  destruct (lookup_lt_is_Some_2 (elements c) k) as [e He];
    [by eapply subscript_lt|].
  exists e, c. rewrite item_run, (getitem_lookup _ _ _ Hk), He.
  split; [done|]. split; [|done]. split.
  - rewrite <- Hul, list_lookup_fmap, He in Hu. by injection Hu.
  - by apply (proj1 (Forall_lookup _ _) HI k e).
Qed.

Lemma tracks_update_keep (ul : list nat) (s : list Submobject) (i : Z) (k : nat)
    (f : MElement → MElement) :
  (∀ e, uid (f e) = uid e) → (∀ e, I e → I (f e)) →
  subscript (length ul) i = Some k →
  returns (tracks ul en s n I) (update_item i f) (λ _, tracks ul en s n I).
Proof.
  intros Hf HfI Hk c (Hul & Hen & Hs & Hn & HI).
  assert (length (elements c) = length ul) as Hlen by (by rewrite <- Hul, length_fmap).
  rewrite <- Hlen in Hk.
  eexists tt, _. rewrite update_item_run, Hk. split; [done|].
  unfold tracks. simpl. split_and!; try done.
  - by rewrite uid_alter.
  - apply Forall_alter; [done|]. intros e _. apply HfI.
Qed.

Lemma tracks_update_set (ul : list nat) (s : list Submobject) (i : Z) (k : nat)
    (e : MElement) :
  I e → subscript (length ul) i = Some k →
  returns (tracks ul en s n I) (update_item i (λ _, e))
    (λ _, tracks (<[k := uid e]> ul) en s n I).
Proof.
  intros He Hk c (Hul & Hen & Hs & Hn & HI).
  assert (length (elements c) = length ul) as Hlen by (by rewrite <- Hul, length_fmap).
  rewrite <- Hlen in Hk. pose proof (subscript_lt _ _ _ Hk) as Hlt.
  eexists tt, _. rewrite update_item_run, Hk. split; [done|].
  unfold tracks. simpl. split_and!; try done.
  - rewrite <- Hul. apply list_eq. intros m.
    rewrite list_lookup_fmap.
    destruct (decide (m = k)) as [->|Hne].
    + rewrite list_lookup_alter_eq, list_lookup_insert_eq
        by (by rewrite length_fmap).
      by destruct (lookup_lt_is_Some_2 (elements c) k Hlt) as [x ->].
    + by rewrite list_lookup_alter_ne, list_lookup_insert_ne, list_lookup_fmap.
  - apply Forall_alter; [done|]. by intros.
Qed.

Lemma tracks_attach (ul : list nat) (s : list Submobject) (m : Submobject) :
  returns (tracks ul en s n I) (attach m)
    (λ _, tracks ul en (Mobject.add m s) n I).
Proof.
  intros c (Hul & Hen & Hs & Hn & HI). eexists tt, _. split; [reflexivity|].
  unfold tracks. simpl. by rewrite Hs.
Qed.

Lemma tracks_detach (ul : list nat) (s : list Submobject) (m : Submobject) :
  returns (tracks ul en s n I) (detach m)
    (λ _, tracks ul en (Mobject.remove m s) n I).
Proof.
  intros c (Hul & Hen & Hs & Hn & HI). eexists tt, _. split; [reflexivity|].
  unfold tracks. simpl. by rewrite Hs.
Qed.

Lemma tracks_get_flag {B} (ul : list nat) (s : list Submobject)
    (k : MCollection → M MCollection B) (R : B → MCollection → Prop) :
  (∀ c0, _index_enabled c0 = en → returns (tracks ul en s n I) (k c0) R) →
  returns (tracks ul en s n I) (bind get k) R.
Proof.
  intros H c Hc. unfold bind, get. exact (H c (proj1 (proj2 Hc)) c Hc).
Qed.

Ltac tracks_step :=
  first
    [ eapply returns_bind; [eapply tracks_item; eassumption|];
      let a := fresh "a" in let Ha := fresh "Ha" in
      intros a; apply returns_assuming; intros Ha
    | eapply returns_bind; [apply tracks_detach|]; intros ?
    | eapply returns_bind; [apply tracks_attach|]; intros ? ].

Lemma tracks_swap_items (ul : list nat) (s : list Submobject) (i j : Z)
    (ki kj : nat) (ua ub : nat) :
  subscript (length ul) i = Some ki → subscript (length ul) j = Some kj →
  ul !! ki = Some ua → ul !! kj = Some ub →
  returns (tracks ul en s n I) (MCollection.swap_items i j)
    (λ _, tracks (<[kj := ua]> (<[ki := ub]> ul)) en s n I).
Proof.
  intros Hi Hj Ha Hb. unfold MCollection.swap_items.
  tracks_step. destruct Ha0 as [<- HIa].
  tracks_step. destruct Ha0 as [<- HIb].
  eapply returns_bind; [by apply (tracks_update_set _ _ i ki)|]. intros ?.
  apply (tracks_update_set _ _ j kj); [done|]. by rewrite length_insert.
Qed.

Lemma tracks_reattach (ul : list nat) (s : list Submobject) (i j : Z)
    (ki kj : nat) (ua ub : nat) :
  subscript (length ul) i = Some ki → subscript (length ul) j = Some kj →
  ul !! ki = Some ua → ul !! kj = Some ub →
  returns (tracks ul en s n I)
    (e <- item i ;; attach (Element (uid e)) ;;
     e <- item j ;; attach (Element (uid e)))
    (λ _, tracks ul en (Mobject.add (Element ub) (Mobject.add (Element ua) s)) n I).
Proof.
  intros Hi Hj Ha Hb.
  tracks_step. destruct Ha0 as [-> _].
  tracks_step.
  tracks_step. destruct Ha0 as [-> _].
  apply tracks_attach.
Qed.

End SwapChildren.

Lemma tracks_MCollection_swap (en : bool) (n : nat) (ul : list nat)
    (s : list Submobject) (i j : Z) (ki kj : nat) (ua ub x : nat) :
  subscript (length ul) i = Some ki → subscript (length ul) j = Some kj →
  ul !! ki = Some ua → ul !! kj = Some ub →
  <[kj := ua]> (<[ki := ub]> ul) !! ki = Some x →
  returns (tracks ul en s n (λ _, True)) (MCollection.swap i j)
    (λ _, tracks (<[kj := ua]> (<[ki := ub]> ul)) en
            (Mobject.add (Element ua)
               (Mobject.add (Element x)
                  (Mobject.remove (Element ub) (Mobject.remove (Element ua) s))))
            n (λ _, True)).
Proof.
  intros Hi Hj Ha Hb Hx.
  pose proof (subscript_lt _ _ _ Hi) as Hki. pose proof (subscript_lt _ _ _ Hj) as Hkj.
  unfold MCollection.swap, MCollection._visual_swap, MCollection._logic_swap.
  eapply returns_bind.
  { eapply returns_bind; [by eapply tracks_item|]. intros elem_i.
    apply returns_assuming. intros _.
    eapply returns_bind; [by eapply tracks_item|]. intros elem_j.
    apply returns_assuming. intros _.
    eapply returns_bind; [by apply (tracks_update_keep _ _ _ _ _ i ki)|]. intros ?.
    by apply (tracks_update_keep _ _ _ _ _ j kj). }
  intros ?.
  eapply returns_bind; [by eapply tracks_item|]. intros e1.
  apply returns_assuming. intros [-> _].
  eapply returns_bind; [apply tracks_detach|]. intros ?.
  eapply returns_bind; [by eapply tracks_item|]. intros e2.
  apply returns_assuming. intros [-> _].
  eapply returns_bind; [apply tracks_detach|]. intros ?.
  eapply returns_bind; [by eapply tracks_swap_items|]. intros ?.
  apply (tracks_reattach _ _ _ _ _ i j ki kj); rewrite ?length_insert; try done.
  apply list_lookup_insert_eq. by rewrite length_insert.
Qed.

Lemma tracks_MArray_swap (en : bool) (n : nat) (ul : list nat)
    (s : list Submobject) (i j : Z) (ki kj : nat) (ua ub x : nat) :
  subscript (length ul) i = Some ki → subscript (length ul) j = Some kj →
  ul !! ki = Some ua → ul !! kj = Some ub →
  <[kj := ua]> (<[ki := ub]> ul) !! ki = Some x →
  returns (tracks ul en s n (λ e, en = true → is_Some (index e))) (MArray.swap i j)
    (λ _, tracks (<[kj := ua]> (<[ki := ub]> ul)) en
            (Mobject.add (Element ua)
               (Mobject.add (Element x)
                  (Mobject.remove (Element ub) (Mobject.remove (Element ua) s))))
            n (λ e, en = true → is_Some (index e))).
Proof.
  intros Hi Hj Ha Hb Hx.
  pose proof (subscript_lt _ _ _ Hi) as Hki. pose proof (subscript_lt _ _ _ Hj) as Hkj.
  unfold MArray.swap, MArray._visual_swap, MArray._logic_swap.
  eapply returns_bind.
  { eapply returns_bind; [by eapply tracks_item|]. intros elem_i.
    apply returns_assuming. intros _.
    eapply returns_bind; [by eapply tracks_item|]. intros elem_j.
    apply returns_assuming. intros _.
    eapply returns_bind; [by apply (tracks_update_keep _ _ _ _ _ i ki)|]. intros ?.
    by apply (tracks_update_keep _ _ _ _ _ j kj). }
  intros ?.
  eapply returns_bind; [by eapply tracks_item|]. intros e1.
  apply returns_assuming. intros [-> _].
  eapply returns_bind; [apply tracks_detach|]. intros ?.
  eapply returns_bind; [by eapply tracks_item|]. intros e2.
  apply returns_assuming. intros [-> _].
  eapply returns_bind; [apply tracks_detach|]. intros ?.
  eapply returns_bind; [by eapply tracks_swap_items|]. intros ?.
  assert (length (<[kj := ua]> (<[ki := ub]> ul)) = length ul) as Hlen
    by (by rewrite !length_insert).
  assert (<[kj := ua]> (<[ki := ub]> ul) !! kj = Some ua) as Hkj'.
  { apply list_lookup_insert_eq. by rewrite length_insert. }
  apply tracks_get_flag. intros c0 Hen0. rewrite Hen0. clear c0 Hen0.
  eapply returns_bind.
  2: { intros ?. apply (tracks_reattach _ _ _ _ _ i j ki kj); rewrite ?Hlen; done. }
  destruct en; [|apply returns_ret].
  eapply returns_bind; [eapply tracks_item; [by rewrite Hlen|done]|]. intros elem_i.
  apply returns_assuming. intros [_ [ix Hix]]; [done|].
  eapply returns_bind; [by eapply returns_lookup_or|].
  intros ?. apply returns_assuming. intros ->.
  eapply returns_bind; [eapply tracks_item; [by rewrite Hlen|done]|]. intros elem_j.
  apply returns_assuming. intros [_ [iy Hiy]]; [done|].
  eapply returns_bind; [by eapply returns_lookup_or|].
  intros ?. apply returns_assuming. intros ->.
  eapply returns_bind.
  { apply (tracks_update_keep _ _ _ _ _ i ki); [done| |by rewrite Hlen].
    intros e _ _. by eexists. }
  intros ?.
  apply (tracks_update_keep _ _ _ _ _ j kj); [done| |by rewrite Hlen].
  intros e _ _. by eexists.
Qed.

(** ** Lists of identities under an exchange of two positions *)

Lemma lookup_exchange {A} (l : list A) (ki kj : nat) (a b : A) (p : nat) :
  l !! ki = Some a → l !! kj = Some b →
  <[kj := a]> (<[ki := b]> l) !! p
  = if decide (p = kj) then Some a
    else if decide (p = ki) then Some b else l !! p.
Proof.
  intros Ha Hb. pose proof (lookup_lt_Some _ _ _ Ha). pose proof (lookup_lt_Some _ _ _ Hb).
  destruct (decide (p = kj)) as [->|Hj].
  { apply list_lookup_insert_eq. by rewrite length_insert. }
  rewrite list_lookup_insert_ne by done.
  destruct (decide (p = ki)) as [->|Hi].
  { by apply list_lookup_insert_eq. }
  by rewrite list_lookup_insert_ne.
Qed.

Lemma exchange_Permutation {A} (l : list A) (ki kj : nat) (a b : A) :
  NoDup l → l !! ki = Some a → l !! kj = Some b →
  NoDup (<[kj := a]> (<[ki := b]> l)) ∧ <[kj := a]> (<[ki := b]> l) ≡ₚ l.
Proof.
  intros Hnd Ha Hb.
  assert (NoDup (<[kj := a]> (<[ki := b]> l))) as Hnd'.
  { apply NoDup_alt. intros p q x.
    rewrite !(lookup_exchange l ki kj a b) by done.
    pose proof (proj1 (NoDup_alt l) Hnd) as Hinj.
    repeat case_decide; subst; intros Hp Hq; simplify_eq; try done.
    - exfalso. by pose proof (Hinj _ _ _ Hb Ha).
    - exfalso. pose proof (Hinj _ _ _ Hq Ha). done.
    - exfalso. by pose proof (Hinj _ _ _ Ha Hb).
    - exfalso. pose proof (Hinj _ _ _ Hq Hb). done.
    - exfalso. pose proof (Hinj _ _ _ Hp Ha). done.
    - exfalso. pose proof (Hinj _ _ _ Hp Hb). done.
    - by apply (Hinj _ _ _ Hp Hq). }
  split; [done|].
  apply NoDup_Permutation; [done|done|].
  intros x. rewrite !list_elem_of_lookup. split.
  - intros [p Hp]. rewrite (lookup_exchange l ki kj a b) in Hp by done.
    repeat case_decide; simplify_eq; eauto.
  - intros [p Hp].
    destruct (decide (p = ki)) as [->|Hi]; [|destruct (decide (p = kj)) as [->|Hj]].
    + exists kj. rewrite (lookup_exchange l ki kj a b) by done.
      rewrite decide_True by done. congruence.
    + exists ki. rewrite (lookup_exchange l ki kj a b) by done.
      destruct (decide (ki = kj)) as [->|]; [congruence|].
      rewrite decide_True by done. congruence.
    + exists p. rewrite (lookup_exchange l ki kj a b) by done.
      by rewrite !decide_False.
Qed.

Lemma attached_add (l : list Submobject) (u : nat) :
  omap element_uid (Mobject.add (Element u) l)
  = filter (λ x, x ≠ u) (omap element_uid l) ++ [u].
Proof.
  unfold Mobject.add. rewrite omap_app. simpl. f_equal.
  induction l as [|m l IH]; [done|].
  destruct (decide (m = Element u)) as [->|Hne].
  - rewrite filter_cons_False by naive_solver. rewrite omap_cons. simpl.
    rewrite filter_cons_False by naive_solver. done.
  - rewrite filter_cons_True by done. rewrite !omap_cons.
    destruct (element_uid m) as [v|] eqn:Hm; [|done].
    rewrite filter_cons_True; [by rewrite IH|].
    intros ->. apply Hne. by apply element_uid_Some.
Qed.

Lemma remove_filter {A} `{EqDecision A} (u : A) (l : list A) :
  NoDup l → Mobject.remove u l = filter (λ x, x ≠ u) l.
Proof.
  induction 1 as [|x l Hx Hnd IH]; [done|].
  rewrite remove_cons. destruct (decide (x = u)) as [->|Hne].
  - rewrite filter_cons_False by naive_solver.
    by rewrite filter_ne_id.
  - rewrite filter_cons_True by done. by rewrite IH.
Qed.

(** The attached element visuals after the two [-=] and the two [+=] of
    [_logic_swap]. *)
Lemma attached_after_swap (s : list Submobject) (ul : list nat) (ua ub x : nat) :
  NoDup ul → omap element_uid s ≡ₚ ul →
  ua ∈ ul → ub ∈ ul → x = ub →
  omap element_uid
    (Mobject.add (Element ua)
       (Mobject.add (Element x)
          (Mobject.remove (Element ub) (Mobject.remove (Element ua) s))))
  ≡ₚ ul.
Proof.
  intros Hnd Hperm Ha Hb Hx.
  assert (NoDup (omap element_uid s)) as HndA by (by rewrite Hperm).
  rewrite !attached_add, !attached_remove.
  rewrite (remove_filter ua) by done.
  rewrite (remove_filter ub) by (by apply NoDup_filter).
  set (A := omap element_uid s) in *.
  apply NoDup_Permutation; [|done|].
  - apply NoDup_app. split; [|split; [|apply NoDup_singleton]].
    + apply NoDup_filter, NoDup_app.
      split; [|split; [|apply NoDup_singleton]].
      * by do 3 apply NoDup_filter.
      * intros y Hy ->%list_elem_of_singleton.
        apply list_elem_of_filter in Hy as [Hy _]. done.
    + intros y Hy ->%list_elem_of_singleton.
      apply list_elem_of_filter in Hy as [Hy _]. done.
  - intros y. rewrite <- Hperm in Ha, Hb. rewrite <- Hperm.
    rewrite !elem_of_app, !list_elem_of_filter, !elem_of_app,
      !list_elem_of_filter, !list_elem_of_singleton.
    subst x.
    destruct (decide (y = ua)) as [->|?]; [intuition congruence|].
    destruct (decide (y = ub)) as [->|?]; intuition congruence.
Qed.

(** X28. [swap(i, j)] keeps the list and the group in step. On a collection
    whose attached element visuals are exactly the elements of its list, the
    same holds after [MCollection.swap(i, j)], whatever the two positions and
    whether the call returns or raises, and, on an array whose elements have
    their captions when indexing is on, after the swap of [MArray]: no element
    is left detached and none is attached twice. *)
Theorem swap_keeps_in_step (c : MCollection) (i j : Z) :
  synced c →
  synced (state_of (MCollection.swap i j c))
  ∧ ((_index_enabled c = true → Forall (λ e, is_Some (index e)) (elements c)) →
     synced (state_of (MArray.swap i j c))).
Proof.
  intros (Hnd & Hperm & Hlt).
  set (n := Z.of_nat (length (elements c))).
  destruct (decide (- n ≤ i < n ∧ - n ≤ j < n)) as [[Hi Hj]|Hbad].
  2: { assert (MCollection.swap i j c = Exc IndexError c
               ∧ MArray.swap i j c = Exc IndexError c) as [-> ->]; [|done].
       unfold MCollection.swap, MArray.swap, MCollection._visual_swap,
         MArray._visual_swap.
       destruct (subscript (length (elements c)) i) as [ki|] eqn:Hi.
       - destruct (subscript (length (elements c)) j) as [kj|] eqn:Hj.
         { exfalso. apply Hbad. split; apply subscript_is_Some; eauto. }
         destruct (item_run_inside c i ki Hi) as (a & _ & Ha).
         split.
         + rewrite !bind_assoc. rewrite (bind_run _ _ _ _ _ Ha).
           rewrite !bind_assoc. unfold bind at 1.
           by rewrite (item_run_outside c j Hj).
         + rewrite !bind_assoc. rewrite (bind_run _ _ _ _ _ Ha).
           rewrite !bind_assoc. unfold bind at 1.
           by rewrite (item_run_outside c j Hj).
       - split.
         + rewrite !bind_assoc. unfold bind at 1.
           by rewrite (item_run_outside c i Hi).
         + rewrite !bind_assoc. unfold bind at 1.
           by rewrite (item_run_outside c i Hi). }
  apply subscript_is_Some in Hi as [ki Hi]. apply subscript_is_Some in Hj as [kj Hj].
  set (ul := uid <$> elements c) in *.
  assert (length ul = length (elements c)) as Hlen by (unfold ul; by rewrite length_fmap).
  rewrite <- Hlen in Hi, Hj.
  destruct (lookup_lt_is_Some_2 ul ki) as [ua Ha]; [by eapply subscript_lt|].
  destruct (lookup_lt_is_Some_2 ul kj) as [ub Hb]; [by eapply subscript_lt|].
  destruct (exchange_Permutation ul ki kj ua ub Hnd Ha Hb) as [Hnd' Hperm'].
  assert (∃ x, <[kj := ua]> (<[ki := ub]> ul) !! ki = Some x ∧ x = ub)
    as (x & Hx & Hxab).
  { rewrite (lookup_exchange ul ki kj ua ub) by done.
    destruct (decide (ki = kj)) as [->|Hne].
    - exists ua. split; [done|]. congruence.
    - exists ub. by rewrite decide_True. }
  assert (∀ c1 I,
    tracks (<[kj := ua]> (<[ki := ub]> ul)) (_index_enabled c)
      (Mobject.add (Element ua)
         (Mobject.add (Element x)
            (Mobject.remove (Element ub)
               (Mobject.remove (Element ua) (submobjects c)))))
      (next_uid c) I c1 →
    synced c1) as Hfinal.
  { intros c1 I0 (Hul1 & _ & Hs1 & Hn1 & _). unfold synced, attached_elements.
    rewrite Hul1, Hs1, Hn1. split; [done|]. split.
    - rewrite Hperm'. apply attached_after_swap; try done.
      + by eapply list_elem_of_lookup_2.
      + by eapply list_elem_of_lookup_2.
    - by rewrite Hperm'. }
  split.
  - destruct (tracks_MCollection_swap (_index_enabled c) (next_uid c) ul
                (submobjects c) i j ki kj ua ub x Hi Hj Ha Hb Hx c)
      as ([] & c1 & -> & Hc1).
    { unfold tracks. split_and!; try done. by apply Forall_true. }
    simpl. by eapply Hfinal.
  - intros Hidx.
    destruct (tracks_MArray_swap (_index_enabled c) (next_uid c) ul
                (submobjects c) i j ki kj ua ub x Hi Hj Ha Hb Hx c)
      as ([] & c1 & -> & Hc1).
    { unfold tracks. split_and!; try done.
      apply Forall_forall. intros e He Hen.
      by apply (proj1 (Forall_forall _ _) (Hidx Hen) e). }
    simpl. by eapply Hfinal.
Qed.

Lemma swap_keeps_in_step_witness :
  synced (state_of (MCollection.swap 0 (-1) sample_indexed))
  ∧ synced (state_of (MArray.swap 0 (-1) sample_indexed)).
Proof.
  destruct (swap_keeps_in_step sample_indexed 0 (-1)) as [H1 H2].
  - unfold sample_indexed. apply (synced_add_indexes sample_extent).
    unfold sample_array. apply synced_MArray_new.
  - split; [exact H1|]. apply H2.
    intros _. apply (bool_decide_unpack _). vm_compute. exact I.
Defined.

(** * C1: append attaches one element visual, pop detaches one *)

Section Attached.

Variable text_extent : string → Qc → Qc * Qc.

Lemma attaches_one_intro (c c' : MCollection) (e : MElement) :
  synced c → synced c' → elements c' = elements c ++ [e] →
  submobjects c' = Mobject.add (Element (uid e)) (submobjects c) →
  attaches_one c c'.
Proof.
  intros (_ & Hperm & _) (Hnd' & _ & _) Hel Hsub. exists e.
  assert (uid e ∉ attached_elements c) as Hfresh.
  { rewrite Hperm. rewrite Hel, fmap_app in Hnd'.
    apply NoDup_app in Hnd' as (_ & Hdisj & _).
    intros Hin. apply (Hdisj _ Hin). simpl. left. }
  split; [done|]. split; [done|].
  unfold attached_elements. rewrite Hsub. by apply attached_add_element.
Qed.

Lemma NoDup_lookup_delete {A} (l : list A) (j : nat) (u : A) :
  NoDup l → l !! j = Some u → u ∉ delete j l.
Proof.
  intros Hnd Hj. rewrite (delete_Permutation l j u Hj) in Hnd.
  by apply NoDup_cons in Hnd as [? _].
Qed.

Lemma detaches_one_intro (c c' : MCollection) (k : nat) (e : MElement) :
  synced c → elements c !! k = Some e →
  uid <$> elements c' = delete k (uid <$> elements c) →
  submobjects c' = Mobject.remove (Element (uid e)) (submobjects c) →
  detaches_one k c c'.
Proof.
  intros (Hnd & Hperm & _) He Hel Hsub.
  assert (NoDup (attached_elements c)) as Hnda by (by rewrite Hperm).
  assert (uid e ∈ attached_elements c) as Hin.
  { rewrite Hperm. apply list_elem_of_fmap. exists e. split; [done|].
    by eapply list_elem_of_lookup_2. }
  apply list_elem_of_lookup in Hin as [j Hj].
  assert (attached_elements c' = delete j (attached_elements c)) as Hatt.
  { unfold attached_elements at 1. rewrite Hsub, attached_remove.
    by apply remove_NoDup_delete. }
  exists e, j. split; [done|]. split; [done|]. split; [done|]. split; [done|].
  rewrite Hatt. by apply NoDup_lookup_delete.
Qed.

Lemma frame_update_item (c : MCollection) (i : Z) (f : MElement → MElement) :
  (∀ e, uid (f e) = uid e) →
  uid <$> elements (state_of (update_item i f c)) = uid <$> elements c
  ∧ submobjects (state_of (update_item i f c)) = submobjects c.
Proof.
  intros Hf. rewrite update_item_run.
  destruct (subscript (length (elements c)) i) as [k|]; [|done].
  simpl. split; [by apply uid_alter|done].
Qed.

Lemma frame_set_index_loop (positions : list Z) (old_index : Text) (c : MCollection) :
  uid <$> elements (state_of (MArray._set_index_loop positions old_index c))
  = uid <$> elements c
  ∧ submobjects (state_of (MArray._set_index_loop positions old_index c))
    = submobjects c.
Proof.
  revert old_index c. induction positions as [|i rest IH]; intros old_index c;
    [by split|].
  set (P := λ s : MCollection,
         uid <$> elements s = uid <$> elements c
         ∧ submobjects s = submobjects c).
  change (P (state_of (MArray._set_index_loop (i :: rest) old_index c))).
  simpl. unfold bind at 1. rewrite item_run.
  destruct (getitem (elements c) i) as [curr|]; [|by split].
  unfold bind at 1, lookup_or.
  destruct (index curr) as [curr_index|]; [|by split].
  unfold ret at 1. unfold bind at 1.
  pose proof (frame_update_item c i
    (with_index (Some (Text_move_to old_index (Text_box curr_index))))
    (λ _, eq_refl)) as [Hu Hs].
  destruct (update_item i _ c) as [[] c1|ex c1]; simpl in Hu, Hs; [|by split].
  destruct (IH curr_index c1) as [Hu1 Hs1]. unfold P. by rewrite Hu1, Hs1.
Qed.

(** [MCollection.pop] at a position of the list: the list loses that element
    and the group its visual. *)
Lemma pop_removes (c : MCollection) (index : Z) (k : nat) (e : MElement) :
  subscript (length (elements c)) index = Some k → elements c !! k = Some e →
  ∃ c', MCollection.pop index c = Ret tt c'
        ∧ uid <$> elements c' = delete k (uid <$> elements c)
        ∧ submobjects c' = Mobject.remove (Element (uid e)) (submobjects c)
        ∧ _index_enabled c' = _index_enabled c.
Proof.
  intros Hk He. eexists. split; [by apply (pop_run c index k e)|].
  simpl. by rewrite uid_shift_slice, list_fmap_delete.
Qed.

(** [MArray.pop], whether it returns or raises: at a position of the list,
    the list loses that element and the group its visual; otherwise nothing
    changes. *)
Lemma MArray_pop_removes (c : MCollection) (index : Z) :
  match subscript (length (elements c)) index with
  | Some k =>
      ∃ e, elements c !! k = Some e
           ∧ uid <$> elements (state_of (MArray.pop index c))
             = delete k (uid <$> elements c)
           ∧ submobjects (state_of (MArray.pop index c))
             = Mobject.remove (Element (uid e)) (submobjects c)
  | None => state_of (MArray.pop index c) = c
  end.
Proof.
  destruct (subscript (length (elements c)) index) as [k|] eqn:Hk.
  - pose proof (subscript_lt _ _ _ Hk) as Hlt.
    destruct (item_run_inside c index k Hk) as (e & He & Hitem).
    exists e. split; [done|].
    set (P := λ s : MCollection,
           uid <$> elements s = delete k (uid <$> elements c)
           ∧ submobjects s = Mobject.remove (Element (uid e)) (submobjects c)).
    change (P (state_of (MArray.pop index c))).
    unfold MArray.pop. unfold bind at 1, get.
    rewrite decide_True by lia.
    rewrite (bind_run _ _ _ _ _ Hitem).
    destruct (pop_removes c index k e Hk He) as (c1 & Hpop & Hu & Hs & Hen).
    rewrite (bind_run _ _ _ _ _ Hpop).
    unfold bind at 1, get.
    destruct (_index_enabled c1); [|by split].
    unfold bind at 1, lookup_or.
    destruct (Collection.index e) as [popped_index|]; [|by split].
    unfold ret at 1. unfold MArray._set_index_from.
    match goal with |- context [MArray._set_index_loop ?p ?o ?s] =>
      destruct (frame_set_index_loop p o s) as [Hu1 Hs1]
    end.
    unfold P. by rewrite Hu1, Hs1.
  - unfold MArray.pop. unfold bind at 1, get.
    case_decide; [|done].
    unfold bind at 1. by rewrite (item_run_outside c index Hk).
Qed.

(** [MStack.pop] on a stack that is not empty: the top element and its visual
    go. *)
Lemma MStack_pop_removes (c : MCollection) :
  elements c ≠ [] →
  ∃ c' e, MStack.pop c = Ret tt c'
          ∧ elements c !! (length (elements c) - 1)%nat = Some e
          ∧ uid <$> elements c'
            = delete (length (elements c) - 1)%nat (uid <$> elements c)
          ∧ submobjects c' = Mobject.remove (Element (uid e)) (submobjects c).
Proof.
  intros Hne.
  assert (length (elements c) ≠ 0%nat) as Hlen
    by (by destruct (elements c)).
  set (k := (length (elements c) - 1)%nat).
  assert (subscript (length (elements c)) (Z.of_nat (length (elements c)) - 1)
          = Some k) as Hk.
  { rewrite subscript_nonneg by lia. f_equal. lia. }
  destruct (lookup_lt_is_Some_2 (elements c) k) as [e He]; [lia|].
  destruct (pop_removes c _ k e Hk He) as (c' & Hpop & Hu & Hs & _).
  exists c', e. split; [|done].
  unfold MStack.pop. run_monad. exact Hpop.
Qed.

Lemma MCollection_append_attaches (c : MCollection) (v : Py.value) :
  ∃ e c', MCollection.append text_extent v c = Ret tt c'
          ∧ elements c' = elements c ++ [e]
          ∧ submobjects c' = Mobject.add (Element (uid e)) (submobjects c).
Proof.
  unfold MCollection.append, MCollection._update_style.
  rewrite (bind_run _ _ _ _ _ (modify_run _ _)).
  match goal with |- context [bind _ _ ?s] =>
    destruct (append_placed_run text_extent s v) as (e & -> & _)
  end.
  by eexists e, _.
Qed.

(** C1. Whatever list an array or a stack is built from and whatever calls of
    append and pop (and, on an array, of add_indexes) follow, with any
    arguments and whether they return or raise, the element visuals attached
    to the group are exactly the elements of the list, each once: the length
    of the list is the number of attached element visuals. On the collection
    so reached, [append] returns, puts one new element at the end of the list
    and attaches its visual, which was not attached before, and no other.
    [pop] at a position of the list takes that one element from the list and
    detaches its visual, and no other (for an array this is the state the
    call leaves, whether it returns or raises while renumbering the
    captions); [pop] on an empty list or with an index the list does not
    accept leaves the list and the group as they were. *)
Theorem length_matches_attached (arr : list Py.value) (direction : Point3D)
    (buff : Qc) (style : Style)
    (array_script : list ArrayCall) (stack_script : list StackCall) :
  let a :=
    run_script (array_call text_extent) array_script
      (MArray.new text_extent arr direction style) in
  let s :=
    run_script (stack_call text_extent) stack_script
      (MStack.new text_extent arr buff style) in
  ((length (elements a) = length (attached_elements a)
    ∧ attached_elements a ≡ₚ uid <$> elements a)
   ∧ (∀ value, ∃ a', MArray.append text_extent value a = Ret tt a'
                     ∧ attaches_one a a')
   ∧ (∀ index, match subscript (length (elements a)) index with
               | Some k => detaches_one k a (state_of (MArray.pop index a))
               | None => state_of (MArray.pop index a) = a
               end))
  ∧ ((length (elements s) = length (attached_elements s)
      ∧ attached_elements s ≡ₚ uid <$> elements s)
     ∧ (∀ value, ∃ s', MStack.append text_extent value s = Ret tt s'
                       ∧ attaches_one s s')
     ∧ (∃ s', MStack.pop s = Ret tt s'
              ∧ match elements s with
                | [] => s' = s
                | _ :: _ => detaches_one (length (elements s) - 1) s s'
                end)).
Proof.
  intros a s.
  assert (synced a ∧ captioned a) as [Ha Hcap].
  { subst a.
    assert (synced (MArray.new text_extent arr direction style)
            ∧ captioned (MArray.new text_extent arr direction style)) as Hnew.
    { split; [apply synced_MArray_new|].
      intros Hen. by rewrite flag_MArray_new in Hen. }
    revert Hnew. generalize (MArray.new text_extent arr direction style).
    induction array_script as [|call rest IH]; intros c Hc; [done|].
    simpl. apply IH. destruct Hc as [Hs Hc].
    destruct call as [value|index|dir b]; simpl.
    - split; [by apply synced_MArray_append|by apply captioned_MArray_append].
    - split; [by apply synced_MArray_pop|by apply captioned_MArray_pop].
    - split; [by apply synced_add_indexes|by apply captioned_add_indexes]. }
  assert (synced s) as Hs.
  { apply synced_run_script; [|apply synced_MStack_new].
    intros [value|] c Hc; simpl.
    - by apply synced_MCollection_append.
    - by apply synced_MStack_pop. }
  split; (split; [|split]).
  - destruct Ha as (_ & Hp & _). split; [|done]. by rewrite Hp, length_fmap.
  - intros value.
    destruct (MArray_append_run text_extent a value Hcap)
      as (e & a' & Hrun & Hel & Hsub & _).
    exists a'. split; [done|].
    apply (attaches_one_intro a a' e); try done.
    pose proof (synced_MArray_append text_extent a value Ha) as Ha'.
    by rewrite Hrun in Ha'.
  - intros index. pose proof (MArray_pop_removes a index) as Hpop.
    destruct (subscript (length (elements a)) index) as [k|]; [|done].
    destruct Hpop as (e & He & Hu & Hsub).
    by apply (detaches_one_intro a _ k e).
  - destruct Hs as (_ & Hp & _). split; [|done]. by rewrite Hp, length_fmap.
  - intros value.
    destruct (MCollection_append_attaches s value) as (e & s' & Hrun & Hel & Hsub).
    exists s'. split; [done|].
    apply (attaches_one_intro s s' e); try done.
    pose proof (synced_MCollection_append text_extent s value Hs) as Hs'.
    unfold MStack.append in *. by rewrite Hrun in Hs'.
  - destruct (decide (elements s = [])) as [Hel|Hel].
    + exists s. rewrite Hel. split; [|done].
      unfold MStack.pop. run_monad. by apply pop_run_empty.
    + destruct (MStack_pop_removes s Hel) as (s' & e & Hrun & He & Hu & Hsub).
      exists s'. split; [done|].
      pose proof (detaches_one_intro s s' _ e Hs He Hu Hsub) as Hd.
      by destruct (elements s).
Qed.

End Attached.
